(** * rix::fs — thin wrappers over [std::filesystem], checked against their
    specification.

    The library forwards every call to the host's [std::filesystem] and
    [<fstream>] and translates error codes into exceptions.  The development
    has three layers:

    - [Host]: the interface of the standard-library calls the wrappers make,
      each call returning its value together with the [std::error_code] it
      leaves behind and the new state of the world;
    - the wrappers of [file.hpp], [dir.hpp], [ops.hpp] and [path.hpp],
      written once, over any [Host];
    - [model_host]: a reference host, a small in-memory filesystem that follows
      the effects ISO C++ prescribes for each call ([fs.op.funcs]), as
      the GNU implementation carries them out on a POSIX system, in two
      flavours that differ only in how text-mode streams treat bytes; and
      three hosts that fail where the reference host cannot.

    Definitions come first, then the properties of the wrappers on every
    host, of the reference host and of the lexical operations, then the
    claims of the specification, C1 to C10, and last what else the
    functions do, X1 to X30. *)

From Stdlib Require Import ZArith String Ascii List Bool Lia.
From stdpp Require Import base option list gmap strings.
Import ListNotations.

Local Open Scope string_scope.
Local Open Scope Z_scope.

(** ** Errors *)

(** The [std::errc] values that occur here. *)
Inductive errc : Set :=
| ENOENT | ENOTDIR | EEXIST | EISDIR | ENOTEMPTY | EBUSY | EINVAL | EIO | EACCES
| EOVERFLOW.

(** A [std::error_code]: [None] is the cleared code, the one that converts to
    [false]. *)
Definition error_code : Set := option errc.

(** The two exception types the wrappers throw, with their [what()] text. *)
Inductive exn : Set :=
| system_error (ec : errc) (what : string)
| runtime_error (what : string).

Inductive result (A : Type) : Type :=
| Ok (a : A)
| Throw (e : exn).
Arguments Ok {A} a.
Arguments Throw {A} e.

(** What is left of an exception when its message is forgotten. *)
Inductive failure : Set :=
| IOError (ec : errc)
| LogicError.

Definition failure_of (e : exn) : failure :=
  match e with
  | system_error ec _ => IOError ec
  | runtime_error _ => LogicError
  end.

(** The outcome of a call with its message forgotten. *)
Definition outcome {A} (r : result A) : failure + A :=
  match r with
  | Ok a => inr a
  | Throw e => inl (failure_of e)
  end.

(** [std::uintmax_t] is 64 bits wide; [static_cast<std::uintmax_t>] wraps. *)
Definition uintmax_modulus : Z := 2 ^ 64.
Definition to_uintmax (z : Z) : Z := z mod uintmax_modulus.
Definition uintmax_minus_one : Z := to_uintmax (-1).

(** [std::size_t] is as wide; [std::streamsize] is the signed type of that
    width. *)
Definition to_size_t (z : Z) : Z := to_uintmax z.
Definition to_streamsize (z : Z) : Z :=
  let u := z mod uintmax_modulus in
  if u <? 2 ^ 63 then u else u - uintmax_modulus.

(** ** Paths

    A [std::filesystem::path] holds a pathname string.  The host is
    POSIX-like: there is no root-name, the separator is ['/'] and the native
    and the generic pathname formats coincide. *)

Definition path : Set := string.

Definition slash : ascii := "/"%char.
Definition is_sep (c : ascii) : bool := Ascii.eqb c slash.

(** [path::empty], [path::string], [path(string)]. *)
Definition path_empty (p : path) : bool :=
  match p with EmptyString => true | String _ _ => false end.
Definition path_string (p : path) : string := p.
Definition path_of_string (s : string) : path := s.

(** [std::string::back] and [push_back]. *)
Fixpoint back (s : string) : option ascii :=
  match s with
  | EmptyString => None
  | String c EmptyString => Some c
  | String _ s' => back s'
  end.

Definition push_back (s : string) (c : ascii) : string :=
  s +:+ String c EmptyString.

(** The text between separators: ["a//b/"] has the fields [a], [], [b], []. *)
Fixpoint fields (s : string) : list string :=
  match s with
  | EmptyString => [EmptyString]
  | String c s' =>
      if is_sep c then EmptyString :: fields s'
      else match fields s' with
           | f :: fs => String c f :: fs
           | [] => [String c EmptyString]
           end
  end.

Definition nonempty (s : string) : bool := negb (path_empty s).

Definition has_root_directory (p : path) : bool :=
  match p with
  | String c _ => is_sep c
  | EmptyString => false
  end.

(** The filenames of a path, in order. *)
Definition filenames (p : path) : list string := filter (λ f, nonempty f = true) (fields p).

Definition ends_with_sep (p : path) : bool :=
  match back p with
  | Some c => is_sep c
  | None => false
  end.

(** A pathname once runs of separators are read as one ([fs.path.generic]):
    an optional root directory, then filenames, each one followed by a
    separator or not (only the last one can lack it). *)
Record path_elements : Set := PathElements {
  el_root : bool;
  el_items : list (string * bool)
}.

Fixpoint mark_items (fs : list string) (last_sep : bool) : list (string * bool) :=
  match fs with
  | [] => []
  | [f] => [(f, last_sep)]
  | f :: fs' => (f, true) :: mark_items fs' last_sep
  end.

Definition decompose (p : path) : path_elements :=
  {| el_root := has_root_directory p;
     el_items := mark_items (filenames p) (ends_with_sep p) |}.

Definition render_item (it : string * bool) : string :=
  if snd it then push_back (fst it) slash else fst it.

Definition render_items (its : list (string * bool)) : string :=
  fold_right String.append EmptyString (map render_item its).

Definition render (e : path_elements) : path :=
  (if el_root e then String slash EmptyString else EmptyString)
  +:+ render_items (el_items e).

(** [path::generic_string]: the pathname in the generic format, written
    out element by element as the GNU implementation does, so that a run of
    separators comes out as one. *)
Definition generic_string (p : path) : string := render (decompose p).

Definition dot : string := ".".
Definition dotdot : string := "..".
Definition is_dot (f : string) : bool := String.eqb f dot.
Definition is_dotdot (f : string) : bool := String.eqb f dotdot.

(** [path::lexically_normal], by the steps of [fs.path.generic] paragraph 6.
    Steps 2 and 3 are [decompose]. *)

(** Step 4: remove each dot filename and any separator right after it. *)
Definition drop_dots (its : list (string * bool)) : list (string * bool) :=
  filter (λ it, is_dot (fst it) = false) its.

(** Step 5: as long as any appear, remove a filename other than dot-dot that
    is followed by a separator and a dot-dot filename, along with any
    separator right after.  [kept] holds the items before the cursor, last
    one first. *)
Fixpoint cancel_dotdots (kept : list (string * bool)) (its : list (string * bool))
  : list (string * bool) :=
  match its with
  | [] => rev kept
  | it :: rest =>
      if is_dotdot (fst it) then
        match kept with
        | k :: kept' =>
            if is_dotdot (fst k) then cancel_dotdots (it :: kept) rest
            else cancel_dotdots kept' rest
        | [] => cancel_dotdots [it] rest
        end
      else cancel_dotdots (it :: kept) rest
  end.

(** Step 6: with a root directory, remove all dot-dot filenames and the
    separators right after them. *)
Definition drop_root_dotdots (root : bool) (its : list (string * bool))
  : list (string * bool) :=
  if root then filter (λ it, is_dotdot (fst it) = false) its else its.

(** Step 7: if the last filename is dot-dot, remove a trailing separator. *)
Fixpoint trim_last_dotdot (its : list (string * bool)) : list (string * bool) :=
  match its with
  | [] => []
  | [it] => if is_dotdot (fst it) then [(fst it, false)] else [it]
  | it :: rest => it :: trim_last_dotdot rest
  end.

Definition normal_items (root : bool) (its : list (string * bool))
  : list (string * bool) :=
  trim_last_dotdot (drop_root_dotdots root (cancel_dotdots [] (drop_dots its))).

(** Step 1 (an empty path stays empty) and step 8 (a path that became empty
    is a dot).  A path without a filename is its root directory or is
    empty: the GNU implementation returns it as it is spelled, so that
    ["//"] stays ["//"], where step 3 of the standard's text would write
    ["/"]. *)
Definition lexically_normal (p : path) : path :=
  if bool_decide (filenames p = []) then p
  else
    let e := decompose p in
    let its := normal_items (el_root e) (el_items e) in
    if negb (el_root e) && bool_decide (its = []) then dot
    else render {| el_root := el_root e; el_items := its |}.

(** Whether two separators stand side by side, and whether a name holds a
    separator at all. *)
Fixpoint no_double_sep (s : string) : bool :=
  match s with
  | EmptyString => true
  | String c s' =>
      match s' with
      | EmptyString => true
      | String c' _ => negb (is_sep c && is_sep c') && no_double_sep s'
      end
  end.

Fixpoint has_sep (s : string) : bool :=
  match s with
  | EmptyString => false
  | String c s' => is_sep c || has_sep s'
  end.

(** *** Well-formed elements

    The vocabulary of the statements about [lexically_normal] and
    [generic_string]. *)

(** A name: a filename that is not empty and holds no separator. *)
Definition is_name (f : string) : Prop := nonempty f = true ∧ has_sep f = false.

Definition names_ok (its : list (string * bool)) : Prop :=
  Forall (λ it, is_name (fst it)) its.

(** Only the last item can lack its separator. *)
Fixpoint well_marked (its : list (string * bool)) : Prop :=
  match its with
  | [] => True
  | it :: rest => (rest = [] ∨ snd it = true) ∧ well_marked rest
  end.

(** Whether the last item is followed by a separator. *)
Definition trailing (its : list (string * bool)) : bool :=
  match last its with
  | Some it => snd it
  | None => false
  end.

(** Closing the last item with a separator. *)
Fixpoint close_last (its : list (string * bool)) : list (string * bool) :=
  match its with
  | [] => []
  | [it] => [(fst it, true)]
  | it :: rest => it :: close_last rest
  end.

(** The last item, when it is a dot-dot, has no separator after it. *)
Definition trimmed (its : list (string * bool)) : Prop :=
  ∀ it, last its = Some it → is_dotdot (fst it) = true → snd it = false.

(** The names are some dot-dots followed by names that are not dot-dot;
    under a root directory there are no dot-dots at all. *)
Definition dotdots_lead (root : bool) (names : list string) : Prop :=
  ∃ (k : nat) (rest : list string),
    names = (replicate k dotdot ++ rest)%list ∧ (dotdot ∉ rest) ∧ (root = true → k = 0%nat).

(** In the items kept so far by [cancel_dotdots], below a dot-dot there are
    only dot-dots. *)
Fixpoint stack_ok (kept : list (string * bool)) : Prop :=
  match kept with
  | [] => True
  | k :: kept' =>
      (is_dotdot (fst k) = true → Forall (λ it, is_dotdot (fst it) = true) kept')
      ∧ stack_ok kept'
  end.

(** *** path.hpp *)

Definition normalize (p : path) : path := lexically_normal p.

Definition ensure_trailing_separator (p : path) : path :=
  if path_empty p then p
  else
    let s := generic_string p in
    let s :=
      if nonempty s && negb (bool_decide (back s = Some slash))
      then push_back s slash
      else s in
    path_of_string s.

Definition to_generic_string (p : path) : string := generic_string p.
Definition to_native_string (p : path) : string := path_string p.

(** ** More of [std::filesystem::path]

    The decomposition of a pathname, [operator/] and [replace_extension],
    on the same POSIX-like host.  The GNU implementation agrees with these
    definitions, and with [generic_string] and [lexically_normal] above, on
    every pathname of up to six characters over a letter, the period and
    the separator. *)

Definition period : ascii := "."%char.
Definition is_period (c : ascii) : bool := Ascii.eqb c period.

(** Whether a string holds a character that satisfies [d]; the text after
    the last such character (all of the string when there is none), the
    text up to and including it, and the text before it (all of the string
    when there is none). *)
Fixpoint has_char (d : ascii → bool) (s : string) : bool :=
  match s with
  | EmptyString => false
  | String c s' => d c || has_char d s'
  end.

Fixpoint after_last (d : ascii → bool) (s : string) : string :=
  match s with
  | EmptyString => EmptyString
  | String c s' =>
      if has_char d s' then after_last d s' else if d c then s' else s
  end.

Fixpoint upto_last (d : ascii → bool) (s : string) : string :=
  match s with
  | EmptyString => EmptyString
  | String c s' =>
      if has_char d s' then String c (upto_last d s')
      else if d c then String c EmptyString else EmptyString
  end.

Fixpoint before_last (d : ascii → bool) (s : string) : string :=
  match s with
  | EmptyString => EmptyString
  | String c s' =>
      if has_char d s' then String c (before_last d s')
      else if d c then EmptyString else s
  end.

(** [path::filename] and [path::has_filename] *)
Definition path_filename (p : path) : path := after_last is_sep p.
Definition has_filename (p : path) : bool := nonempty (path_filename p).

(** The extension of a filename starts at its last period, unless the
    filename is dot or dot-dot or has its only period in front; the stem is
    the rest ([fs.path.decompose]). *)
Definition extension_of (f : string) : string :=
  if is_dot f || is_dotdot f then EmptyString
  else match f with
       | EmptyString => EmptyString
       | String c f' =>
           if has_char is_period f' then String period (after_last is_period f')
           else EmptyString
       end.

Definition stem_of (f : string) : string :=
  if is_dot f || is_dotdot f then f
  else match f with
       | EmptyString => EmptyString
       | String c f' =>
           if has_char is_period f' then String c (before_last is_period f') else f
       end.

(** [path::extension] and [path::stem] *)
Definition path_extension (p : path) : path := extension_of (path_filename p).
Definition path_stem (p : path) : path := stem_of (path_filename p).

(** A string without the separators it ends with. *)
Fixpoint strip_seps (s : string) : string :=
  match s with
  | EmptyString => EmptyString
  | String c s' =>
      match strip_seps s' with
      | EmptyString => if is_sep c then EmptyString else String c EmptyString
      | t => String c t
      end
  end.

(** [path::parent_path]: the path itself when it has no filename at all,
    otherwise the pathname up to the end of the element before the last
    one. *)
Definition parent_path (p : path) : path :=
  if bool_decide (filenames p = []) then p
  else
    let q := strip_seps (upto_last is_sep p) in
    if path_empty q && has_root_directory p then String slash EmptyString else q.

(** [operator/] ([fs.path.append]): an absolute [q] replaces [p];
    otherwise [q] is appended, after a separator when [p] has a
    filename. *)
Definition path_append (p q : path) : path :=
  if has_root_directory q then q
  else if has_filename p then p +:+ String slash q
  else p +:+ q.

(** Iteration over a path ([fs.path.itr]): the root directory, the
    filenames, and an empty element when a separator follows the last
    filename.  A path that is nothing but its root directory yields itself,
    as it is spelled. *)
Definition path_iter (p : path) : list path :=
  if bool_decide (filenames p = []) then (if path_empty p then [] else [p])
  else
    ((if has_root_directory p then [String slash EmptyString] else [])
     ++ filenames p
     ++ (if ends_with_sep p then [EmptyString] else []))%list.

Definition starts_with_period (s : string) : bool :=
  match s with
  | String c _ => is_period c
  | EmptyString => false
  end.

(** [path::replace_extension]: the extension is removed, a period is
    appended when the replacement is not empty and does not start with one,
    then the replacement is. *)
Definition path_replace_extension (p : path) (replacement : path) : path :=
  let base := upto_last is_sep p +:+ path_stem p in
  let base :=
    if nonempty replacement && negb (starts_with_period replacement)
    then push_back base period else base in
  base +:+ replacement.

(** *** path.hpp, continued *)

Definition join (lhs rhs : path) : path := path_append lhs rhs.

(** The overload of [join] that takes a vector of segments. *)
Definition join_segments (base : path) (segments : list path) : path :=
  fold_left path_append segments base.

Definition filename (p : path) : string := path_string (path_filename p).
Definition stem (p : path) : string := path_string (path_stem p).
Definition extension (p : path) : string := path_string (path_extension p).
Definition parent (p : path) : path := parent_path p.

Definition replace_extension (p : path) (ext : string) : path :=
  if path_empty ext then path_replace_extension p EmptyString
  else if nonempty ext && negb (starts_with_period ext) then
    path_replace_extension p (push_back EmptyString period +:+ ext)
  else path_replace_extension p (path_of_string ext).

Definition split (p : path) : list string :=
  filter (λ s, nonempty s = true) (map path_string (path_iter p)).

(** ** The host interface

    What the wrappers call in [std::filesystem] and [<fstream>].  A call
    that takes a [std::error_code&] returns the code it leaves in it: every
    such call clears the code when it reports no error ([fs.err.report]), so
    the code after the call depends on that call alone. *)

Inductive file_type : Set :=
| ft_none | ft_not_found | ft_regular | ft_directory | ft_symlink
| ft_block | ft_character | ft_fifo | ft_socket | ft_unknown.

Global Instance file_type_eq_dec : EqDecision file_type.
Proof. solve_decision. Defined.

Global Instance errc_eq_dec : EqDecision errc.
Proof. solve_decision. Defined.

(** [std::filesystem::copy_options], the group that governs existing
    destination files. *)
Inductive copy_options : Set :=
| copy_none | skip_existing | overwrite_existing.

(** [std::ios::openmode] *)
Record openmode : Set := Openmode {
  om_in : bool; om_out : bool; om_trunc : bool; om_app : bool; om_binary : bool
}.

Definition ios_none : openmode := Openmode false false false false false.
Definition ios_in : openmode := Openmode true false false false false.
Definition ios_out : openmode := Openmode false true false false false.
Definition ios_trunc : openmode := Openmode false false true false false.
Definition ios_app : openmode := Openmode false false false true false.
Definition ios_binary : openmode := Openmode false false false false true.

Definition om_or (a b : openmode) : openmode :=
  {| om_in := om_in a || om_in b;
     om_out := om_out a || om_out b;
     om_trunc := om_trunc a || om_trunc b;
     om_app := om_app a || om_app b;
     om_binary := om_binary a || om_binary b |}.
Infix "|:" := om_or (at level 50, left associativity).

Class Host : Type := {
  world : Type;
  (** [status(p, ec)] *)
  std_status : path → world → file_type * error_code;
  (** [fs.op.status]: when [ec] is set, the type returned is [not_found],
      [unknown] or [none]. *)
  std_status_error : ∀ p w e,
    snd (std_status p w) = Some e →
    fst (std_status p w) ∈ [ft_not_found; ft_unknown; ft_none];
  (** [file_size(p, ec)] *)
  std_file_size : path → world → Z * error_code;
  (** [remove(p, ec)] *)
  std_remove : path → world → bool * error_code * world;
  (** [remove_all(p, ec)] *)
  std_remove_all : path → world → Z * error_code * world;
  (** [create_directory(p, ec)] and [create_directories(p, ec)] *)
  std_create_directory : path → world → bool * error_code * world;
  std_create_directories : path → world → bool * error_code * world;
  (** [copy_file(from, to, options, ec)] *)
  std_copy_file : path → path → copy_options → world → bool * error_code * world;
  (** [std::ofstream out(p, mode)]: the stream, or [errno] when it is not
      open. *)
  ofstream : Type;
  ofstream_open : path → openmode → world → (errc + ofstream) * world;
  (** [out.write(data, n)], the stream flushed into the world *)
  ofstream_write : ofstream → string → world → ofstream * world;
  (** [!out], that is [out.fail()] *)
  ofstream_fail : ofstream → bool;
  (** [std::ifstream in(p, mode)] *)
  ifstream : Type;
  ifstream_open : path → openmode → world → errc + ifstream;
  (** the range [istreambuf_iterator<char>(in), istreambuf_iterator<char>()] *)
  istreambuf_all : ifstream → string * ifstream;
  (** [in.seekg(0, std::ios::end); in.tellg()] and
      [in.seekg(0, std::ios::beg); in.tellg()] *)
  ifstream_seek_end_tell : ifstream → Z * ifstream;
  ifstream_seek_beg_tell : ifstream → Z * ifstream;
  (** [in.read(buf, n)]: the characters stored; [in.gcount()] is their
      number *)
  ifstream_read : ifstream → Z → string * ifstream;
  ifstream_eof : ifstream → bool;
  ifstream_fail : ifstream → bool
}.

Section Wrappers.
Context `{H : Host}.

(** *** What the standard derives from [status] *)

Definition status_known (s : file_type) : bool :=
  negb (bool_decide (s = ft_none)).

(** [exists(file_status)] *)
Definition exists_status (s : file_type) : bool :=
  status_known s && negb (bool_decide (s = ft_not_found)).

(** [exists(p, ec)]: as if by [status(p, ec)]; clears [ec] when the status
    is known ([fs.op.exists]). *)
Definition std_exists (p : path) (w : world) : bool * error_code :=
  let '(s, ec) := std_status p w in
  if status_known s then (exists_status s, None) else (false, ec).

(** [is_regular_file(p, ec)] and [is_directory(p, ec)]: [ec] is set as by
    [status(p, ec)] ([fs.op.is.regular.file], [fs.op.is.directory]). *)
Definition std_is_regular_file (p : path) (w : world) : bool * error_code :=
  let '(s, ec) := std_status p w in (bool_decide (s = ft_regular), ec).

Definition std_is_directory (p : path) (w : world) : bool * error_code :=
  let '(s, ec) := std_status p w in (bool_decide (s = ft_directory), ec).

(** *** file.hpp *)

Definition path_exists (p : path) (w : world) : bool :=
  fst (std_exists p w).

Definition is_file_path (p : path) (w : world) : bool :=
  fst (std_is_regular_file p w).

Definition is_dir_path (p : path) (w : world) : bool :=
  fst (std_is_directory p w).

Definition file_size_bytes (p : path) (w : world) : result Z :=
  let '(ok_file, ec) := std_is_regular_file p w in
  match ec with
  | Some e =>
      Throw (system_error e ("rix::fs::file_size_bytes: stat failed: " +:+ path_string p))
  | None =>
      if negb ok_file then
        Throw (runtime_error ("rix::fs::file_size_bytes: not a regular file: " +:+ path_string p))
      else
        let '(sz, ec) := std_file_size p w in
        match ec with
        | Some e =>
            Throw (system_error e ("rix::fs::file_size_bytes: file_size failed: " +:+ path_string p))
        | None => Ok sz
        end
  end.

Definition read_text (p : path) (w : world) : result string :=
  match ifstream_open p ios_in w with
  | inl errno =>
      Throw (system_error errno ("rix::fs::read_text: open failed: " +:+ path_string p))
  | inr in_ =>
      let '(content, in_) := istreambuf_all in_ in
      if negb (ifstream_eof in_) && ifstream_fail in_ then
        Throw (runtime_error ("rix::fs::read_text: read failed: " +:+ path_string p))
      else Ok content
  end.

Definition read_bytes (p : path) (w : world) : result string :=
  match ifstream_open p (ios_in |: ios_binary) w with
  | inl errno =>
      Throw (system_error errno ("rix::fs::read_bytes: open failed: " +:+ path_string p))
  | inr in_ =>
      let '(end_, in_) := ifstream_seek_end_tell in_ in
      let '(begin_, in_) := ifstream_seek_beg_tell in_ in
      if end_ <? begin_ then
        Throw (runtime_error ("rix::fs::read_bytes: invalid size: " +:+ path_string p))
      else
        let size := to_size_t (end_ - begin_) in
        if negb (size =? 0) then
          let '(buf, in_) := ifstream_read in_ (to_streamsize size) in
          let gcount := Z.of_nat (String.length buf) in
          if negb (to_size_t gcount =? size) || ifstream_fail in_ then
            Throw (runtime_error ("rix::fs::read_bytes: read failed: " +:+ path_string p))
          else Ok buf
        else Ok EmptyString
  end.

Definition write_text (p : path) (text : string) (w : world) : result unit * world :=
  match ofstream_open p (ios_out |: ios_trunc) w with
  | (inl errno, w) =>
      (Throw (system_error errno ("rix::fs::write_text: open failed: " +:+ path_string p)), w)
  | (inr out, w) =>
      let '(out, w) := ofstream_write out text w in
      if ofstream_fail out then
        (Throw (runtime_error ("rix::fs::write_text: write failed: " +:+ path_string p)), w)
      else (Ok (), w)
  end.

Definition append_text (p : path) (text : string) (w : world) : result unit * world :=
  match ofstream_open p (ios_out |: ios_app) w with
  | (inl errno, w) =>
      (Throw (system_error errno ("rix::fs::append_text: open failed: " +:+ path_string p)), w)
  | (inr out, w) =>
      let '(out, w) := ofstream_write out text w in
      if ofstream_fail out then
        (Throw (runtime_error ("rix::fs::append_text: write failed: " +:+ path_string p)), w)
      else (Ok (), w)
  end.

Definition write_bytes (p : path) (bytes : string) (w : world) : result unit * world :=
  match ofstream_open p (ios_out |: ios_trunc |: ios_binary) w with
  | (inl errno, w) =>
      (Throw (system_error errno ("rix::fs::write_bytes: open failed: " +:+ path_string p)), w)
  | (inr out, w) =>
      let '(out, w) :=
        if nonempty bytes then ofstream_write out bytes w else (out, w) in
      if ofstream_fail out then
        (Throw (runtime_error ("rix::fs::write_bytes: write failed: " +:+ path_string p)), w)
      else (Ok (), w)
  end.

Definition copy_file (from to : path) (overwrite : bool) (w : world)
  : result unit * world :=
  let opt := if overwrite then overwrite_existing else copy_none in
  let '(ok, ec, w) := std_copy_file from to opt w in
  match ec with
  | Some e =>
      (Throw (system_error e ("rix::fs::copy_file: failed: "
                              +:+ path_string from +:+ " -> " +:+ path_string to)), w)
  | None =>
      if negb ok then
        (Throw (runtime_error ("rix::fs::copy_file: not copied: "
                               +:+ path_string from +:+ " -> " +:+ path_string to)), w)
      else (Ok (), w)
  end.

Definition remove_file (p : path) (w : world) : result bool * world :=
  let '(removed, ec, w) := std_remove p w in
  match ec with
  | Some e =>
      (Throw (system_error e ("rix::fs::remove_file: failed: " +:+ path_string p)), w)
  | None => (Ok removed, w)
  end.

(** *** dir.hpp *)

Definition create_dir (p : path) (w : world) : result bool * world :=
  let '(created, ec, w) := std_create_directory p w in
  match ec with
  | Some e =>
      (Throw (system_error e ("rix::fs::create_dir: failed: " +:+ path_string p)), w)
  | None => (Ok created, w)
  end.

Definition create_dirs (p : path) (w : world) : result bool * world :=
  let '(created, ec, w) := std_create_directories p w in
  match ec with
  | Some e =>
      (Throw (system_error e ("rix::fs::create_dirs: failed: " +:+ path_string p)), w)
  | None => (Ok created, w)
  end.

Definition remove_dir (p : path) (w : world) : result bool * world :=
  let '(removed, ec, w) := std_remove p w in
  match ec with
  | Some e =>
      (Throw (system_error e ("rix::fs::remove_dir: failed: " +:+ path_string p)), w)
  | None => (Ok removed, w)
  end.

Definition remove_all (p : path) (w : world) : result Z * world :=
  let '(count, ec, w) := std_remove_all p w in
  match ec with
  | Some e =>
      (Throw (system_error e ("rix::fs::remove_all: failed: " +:+ path_string p)), w)
  | None => (Ok count, w)
  end.

(** *** ops.hpp *)

Definition recursive_remove (p : path) (w : world) : result Z * world :=
  let '(count, ec, w) := std_remove_all p w in
  match ec with
  | Some e =>
      (Throw (system_error e ("rix::fs::recursive_remove: failed: " +:+ path_string p)), w)
  | None => (Ok count, w)
  end.

Definition ensure_dir (p : path) (w : world) : result unit * world :=
  let '(ex, ec) := std_exists p w in
  if ex then
    match ec with
    | Some e =>
        (Throw (system_error e ("rix::fs::ensure_dir: exists failed: " +:+ path_string p)), w)
    | None =>
        let '(is_dir, _) := std_is_directory p w in
        if negb is_dir then
          (Throw (runtime_error ("rix::fs::ensure_dir: not a directory: " +:+ path_string p)), w)
        else (Ok (), w)
    end
  else
    let '(created, ec, w) := std_create_directories p w in
    match ec with
    | Some e =>
        if negb created then
          (Throw (system_error e ("rix::fs::ensure_dir: create failed: " +:+ path_string p)), w)
        else (Ok (), w)
    | None => (Ok (), w)
    end.

End Wrappers.

(** ** The reference host

    An in-memory filesystem after POSIX, reduced to what the wrappers can
    observe.  An entry is a regular file with its bytes, or a directory; the
    entries are keyed by their location, the list of names that leads to
    them from the root directory.  The root directory always exists and is
    not stored.  There are no symbolic links and no permissions, so a
    call fails only for a structural reason: an entry is missing, has the
    wrong type, is a directory that is not empty, or is already there.
    The working directory is the root.  Dot, dot-dot and a trailing
    separator are resolved on the pathname alone, which is what the kernel
    does as long as every name before them is a directory; the statements
    about this host that depend on it are about plain paths, whose
    filenames are names of entries and which do not end with a separator.
    An entry that is not there is reported as "no such file or directory",
    or as "not a directory" when the way to it leads through a regular
    file. *)

Inductive node : Set :=
| File (content : string)
| Dir.

Abbreviation loc := (list string) (only parsing).

(** How the host's text-mode streams treat bytes: not at all (POSIX), or
    with the line-end translation of the Windows C runtime, which writes a
    line feed as carriage return and line feed, reads the pair back as a
    line feed, and reads Ctrl-Z as the end of the file. *)
Inductive text_mode : Set :=
| Transparent
| CRLF.

Definition LF : ascii := "010"%char.
Definition CR : ascii := "013"%char.
Definition CtrlZ : ascii := "026"%char.

Fixpoint lf_to_crlf (s : string) : string :=
  match s with
  | EmptyString => EmptyString
  | String c s' =>
      if Ascii.eqb c LF then String CR (String LF (lf_to_crlf s'))
      else String c (lf_to_crlf s')
  end.

Fixpoint crlf_to_lf (s : string) : string :=
  match s with
  | EmptyString => EmptyString
  | String c s' =>
      match s' with
      | String c' s'' =>
          if Ascii.eqb c CR && Ascii.eqb c' LF then String LF (crlf_to_lf s'')
          else String c (crlf_to_lf s')
      | EmptyString => String c EmptyString
      end
  end.

Fixpoint until_ctrl_z (s : string) : string :=
  match s with
  | EmptyString => EmptyString
  | String c s' => if Ascii.eqb c CtrlZ then EmptyString else String c (until_ctrl_z s')
  end.

Definition text_out (tm : text_mode) (s : string) : string :=
  match tm with
  | Transparent => s
  | CRLF => lf_to_crlf s
  end.

Definition text_in (tm : text_mode) (s : string) : string :=
  match tm with
  | Transparent => s
  | CRLF => crlf_to_lf (until_ctrl_z s)
  end.

(** *** Locations *)

Definition step (cur : loc) (f : string) : loc :=
  if is_dot f then cur
  else if is_dotdot f then removelast cur
  else (cur ++ [f])%list.

Definition locate (p : path) : loc := fold_left step (filenames p) [].

(** The empty pathname resolves to nothing. *)
Definition resolve (p : path) : errc + loc :=
  if path_empty p then inl ENOENT else inr (locate p).

Definition node_at (w : gmap loc node) (l : loc) : option node :=
  match l with
  | [] => Some Dir
  | _ => w !! l
  end.

(** The locations on the way from the root directory to [l], without [l]
    itself. *)
Definition ancestors (l : loc) : list loc :=
  (λ n, take n l) <$> seq 0 (length l).

(** Whether the way to [l] leads through a regular file. *)
Definition file_above (w : gmap loc node) (l : loc) : bool :=
  existsb (λ k, match node_at w k with Some (File _) => true | _ => false end)
          (ancestors l).

(** The error for an entry that is not at [l]: [ENOTDIR] when the way to it
    leads through a regular file, [ENOENT] otherwise. *)
Definition missing (w : gmap loc node) (l : loc) : errc :=
  if file_above w l then ENOTDIR else ENOENT.

(** The entries at or below [l], strictly below [l], and elsewhere. *)
Definition subtree (w : gmap loc node) (l : loc) : gmap loc node :=
  filter (λ kv, l `prefix_of` kv.1) w.

Definition below (w : gmap loc node) (l : loc) : gmap loc node :=
  filter (λ kv, l `prefix_of` kv.1 ∧ kv.1 ≠ l) w.

Definition outside (w : gmap loc node) (l : loc) : gmap loc node :=
  filter (λ kv, ¬ l `prefix_of` kv.1) w.

(** *** [std::filesystem] *)

Definition model_status (p : path) (w : gmap loc node) : file_type * error_code :=
  match resolve p with
  | inl e => (ft_not_found, Some e)
  | inr l =>
      match node_at w l with
      | None => (ft_not_found, Some (missing w l))
      | Some (File _) => (ft_regular, None)
      | Some Dir => (ft_directory, None)
      end
  end.

(** [fs.op.file.size]: the size of a regular file, [uintmax_t(-1)] on
    error. *)
Definition model_file_size (p : path) (w : gmap loc node) : Z * error_code :=
  match resolve p with
  | inl e => (uintmax_minus_one, Some e)
  | inr l =>
      match node_at w l with
      | None => (uintmax_minus_one, Some (missing w l))
      | Some Dir => (uintmax_minus_one, Some EISDIR)
      | Some (File c) => (to_uintmax (Z.of_nat (String.length c)), None)
      end
  end.

(** [fs.op.remove]: removes a file or an empty directory; [false] without
    an error when there is nothing to remove, which is what the GNU
    implementation makes of "no such file or directory" and of nothing
    else. *)
Definition model_remove (p : path) (w : gmap loc node)
  : bool * error_code * gmap loc node :=
  match resolve p with
  | inl _ => (false, None, w)
  | inr [] => (false, Some EBUSY, w)
  | inr l =>
      match w !! l with
      | None => if file_above w l then (false, Some ENOTDIR, w) else (false, None, w)
      | Some (File _) => (true, None, delete l w)
      | Some Dir =>
          if bool_decide (below w l = ∅) then (true, None, delete l w)
          else (false, Some ENOTEMPTY, w)
      end
  end.

(** [fs.op.remove.all]: removes the entry and all below it and returns how
    many were removed, [0] when there is nothing to remove; a way that
    leads through a regular file is an error, as for [remove].  The root
    directory itself cannot go: its contents are removed and the call
    reports an error and returns [uintmax_t(-1)]. *)
Definition model_remove_all (p : path) (w : gmap loc node)
  : Z * error_code * gmap loc node :=
  match resolve p with
  | inl _ => (0, None, w)
  | inr [] => (uintmax_minus_one, Some EBUSY, outside w [])
  | inr l =>
      match w !! l with
      | None =>
          if file_above w l then (uintmax_minus_one, Some ENOTDIR, w) else (0, None, w)
      | Some _ => (to_uintmax (Z.of_nat (size (subtree w l))), None, outside w l)
      end
  end.

(** [fs.op.create.directory]: as POSIX [mkdir]; that the directory is there
    already is no error. *)
Definition model_create_directory (p : path) (w : gmap loc node)
  : bool * error_code * gmap loc node :=
  match resolve p with
  | inl e => (false, Some e, w)
  | inr l =>
      match node_at w l with
      | Some Dir => (false, None, w)
      | Some (File _) => (false, Some EEXIST, w)
      | None =>
          match node_at w (removelast l) with
          | Some Dir => (true, None, <[l := Dir]> w)
          | Some (File _) => (false, Some ENOTDIR, w)
          | None => (false, Some (missing w l), w)
          end
      end
  end.

(** [fs.op.create.directories]: [create_directory] for each element of the
    path that does not exist, from the root down; returns whether the last
    one was created.  The GNU implementation refuses the empty path as an
    invalid argument. *)
Fixpoint make_path (w : gmap loc node) (cur : loc) (names : list string) (created : bool)
  : bool * error_code * gmap loc node :=
  match names with
  | [] => (created, None, w)
  | f :: rest =>
      let cur := (cur ++ [f])%list in
      match w !! cur with
      | Some Dir => make_path w cur rest false
      | Some (File _) => (false, Some ENOTDIR, w)
      | None => make_path (<[cur := Dir]> w) cur rest true
      end
  end.

Definition model_create_directories (p : path) (w : gmap loc node)
  : bool * error_code * gmap loc node :=
  match resolve p with
  | inl _ => (false, Some EINVAL, w)
  | inr l => make_path w [] l false
  end.

(** [fs.op.copy.file]: an error when [from] is not a regular file, when
    [to] exists and is not a regular file, is the same file as [from], or
    no option says what to do with it; otherwise the file is copied when
    [to] does not exist or is to be overwritten; otherwise nothing
    happens.  Returns whether the file was copied. *)
Definition model_copy_file (from to : path) (opt : copy_options) (w : gmap loc node)
  : bool * error_code * gmap loc node :=
  match resolve from with
  | inl e => (false, Some e, w)
  | inr lf =>
      match node_at w lf with
      | None => (false, Some (missing w lf), w)
      | Some Dir => (false, Some EINVAL, w)
      | Some (File c) =>
          match resolve to with
          | inl e => (false, Some e, w)
          | inr lt =>
              match node_at w lt with
              | Some Dir => (false, Some EINVAL, w)
              | Some (File _) =>
                  if bool_decide (lf = lt) then (false, Some EEXIST, w)
                  else match opt with
                       | copy_none => (false, Some EEXIST, w)
                       | skip_existing => (false, None, w)
                       | overwrite_existing => (true, None, <[lt := File c]> w)
                       end
              | None =>
                  match node_at w (removelast lt) with
                  | Some Dir => (true, None, <[lt := File c]> w)
                  | Some (File _) => (false, Some ENOTDIR, w)
                  | None => (false, Some (missing w lt), w)
                  end
              end
          end
      end
  end.

(** *** [<fstream>] *)

Record model_ofstream : Set := Ofstream {
  os_loc : loc;
  os_binary : bool;
  os_fail : bool
}.

(** Opening for output creates the file when its directory is there, and
    empties it under [trunc]. *)
Definition model_ofstream_open (p : path) (mode : openmode) (w : gmap loc node)
  : (errc + model_ofstream) * gmap loc node :=
  match resolve p with
  | inl e => (inl e, w)
  | inr l =>
      let out := {| os_loc := l; os_binary := om_binary mode; os_fail := false |} in
      match node_at w l with
      | Some Dir => (inl EISDIR, w)
      | Some (File _) =>
          (inr out, if om_trunc mode then <[l := File EmptyString]> w else w)
      | None =>
          match node_at w (removelast l) with
          | Some Dir => (inr out, <[l := File EmptyString]> w)
          | Some (File _) => (inl ENOTDIR, w)
          | None => (inl (missing w l), w)
          end
      end
  end.

(** Output goes to the end of the file, through the text translation unless
    the stream is binary. *)
Definition model_ofstream_write (tm : text_mode) (out : model_ofstream) (data : string)
    (w : gmap loc node) : model_ofstream * gmap loc node :=
  match w !! os_loc out with
  | Some (File c) =>
      let bytes := if os_binary out then data else text_out tm data in
      (out, <[os_loc out := File (c +:+ bytes)]> w)
  | _ => ({| os_loc := os_loc out; os_binary := os_binary out; os_fail := true |}, w)
  end.

(** An input stream: all it delivers, what of it is still to be read, and
    its state flags. *)
Record model_ifstream : Set := Ifstream {
  is_data : string;
  is_pending : string;
  is_eofbit : bool;
  is_failbit : bool
}.

(** Opening for input needs the file to be there.  A directory cannot be
    read; the model says so when the stream is opened. *)
Definition model_ifstream_open (tm : text_mode) (p : path) (mode : openmode)
    (w : gmap loc node) : errc + model_ifstream :=
  match resolve p with
  | inl e => inl e
  | inr l =>
      match node_at w l with
      | None => inl (missing w l)
      | Some Dir => inl EISDIR
      | Some (File c) =>
          let data := if om_binary mode then c else text_in tm c in
          inr {| is_data := data; is_pending := data;
                 is_eofbit := false; is_failbit := false |}
      end
  end.

(** Stream-buffer iterators take the characters from the buffer and leave
    the state flags of the stream alone. *)
Definition model_istreambuf_all (s : model_ifstream) : string * model_ifstream :=
  (is_pending s,
   {| is_data := is_data s; is_pending := EmptyString;
      is_eofbit := is_eofbit s; is_failbit := is_failbit s |}).

(** Seeking to the end leaves nothing to read and tells the length;
    seeking to the beginning leaves everything to read and tells zero. *)
Definition model_seek_end_tell (s : model_ifstream) : Z * model_ifstream :=
  (Z.of_nat (String.length (is_data s)),
   {| is_data := is_data s; is_pending := EmptyString;
      is_eofbit := is_eofbit s; is_failbit := is_failbit s |}).

Definition model_seek_beg_tell (s : model_ifstream) : Z * model_ifstream :=
  (0,
   {| is_data := is_data s; is_pending := is_data s;
      is_eofbit := is_eofbit s; is_failbit := is_failbit s |}).

(** [read] stores up to [n] characters; when fewer are left it sets
    [eofbit] and [failbit]. *)
Definition model_ifstream_read (s : model_ifstream) (n : Z) : string * model_ifstream :=
  if n <=? 0 then (EmptyString, s)
  else
    let k := Z.to_nat n in
    let left := String.length (is_pending s) in
    let short := (left <? k)%nat in
    (substring 0 k (is_pending s),
     {| is_data := is_data s;
        is_pending := substring k (left - k) (is_pending s);
        is_eofbit := is_eofbit s || short;
        is_failbit := is_failbit s || short |}).

Lemma model_status_error p w e :
  snd (model_status p w) = Some e →
  fst (model_status p w) ∈ [ft_not_found; ft_unknown; ft_none].
Proof.
  unfold model_status. destruct (resolve p) as [e'|l]; simpl.
  - intros _. set_solver.
  - destruct (node_at w l) as [[c|]|]; simpl; intros Hec; try discriminate.
    set_solver.
Qed.

Definition model_host (tm : text_mode) : Host := {|
  world := gmap loc node;
  std_status := model_status;
  std_status_error := model_status_error;
  std_file_size := model_file_size;
  std_remove := model_remove;
  std_remove_all := model_remove_all;
  std_create_directory := model_create_directory;
  std_create_directories := model_create_directories;
  std_copy_file := model_copy_file;
  ofstream := model_ofstream;
  ofstream_open := model_ofstream_open;
  ofstream_write := model_ofstream_write tm;
  ofstream_fail := os_fail;
  ifstream := model_ifstream;
  ifstream_open := model_ifstream_open tm;
  istreambuf_all := model_istreambuf_all;
  ifstream_seek_end_tell := model_seek_end_tell;
  ifstream_seek_beg_tell := model_seek_beg_tell;
  ifstream_read := model_ifstream_read;
  ifstream_eof := is_eofbit;
  ifstream_fail := is_failbit
|}.

Definition posix_host : Host := model_host Transparent.
Definition crlf_host : Host := model_host CRLF.

(** ** Hosts that fail

    Three more hosts, for the branches that the reference host never
    takes: one on which every call reports the same error (a filesystem
    that went away, or that denies everything); one that is the POSIX
    reference host except that the size query fails (the file went away, or
    the device failed, between the type query and the size query); and one
    that is the POSIX reference host except that the attributes of a
    regular file cannot be told (a file too large for the [stat] of a
    32-bit program: the call fails with [EOVERFLOW], and the GNU
    implementation reports the type [unknown] with that error). *)

Lemma unreachable_status_error (e : errc) (p : path) (w : gmap loc node) (e' : errc) :
  snd (ft_none, Some e) = Some e' →
  fst (ft_none, Some e) ∈ [ft_not_found; ft_unknown; ft_none].
Proof. intros _. simpl. set_solver. Qed.

Definition unreachable_host (e : errc) : Host := {|
  world := gmap loc node;
  std_status := λ _ _, (ft_none, Some e);
  std_status_error := unreachable_status_error e;
  std_file_size := λ _ _, (uintmax_minus_one, Some e);
  std_remove := λ _ w, (false, Some e, w);
  std_remove_all := λ _ w, (uintmax_minus_one, Some e, w);
  std_create_directory := λ _ w, (false, Some e, w);
  std_create_directories := λ _ w, (false, Some e, w);
  std_copy_file := λ _ _ _ w, (false, Some e, w);
  ofstream := unit;
  ofstream_open := λ _ _ w, (inl e, w);
  ofstream_write := λ out _ w, (out, w);
  ofstream_fail := λ _, true;
  ifstream := unit;
  ifstream_open := λ _ _ _, inl e;
  istreambuf_all := λ s, (EmptyString, s);
  ifstream_seek_end_tell := λ s, (-1, s);
  ifstream_seek_beg_tell := λ s, (-1, s);
  ifstream_read := λ s _, (EmptyString, s);
  ifstream_eof := λ _, false;
  ifstream_fail := λ _, true
|}.

Definition size_fault_host (e : errc) : Host := {|
  world := gmap loc node;
  std_status := model_status;
  std_status_error := model_status_error;
  std_file_size := λ _ _, (uintmax_minus_one, Some e);
  std_remove := model_remove;
  std_remove_all := model_remove_all;
  std_create_directory := model_create_directory;
  std_create_directories := model_create_directories;
  std_copy_file := model_copy_file;
  ofstream := model_ofstream;
  ofstream_open := model_ofstream_open;
  ofstream_write := model_ofstream_write Transparent;
  ofstream_fail := os_fail;
  ifstream := model_ifstream;
  ifstream_open := model_ifstream_open Transparent;
  istreambuf_all := model_istreambuf_all;
  ifstream_seek_end_tell := model_seek_end_tell;
  ifstream_seek_beg_tell := model_seek_beg_tell;
  ifstream_read := model_ifstream_read;
  ifstream_eof := is_eofbit;
  ifstream_fail := is_failbit
|}.

Definition overflow_status (p : path) (w : gmap loc node) : file_type * error_code :=
  match model_status p w with
  | (ft_regular, _) => (ft_unknown, Some EOVERFLOW)
  | s => s
  end.

Lemma overflow_status_error (p : path) (w : gmap loc node) (e : errc) :
  snd (overflow_status p w) = Some e →
  fst (overflow_status p w) ∈ [ft_not_found; ft_unknown; ft_none].
Proof.
  unfold overflow_status. intros He.
  pose proof (model_status_error p w e) as Hlaw.
  destruct (model_status p w) as [[] ec]; simpl in *; first [apply Hlaw, He | set_solver].
Qed.

Definition overflow_file_size (p : path) (w : gmap loc node) : Z * error_code :=
  match model_status p w with
  | (ft_regular, _) => (uintmax_minus_one, Some EOVERFLOW)
  | _ => model_file_size p w
  end.

Definition overflow_host : Host := {|
  world := gmap loc node;
  std_status := overflow_status;
  std_status_error := overflow_status_error;
  std_file_size := overflow_file_size;
  std_remove := model_remove;
  std_remove_all := model_remove_all;
  std_create_directory := model_create_directory;
  std_create_directories := model_create_directories;
  std_copy_file := model_copy_file;
  ofstream := model_ofstream;
  ofstream_open := model_ofstream_open;
  ofstream_write := model_ofstream_write Transparent;
  ofstream_fail := os_fail;
  ifstream := model_ifstream;
  ifstream_open := model_ifstream_open Transparent;
  istreambuf_all := model_istreambuf_all;
  ifstream_seek_end_tell := model_seek_end_tell;
  ifstream_seek_beg_tell := model_seek_beg_tell;
  ifstream_read := model_ifstream_read;
  ifstream_eof := is_eofbit;
  ifstream_fail := is_failbit
|}.

(** A small world: the file [/f], the directory [/d] and the file [/d/g]. *)
Definition demo_world : gmap loc node :=
  <[ ["d"; "g"] := File "xyz" ]> (<[ ["d"] := Dir ]> (<[ ["f"] := File "hello" ]> ∅)).

(** ** Renaming and listing

    The calls of [ops.hpp] and [dir.hpp] that the interface above leaves
    out: [rename] and the two directory iterators.  A directory iterator is
    given by what a range-based [for] sees of it: the paths of the entries
    it yields, in order, and the error on which an increment threw, if one
    did ([filesystem_error] is a [std::system_error]). *)

Record dir_range : Set := DirRange {
  yielded : list path;
  broke : option (errc * string)
}.

Class HostTree (H : Host) : Type := {
  (** [rename(from, to, ec)] *)
  std_rename : path → path → world → error_code * world;
  (** [directory_iterator(p, ec)] and [recursive_directory_iterator(p, ec)] *)
  std_directory_iterator : path → world → dir_range * error_code;
  std_recursive_directory_iterator : path → world → dir_range * error_code;
  (** [fs.class.directory.iterator]: an iterator that reports an error
      becomes equal to the end iterator. *)
  std_directory_iterator_error : ∀ p w e,
    snd (std_directory_iterator p w) = Some e →
    fst (std_directory_iterator p w) = DirRange [] None;
  std_recursive_directory_iterator_error : ∀ p w e,
    snd (std_recursive_directory_iterator p w) = Some e →
    fst (std_recursive_directory_iterator p w) = DirRange [] None
}.

Section TreeWrappers.
Context `{HT : HostTree}.

(** *** ops.hpp, continued *)

Definition move (from to : path) (w : world) : result unit * world :=
  let '(ec, w) := std_rename from to w in
  match ec with
  | Some e =>
      (Throw (system_error e ("rix::fs::move: failed: "
                              +:+ path_string from +:+ " -> " +:+ path_string to)), w)
  | None => (Ok (), w)
  end.

Definition rename (from to : path) (w : world) : result unit * world :=
  move from to w.

(** *** dir.hpp, continued *)

(** The body of the loops of [list_dir] and [list_dir_recursive], run over
    the entries the iterator yields: [ec] is the code the constructor of
    the iterator left, which nothing in the loop writes to. *)
Fixpoint push_entries (ec : error_code) (what : string) (range : list path)
    (entries : list path) : result (list path) :=
  match range with
  | [] => Ok entries
  | entry :: range' =>
      match ec with
      | Some e => Throw (system_error e what)
      | None => push_entries ec what range' (entries ++ [entry])%list
      end
  end.

Definition collect (ec : error_code) (what : string) (r : dir_range)
  : result (list path) :=
  match push_entries ec what (yielded r) [] with
  | Throw e => Throw e
  | Ok entries =>
      match broke r with
      | Some (e, what') => Throw (system_error e what')
      | None => Ok entries
      end
  end.

Definition list_dir (p : path) (w : world) : result (list path) :=
  let '(ok_dir, ec) := std_is_directory p w in
  match ec with
  | Some e =>
      Throw (system_error e ("rix::fs::list_dir: stat failed: " +:+ path_string p))
  | None =>
      if negb ok_dir then
        Throw (runtime_error ("rix::fs::list_dir: not a directory: " +:+ path_string p))
      else
        let '(range, ec) := std_directory_iterator p w in
        collect ec ("rix::fs::list_dir: iteration failed: " +:+ path_string p) range
  end.

Definition list_dir_recursive (p : path) (w : world) : result (list path) :=
  let '(ok_dir, ec) := std_is_directory p w in
  match ec with
  | Some e =>
      Throw (system_error e ("rix::fs::list_dir_recursive: stat failed: " +:+ path_string p))
  | None =>
      if negb ok_dir then
        Throw (runtime_error ("rix::fs::list_dir_recursive: not a directory: "
                              +:+ path_string p))
      else
        let '(range, ec) := std_recursive_directory_iterator p w in
        collect ec ("rix::fs::list_dir_recursive: iteration failed: " +:+ path_string p) range
  end.

End TreeWrappers.

(** *** The reference host, continued *)

(** The name under which [k] is an entry of the directory [l], if it is
    one. *)
Definition child_of (l k : loc) : option string :=
  match last k with
  | Some name => if bool_decide (removelast k = l) then Some name else None
  | None => None
  end.

Definition children (w : gmap loc node) (l : loc) : list string :=
  omap (child_of l) (map_to_list w).*1.

(** [fs.class.directory.iterator]: the entries of the directory, dot and
    dot-dot left out, each with the path of the directory in front, in an
    order that is not specified. *)
Definition model_directory_iterator (p : path) (w : gmap loc node)
  : dir_range * error_code :=
  match resolve p with
  | inl e => (DirRange [] None, Some e)
  | inr l =>
      match node_at w l with
      | None => (DirRange [] None, Some (missing w l))
      | Some (File _) => (DirRange [] None, Some ENOTDIR)
      | Some Dir => (DirRange (map (path_append p) (children w l)) None, None)
      end
  end.

(** [fs.class.rec.dir.itr]: every entry of a directory is followed by the
    entries below it.  A tree is no deeper than it has entries. *)
Fixpoint walk (depth : nat) (w : gmap loc node) (l : loc) (p : path)
  : list (loc * path) :=
  match depth with
  | O => []
  | S depth' =>
      flat_map (λ name,
        let k := (l ++ [name])%list in
        let q := path_append p name in
        (k, q) :: match w !! k with
                  | Some Dir => walk depth' w k q
                  | _ => []
                  end) (children w l)
  end.

Definition model_recursive_directory_iterator (p : path) (w : gmap loc node)
  : dir_range * error_code :=
  match resolve p with
  | inl e => (DirRange [] None, Some e)
  | inr l =>
      match node_at w l with
      | None => (DirRange [] None, Some (missing w l))
      | Some (File _) => (DirRange [] None, Some ENOTDIR)
      | Some Dir => (DirRange (walk (size w) w l p).*2 None, None)
      end
  end.

Global Instance node_eq_dec : EqDecision node.
Proof. solve_decision. Defined.

(** The entries at or below [lf], moved to [lt]. *)
Definition rekey (lf lt : loc) (w : gmap loc node) : gmap loc node :=
  list_to_map
    ((λ kv : loc * node, ((lt ++ drop (length lf) kv.1)%list, kv.2))
       <$> map_to_list (subtree w lf)).

(** Why the directory that is to hold [l] cannot: it is not there, or it
    is a regular file. *)
Definition parent_error (w : gmap loc node) (l : loc) : error_code :=
  match node_at w (removelast l) with
  | Some Dir => None
  | Some (File _) => Some ENOTDIR
  | None => Some (missing w l)
  end.

(** [fs.op.rename]: as POSIX [rename].  Both paths need their directory
    and [from] has to exist; a path that ends with a separator names a
    directory only.  Nothing happens when both paths name the same
    entry.  A directory does not move below itself, and nothing replaces a
    directory it lies in.  Otherwise a file replaces a file and a directory
    replaces an empty directory. *)
Definition model_rename (from to : path) (w : gmap loc node)
  : error_code * gmap loc node :=
  match resolve from with
  | inl e => (Some e, w)
  | inr lf =>
      match parent_error w lf, resolve to with
      | Some e, _ => (Some e, w)
      | None, inl e => (Some e, w)
      | None, inr lt =>
          match parent_error w lt, node_at w lf with
          | Some e, _ => (Some e, w)
          | None, None => (Some ENOENT, w)
          | None, Some nf =>
              if bool_decide (nf ≠ Dir) && (ends_with_sep from || ends_with_sep to)
              then (Some ENOTDIR, w)
              else if bool_decide (lf = lt) then (None, w)
              else if bool_decide (lf = [] ∨ lt = []) then (Some EBUSY, w)
              else if bool_decide (nf = Dir ∧ lf `prefix_of` lt) then (Some EINVAL, w)
              else if bool_decide (lt `prefix_of` lf) then (Some ENOTEMPTY, w)
              else
                match nf, node_at w lt with
                | File _, Some Dir => (Some EISDIR, w)
                | File c, _ => (None, <[lt := File c]> (delete lf w))
                | Dir, Some (File _) => (Some ENOTDIR, w)
                | Dir, Some Dir =>
                    if bool_decide (below w lt = ∅)
                    then (None, rekey lf lt w ∪ outside w lf)
                    else (Some ENOTEMPTY, w)
                | Dir, None => (None, rekey lf lt w ∪ outside w lf)
                end
          end
      end
  end.

Lemma model_directory_iterator_error p w e :
  snd (model_directory_iterator p w) = Some e →
  fst (model_directory_iterator p w) = DirRange [] None.
Proof.
  unfold model_directory_iterator. destruct (resolve p) as [e'|l]; [reflexivity|].
  destruct (node_at w l) as [[c|]|]; first [reflexivity | discriminate].
Qed.

Lemma model_recursive_directory_iterator_error p w e :
  snd (model_recursive_directory_iterator p w) = Some e →
  fst (model_recursive_directory_iterator p w) = DirRange [] None.
Proof.
  unfold model_recursive_directory_iterator. destruct (resolve p) as [e'|l]; [reflexivity|].
  destruct (node_at w l) as [[c|]|]; first [reflexivity | discriminate].
Qed.

Definition model_tree (tm : text_mode) : HostTree (model_host tm) :=
  Build_HostTree (model_host tm)
    model_rename model_directory_iterator model_recursive_directory_iterator
    model_directory_iterator_error model_recursive_directory_iterator_error.

(** A host like the POSIX reference host, on which no directory can be
    opened for reading: the type query succeeds, the iterator reports
    [e]. *)
Lemma locked_iterator_error (e : errc) (p : path) (w : gmap loc node) (e' : errc) :
  snd (DirRange [] None, Some e) = Some e' →
  fst (DirRange [] None, Some e) = DirRange [] None.
Proof. reflexivity. Qed.

Definition locked_tree (e : errc) : HostTree posix_host :=
  Build_HostTree posix_host
    model_rename (λ _ _, (DirRange [] None, Some e)) (λ _ _, (DirRange [] None, Some e))
    (locked_iterator_error e) (locked_iterator_error e).

(** *** Worlds shaped like a tree

    What every world that the calls above build from the empty one
    satisfies: the root directory is not stored, every name is a filename
    other than dot and dot-dot, and every entry lies in a directory. *)

Definition proper_name (f : string) : Prop :=
  nonempty f = true ∧ has_sep f = false ∧ is_dot f = false ∧ is_dotdot f = false.

Global Instance proper_name_dec (f : string) : Decision (proper_name f).
Proof. unfold proper_name. apply _. Defined.

Definition entry_ok (w : gmap loc node) (k : loc) : Prop :=
  k ≠ [] ∧ Forall proper_name k ∧ node_at w (removelast k) = Some Dir.

Global Instance entry_ok_dec (w : gmap loc node) (k : loc) : Decision (entry_ok w k).
Proof. unfold entry_ok. apply _. Defined.

Definition tree_shaped (w : gmap loc node) : Prop :=
  map_Forall (λ k _, entry_ok w k) w.

Global Instance tree_shaped_dec (w : gmap loc node) : Decision (tree_shaped w).
Proof. unfold tree_shaped. apply _. Defined.

(** *** Plain paths

    The paths that the kernel resolves as the reference host does, name by
    name: every filename is the name of an entry, neither dot nor dot-dot
    and no longer than [NAME_MAX], the path does not end with a separator,
    holds no null character (where the C string of the path would end) and
    is shorter than [PATH_MAX]. *)

Definition NUL : ascii := "000"%char.
Definition name_max : nat := 255.
Definition path_max : nat := 4096.

Definition plain (p : path) : Prop :=
  Forall proper_name (filenames p)
  ∧ ends_with_sep p = false
  ∧ has_char (Ascii.eqb NUL) p = false
  ∧ Forall (λ f, (String.length f ≤ name_max)%nat) (filenames p)
  ∧ (String.length p < path_max)%nat.

Global Instance plain_dec (p : path) : Decision (plain p).
Proof. unfold plain. apply _. Defined.

(** Whether a path leads through a regular file. *)
Definition through_file (p : path) (w : gmap loc node) : bool :=
  file_above w (locate p).

(** A decidable statement about given paths and worlds holds when it
    evaluates to true. *)
Ltac by_evaluation := apply (bool_decide_unpack _); vm_compute; exact I.

(** A second small world: [demo_world] with the empty directories [/e]
    and [/d/s]. *)
Definition demo_tree : gmap loc node :=
  <[ ["d"; "s"] := Dir ]> (<[ ["e"] := Dir ]> demo_world).

(** * Properties of the wrappers on every host *)

Section AnyHost.
Context `{H : Host}.
Implicit Types (p : path) (w : world).

Lemma std_exists_not_found p w :
  fst (std_status p w) = ft_not_found → std_exists p w = (false, None).
Proof.
  unfold std_exists. destruct (std_status p w) as [s ec]; simpl.
  intros ->. reflexivity.
Qed.

Lemma std_exists_error p w :
  is_Some (snd (std_exists p w)) → fst (std_exists p w) = false.
Proof.
  unfold std_exists. destruct (std_status p w) as [s ec].
  destruct (status_known s); simpl; [intros [e He]; discriminate | reflexivity].
Qed.

(** A status that comes with an error is none of the types of an entry. *)
Lemma status_error_type p w :
  is_Some (snd (std_status p w)) →
  fst (std_status p w) ≠ ft_regular ∧ fst (std_status p w) ≠ ft_directory.
Proof.
  intros [e He]. pose proof (std_status_error p w e He) as Hin.
  rewrite !elem_of_cons, elem_of_nil in Hin.
  split; intros Heq; rewrite Heq in Hin; intuition discriminate.
Qed.

Lemma std_is_regular_file_error p w :
  is_Some (snd (std_is_regular_file p w)) → fst (std_is_regular_file p w) = false.
Proof.
  unfold std_is_regular_file. intros Hec.
  destruct (std_status p w) as [s ec] eqn:Hst; simpl in *.
  pose proof (status_error_type p w) as Hty. rewrite Hst in Hty; simpl in Hty.
  apply bool_decide_eq_false. apply Hty, Hec.
Qed.

Lemma std_is_directory_error p w :
  is_Some (snd (std_is_directory p w)) → fst (std_is_directory p w) = false.
Proof.
  unfold std_is_directory. intros Hec.
  destruct (std_status p w) as [s ec] eqn:Hst; simpl in *.
  pose proof (status_error_type p w) as Hty. rewrite Hst in Hty; simpl in Hty.
  apply bool_decide_eq_false. apply Hty, Hec.
Qed.

Lemma checks_not_found p w :
  fst (std_status p w) = ft_not_found →
  path_exists p w = false ∧ is_file_path p w = false ∧ is_dir_path p w = false.
Proof.
  intros Hnf. unfold path_exists, is_file_path, is_dir_path.
  rewrite (std_exists_not_found p w Hnf).
  unfold std_is_regular_file, std_is_directory.
  destruct (std_status p w) as [s ec]; simpl in *; subst s. auto.
Qed.

(** [file_size_bytes], branch by branch. *)
Lemma file_size_bytes_stat_failed p w e :
  snd (std_status p w) = Some e →
  file_size_bytes p w =
    Throw (system_error e ("rix::fs::file_size_bytes: stat failed: " +:+ p)).
Proof.
  unfold file_size_bytes, std_is_regular_file.
  destruct (std_status p w) as [s ec]; simpl. intros ->. reflexivity.
Qed.

Lemma file_size_bytes_not_regular p w :
  snd (std_status p w) = None → fst (std_status p w) ≠ ft_regular →
  file_size_bytes p w =
    Throw (runtime_error ("rix::fs::file_size_bytes: not a regular file: " +:+ p)).
Proof.
  unfold file_size_bytes, std_is_regular_file.
  destruct (std_status p w) as [s ec]; simpl. intros -> Hs.
  rewrite bool_decide_eq_false_2 by done. reflexivity.
Qed.

Lemma file_size_bytes_regular p w :
  std_status p w = (ft_regular, None) →
  file_size_bytes p w =
    match std_file_size p w with
    | (_, Some e) =>
        Throw (system_error e ("rix::fs::file_size_bytes: file_size failed: " +:+ p))
    | (sz, None) => Ok sz
    end.
Proof.
  unfold file_size_bytes, std_is_regular_file. intros ->. simpl.
  destruct (std_file_size p w) as [sz [e|]]; reflexivity.
Qed.

(** [ensure_dir], branch by branch. *)
Lemma ensure_dir_directory p w :
  fst (std_status p w) = ft_directory → ensure_dir p w = (Ok (), w).
Proof.
  unfold ensure_dir, std_exists, std_is_directory.
  destruct (std_status p w) as [s ec]; simpl. intros ->. reflexivity.
Qed.

Lemma ensure_dir_not_directory p w :
  exists_status (fst (std_status p w)) = true →
  fst (std_status p w) ≠ ft_directory →
  ensure_dir p w =
    (Throw (runtime_error ("rix::fs::ensure_dir: not a directory: " +:+ p)), w).
Proof.
  unfold ensure_dir, std_exists, std_is_directory.
  destruct (std_status p w) as [s ec]; simpl. intros Hex Hnd.
  assert (status_known s = true) as ->.
  { unfold exists_status in Hex. apply andb_true_iff in Hex. tauto. }
  rewrite Hex. rewrite bool_decide_eq_false_2 by done. reflexivity.
Qed.

Lemma ensure_dir_absent p w :
  fst (std_exists p w) = false →
  ensure_dir p w =
    match std_create_directories p w with
    | (false, Some e, w') =>
        (Throw (system_error e ("rix::fs::ensure_dir: create failed: " +:+ p)), w')
    | (_, _, w') => (Ok (), w')
    end.
Proof.
  unfold ensure_dir. destruct (std_exists p w) as [ex ec]; simpl. intros ->.
  destruct (std_create_directories p w) as [[[] [e|]] w']; reflexivity.
Qed.

(** [remove_file] and [remove_dir] make the same call. *)
Lemma remove_file_remove_dir p w :
  snd (remove_file p w) = snd (remove_dir p w)
  ∧ outcome (fst (remove_file p w)) = outcome (fst (remove_dir p w))
  ∧ outcome (fst (remove_file p w)) =
      match std_remove p w with
      | (_, Some e, _) => inl (IOError e)
      | (removed, None, _) => inr removed
      end.
Proof.
  unfold remove_file, remove_dir.
  destruct (std_remove p w) as [[removed [e|]] w']; simpl; auto.
Qed.

Lemma remove_file_message p w e what :
  fst (remove_file p w) = Throw (system_error e what) →
  what = "rix::fs::remove_file: failed: " +:+ p
  ∧ fst (remove_dir p w) = Throw (system_error e ("rix::fs::remove_dir: failed: " +:+ p)).
Proof.
  unfold remove_file, remove_dir.
  destruct (std_remove p w) as [[removed [e'|]] w']; simpl; [|discriminate].
  intros [= -> <-]. auto.
Qed.

End AnyHost.

(** * Properties of the reference host *)

Section ReferenceHost.
Implicit Types (p : path) (w : gmap loc node) (l : loc).

Lemma node_at_nonroot w l : l ≠ [] → node_at w l = w !! l.
Proof. destruct l; [congruence | reflexivity]. Qed.

Lemma node_at_insert_eq w l n : l ≠ [] → node_at (<[l := n]> w) l = Some n.
Proof. intros Hl. rewrite node_at_nonroot by done. apply lookup_insert_eq. Qed.

Lemma node_at_insert_ne w l l' n :
  l ≠ l' → node_at (<[l := n]> w) l' = node_at w l'.
Proof.
  intros Hne. destruct l' as [|f l']; [reflexivity|].
  simpl. apply lookup_insert_ne. exact Hne.
Qed.

Lemma resolve_inr p l : resolve p = inr l → l = locate p ∧ path_empty p = false.
Proof. unfold resolve. destruct (path_empty p); [discriminate | intros [= <-]; auto]. Qed.

Lemma resolve_nonempty p : path_empty p = false → resolve p = inr (locate p).
Proof. unfold resolve. intros ->. reflexivity. Qed.

(** A plain path resolves to its filenames. *)
Lemma fold_step_proper names : ∀ cur,
  Forall proper_name names → fold_left step names cur = (cur ++ names)%list.
Proof.
  induction names as [|f names IH]; intros cur Hnames; simpl.
  - rewrite app_nil_r. reflexivity.
  - inversion Hnames as [|? ? (_ & _ & Hdot & Hdd) Hrest]; subst.
    unfold step at 2. rewrite Hdot, Hdd, (IH _ Hrest), <- app_assoc. reflexivity.
Qed.

Lemma plain_locate p : plain p → locate p = filenames p.
Proof. intros [Hnames _]. unfold locate. apply (fold_step_proper _ [] Hnames). Qed.

Lemma ends_with_sep_filenames p :
  path_empty p = false → ends_with_sep p = false → filenames p ≠ [].
Proof.
  unfold ends_with_sep, filenames. induction p as [|c p IH]; [discriminate|].
  intros _ Hback. simpl fields. destruct p as [|c' p'].
  - simpl in Hback. rewrite Hback. simpl. discriminate.
  - change (back (String c (String c' p'))) with (back (String c' p')) in Hback.
    specialize (IH eq_refl Hback).
    destruct (is_sep c).
    + rewrite filter_cons_False by (simpl; discriminate). exact IH.
    + destruct (fields (String c' p')) as [|f fs] eqn:Hf; [discriminate|].
      rewrite filter_cons_True by reflexivity. discriminate.
Qed.

Lemma plain_nonroot p : plain p → path_empty p = false → locate p ≠ [].
Proof.
  intros Hp Hne. rewrite (plain_locate p Hp).
  destruct Hp as (_ & Hsep & _). apply ends_with_sep_filenames; assumption.
Qed.

(** The status of a path is the type of the entry it resolves to. *)
Lemma model_status_entry p w l :
  resolve p = inr l →
  model_status p w =
    match node_at w l with
    | None => (ft_not_found, Some (missing w l))
    | Some (File _) => (ft_regular, None)
    | Some Dir => (ft_directory, None)
    end.
Proof. unfold model_status. intros ->. reflexivity. Qed.

Lemma model_status_empty_path w : model_status EmptyString w = (ft_not_found, Some ENOENT).
Proof. reflexivity. Qed.

(** On the reference host a path exists exactly when it resolves to an
    entry. *)
Lemma model_path_exists tm p w :
  path_exists (H := model_host tm) p w =
    match resolve p with
    | inl _ => false
    | inr l => bool_decide (is_Some (node_at w l))
    end.
Proof.
  unfold path_exists, std_exists. simpl. unfold model_status.
  destruct (resolve p) as [e|l]; [reflexivity|].
  destruct (node_at w l) as [[c|]|]; reflexivity.
Qed.


(** *** Streams *)

Lemma model_ofstream_open_ok p mode w out w1 :
  model_ofstream_open p mode w = (inr out, w1) →
  resolve p = inr (os_loc out) ∧ os_loc out ≠ [] ∧ os_fail out = false
  ∧ os_binary out = om_binary mode
  ∧ ((∃ c, w !! os_loc out = Some (File c)
           ∧ w1 = if om_trunc mode then <[os_loc out := File EmptyString]> w else w)
     ∨ (w !! os_loc out = None ∧ node_at w (removelast (os_loc out)) = Some Dir
        ∧ w1 = <[os_loc out := File EmptyString]> w)).
Proof.
  unfold model_ofstream_open. destruct (resolve p) as [e|l]; [discriminate|].
  destruct l as [|f l].
  { simpl. discriminate. }
  set (k := f :: l). assert (k ≠ []) as Hk by done.
  rewrite (node_at_nonroot w k Hk).
  destruct (w !! k) as [[c|]|] eqn:Hwk.
  - intros [= <- <-]. simpl. repeat split; eauto.
  - discriminate.
  - destruct (node_at w (removelast k)) as [[c|]|] eqn:Hpar; try discriminate.
    intros [= <- <-]. simpl. repeat split; eauto.
Qed.

(** After [write_text] has returned, the file holds the text as the host's
    text mode writes it, and nothing else. *)
Lemma model_write_text_ok tm p text w w1 :
  write_text (H := model_host tm) p text w = (Ok (), w1) →
  resolve p = inr (locate p) ∧ locate p ≠ []
  ∧ w1 = <[locate p := File (text_out tm text)]> w.
Proof.
  unfold write_text. simpl.
  destruct (model_ofstream_open p (ios_out |: ios_trunc) w) as [[e|out] w0] eqn:Hopen;
    [discriminate|].
  apply model_ofstream_open_ok in Hopen as (Hres & Hne & Hfail & Hbin & Hw0).
  pose proof (resolve_inr _ _ Hres) as [Hloc _].
  unfold model_ofstream_write.
  assert (w0 = <[os_loc out := File EmptyString]> w) as ->.
  { destruct Hw0 as [(c & _ & ->)|(_ & _ & ->)]; reflexivity. }
  rewrite lookup_insert_eq. rewrite Hbin. simpl. rewrite Hfail.
  intros [= <-]. rewrite <- Hloc. repeat split; try done.
  apply insert_insert_eq.
Qed.


Lemma model_read_text_file tm p w c :
  path_empty p = false → locate p ≠ [] → w !! locate p = Some (File c) →
  read_text (H := model_host tm) p w = Ok (text_in tm c).
Proof.
  intros Hp Hl Hc. unfold read_text. simpl. unfold model_ifstream_open.
  rewrite (resolve_nonempty p Hp), (node_at_nonroot w _ Hl), Hc. reflexivity.
Qed.

Lemma model_file_size_bytes_file tm p w c :
  path_empty p = false → locate p ≠ [] → w !! locate p = Some (File c) →
  file_size_bytes (H := model_host tm) p w = Ok (to_uintmax (Z.of_nat (String.length c))).
Proof.
  intros Hp Hl Hc. unfold file_size_bytes, std_is_regular_file. simpl.
  unfold model_status, model_file_size.
  rewrite (resolve_nonempty p Hp), (node_at_nonroot w _ Hl), Hc. reflexivity.
Qed.

(** On a host with transparent text streams, what [write_text] wrote is
    what [read_text] reads, and its length is the size of the file. *)
Lemma posix_write_read p text w w1 :
  write_text (H := posix_host) p text w = (Ok (), w1) →
  read_text (H := posix_host) p w1 = Ok text.
Proof.
  intros Hw. pose proof (model_write_text_ok _ _ _ _ _ Hw) as (Hres & Hl & ->).
  apply resolve_inr in Hres as [_ Hp].
  apply (model_read_text_file Transparent p _ text Hp Hl).
  apply lookup_insert_eq.
Qed.

Lemma posix_write_size p text w w1 :
  write_text (H := posix_host) p text w = (Ok (), w1) →
  file_size_bytes (H := posix_host) p w1 = Ok (to_uintmax (Z.of_nat (String.length text))).
Proof.
  intros Hw. pose proof (model_write_text_ok _ _ _ _ _ Hw) as (Hres & Hl & ->).
  apply resolve_inr in Hres as [_ Hp].
  apply (model_file_size_bytes_file Transparent p _ text Hp Hl).
  apply lookup_insert_eq.
Qed.

(** [write_bytes] opens its stream in binary mode: on either host the file
    holds the bytes as they were given. *)
Lemma model_write_bytes_ok (tm : text_mode) (p : path) (bytes : string)
    (w w1 : gmap loc node) :
  write_bytes (H := model_host tm) p bytes w = (Ok (), w1) →
  path_empty p = false ∧ locate p ≠ [] ∧ w1 = <[locate p := File bytes]> w.
Proof.
  unfold write_bytes. simpl.
  destruct (model_ofstream_open p (ios_out |: ios_trunc |: ios_binary) w)
    as [[e|out] w0] eqn:Hopen; [discriminate|].
  apply model_ofstream_open_ok in Hopen as (Hres & Hne & Hfail & Hbin & Hw0).
  pose proof (resolve_inr _ _ Hres) as [Hloc Hp].
  assert (w0 = <[os_loc out := File EmptyString]> w) as ->.
  { destruct Hw0 as [(c & _ & ->)|(_ & _ & ->)]; reflexivity. }
  rewrite <- Hloc. destruct bytes as [|b bytes]; simpl.
  - rewrite Hfail. intros [= <-]. auto.
  - unfold model_ofstream_write. rewrite lookup_insert_eq, Hbin. simpl. rewrite Hfail.
    intros [= <-]. split; [exact Hp|]. split; [exact Hne|]. apply insert_insert_eq.
Qed.

End ReferenceHost.

Section TextMode.
Implicit Types (s : string) (p : path) (w : gmap loc node).

(** What the translating text mode writes never starts with a bare line
    feed, and holds a Ctrl-Z only where the text does. *)
Lemma lf_to_crlf_head s c s' : lf_to_crlf s = String c s' → Ascii.eqb c LF = false.
Proof.
  destruct s as [|a s0]; [discriminate|]. simpl.
  destruct (Ascii.eqb a LF) eqn:Ha; intros [= <- _]; [reflexivity | exact Ha].
Qed.

Lemma crlf_to_lf_lf_to_crlf s : crlf_to_lf (lf_to_crlf s) = s.
Proof.
  induction s as [|a s IH]; [reflexivity|]. simpl lf_to_crlf.
  destruct (Ascii.eqb a LF) eqn:Ha.
  - apply Ascii.eqb_eq in Ha. subst a.
    change (String LF (crlf_to_lf (lf_to_crlf s)) = String LF s). rewrite IH. reflexivity.
  - destruct (lf_to_crlf s) as [|c t] eqn:Ht.
    + simpl. simpl in IH. rewrite <- IH. reflexivity.
    + pose proof (lf_to_crlf_head s c t Ht) as Hc.
      change (crlf_to_lf (String a (String c t)))
        with (if Ascii.eqb a CR && Ascii.eqb c LF then String LF (crlf_to_lf t)
              else String a (crlf_to_lf (String c t))).
      rewrite Hc, andb_false_r, IH. reflexivity.
Qed.

Lemma until_ctrl_z_lf_to_crlf s :
  until_ctrl_z s = s → until_ctrl_z (lf_to_crlf s) = lf_to_crlf s.
Proof.
  induction s as [|a s IH]; [reflexivity|]. simpl.
  destruct (Ascii.eqb a CtrlZ) eqn:Hz; [discriminate|]. intros [= Hs].
  destruct (Ascii.eqb a LF) eqn:Ha; simpl.
  - rewrite (IH Hs). reflexivity.
  - rewrite Hz, (IH Hs). reflexivity.
Qed.

(** On the host with the translating text mode the round trip holds for
    every text that holds no Ctrl-Z. *)
Lemma crlf_write_read p (text : string) w w1 :
  until_ctrl_z text = text →
  write_text (H := crlf_host) p text w = (Ok (), w1) →
  read_text (H := crlf_host) p w1 = Ok text.
Proof.
  intros Hz Hw. pose proof (model_write_text_ok _ _ _ _ _ Hw) as (Hres & Hl & ->).
  apply resolve_inr in Hres as [_ Hp].
  rewrite (model_read_text_file CRLF p _ (lf_to_crlf text) Hp Hl) by apply lookup_insert_eq.
  simpl. rewrite (until_ctrl_z_lf_to_crlf text Hz), crlf_to_lf_lf_to_crlf. reflexivity.
Qed.

End TextMode.

Section ReferenceRemoval.
Implicit Types (p : path) (w : gmap loc node) (l : loc).

Lemma uintmax_small z : 0 ≤ z < uintmax_modulus → to_uintmax z = z.
Proof. intros Hz. unfold to_uintmax. apply Z.mod_small. exact Hz. Qed.

Lemma to_uintmax_range z : 0 ≤ to_uintmax z < uintmax_modulus.
Proof. unfold to_uintmax. apply Z.mod_pos_bound. reflexivity. Qed.


Lemma outside_root_entry w l : outside w l !! l = None.
Proof.
  apply map_lookup_filter_None_2. right. intros n _ Hnot. apply Hnot. reflexivity.
Qed.



Lemma file_above_root w : file_above w [] = false.
Proof. reflexivity. Qed.








(** [std::filesystem::remove] takes a regular file and an empty directory
    alike. *)
Lemma model_remove_file_entry p w c :
  path_empty p = false → locate p ≠ [] → w !! locate p = Some (File c) →
  model_remove p w = (true, None, delete (locate p) w).
Proof.
  intros Hp Hl Hc. unfold model_remove. rewrite (resolve_nonempty p Hp).
  destruct (locate p) as [|f l]; [congruence|]. rewrite Hc. reflexivity.
Qed.

Lemma model_remove_empty_dir p w :
  path_empty p = false → locate p ≠ [] → w !! locate p = Some Dir →
  below w (locate p) = ∅ →
  model_remove p w = (true, None, delete (locate p) w).
Proof.
  intros Hp Hl Hd Hempty. unfold model_remove. rewrite (resolve_nonempty p Hp).
  destruct (locate p) as [|f l]; [congruence|]. rewrite Hd.
  rewrite bool_decide_eq_true_2 by exact Hempty. reflexivity.
Qed.

Lemma model_remove_swapped tm p w :
  path_empty p = false → locate p ≠ [] →
  (w !! locate p = Some Dir ∧ below w (locate p) = ∅ →
     remove_file (H := model_host tm) p w = (Ok true, delete (locate p) w))
  ∧ (∀ c, w !! locate p = Some (File c) →
     remove_dir (H := model_host tm) p w = (Ok true, delete (locate p) w)).
Proof.
  intros Hp Hl. unfold remove_file, remove_dir. simpl. split.
  - intros [Hd Hempty]. rewrite (model_remove_empty_dir p w Hp Hl Hd Hempty). reflexivity.
  - intros c Hc. rewrite (model_remove_file_entry p w c Hp Hl Hc). reflexivity.
Qed.

End ReferenceRemoval.

Section BinaryStreams.
Implicit Types (s : string) (p : path) (w : gmap loc node).

Lemma substring_all s : substring 0 (String.length s) s = s.
Proof. induction s as [|c s IH]; [reflexivity|]. simpl. rewrite IH. reflexivity. Qed.

Lemma to_streamsize_small z : 0 ≤ z < 2 ^ 63 → to_streamsize z = z.
Proof.
  intros Hz. unfold to_streamsize, uintmax_modulus.
  rewrite Z.mod_small by lia.
  destruct (z <? 2 ^ 63) eqn:Hlt; [reflexivity|]. apply Z.ltb_ge in Hlt. lia.
Qed.

(** What [read_bytes] returns for a regular file: its bytes, in full. *)
Lemma model_read_bytes_file tm p w (bytes : string) :
  path_empty p = false → locate p ≠ [] → w !! locate p = Some (File bytes) →
  Z.of_nat (String.length bytes) < 2 ^ 63 →
  read_bytes (H := model_host tm) p w = Ok bytes.
Proof.
  intros Hp Hl Hc Hlen. unfold read_bytes. simpl. unfold model_ifstream_open.
  rewrite (resolve_nonempty p Hp), (node_at_nonroot w _ Hl), Hc. simpl.
  rewrite Z.sub_0_r. unfold to_size_t.
  assert (0 ≤ Z.of_nat (String.length bytes) < uintmax_modulus) as Hsmall.
  { unfold uintmax_modulus. lia. }
  rewrite (uintmax_small _ Hsmall).
  destruct (Z.of_nat (String.length bytes) <? 0) eqn:Hneg; [apply Z.ltb_lt in Hneg; lia|].
  destruct (Z.of_nat (String.length bytes) =? 0) eqn:Hzero; simpl.
  - apply Z.eqb_eq in Hzero. destruct bytes; [reflexivity | discriminate].
  - apply Z.eqb_neq in Hzero.
    rewrite to_streamsize_small by lia. unfold model_ifstream_read.
    destruct (Z.of_nat (String.length bytes) <=? 0) eqn:Hle; [apply Z.leb_le in Hle; lia|].
    rewrite Nat2Z.id, substring_all, Nat.ltb_irrefl. simpl.
    rewrite (uintmax_small _ Hsmall), Z.eqb_refl. reflexivity.
Qed.

(** [write_bytes] then [read_bytes] gives the bytes back, whatever the
    host's text mode. *)
Lemma model_write_read_bytes tm p (bytes : string) w w1 :
  Z.of_nat (String.length bytes) < 2 ^ 63 →
  write_bytes (H := model_host tm) p bytes w = (Ok (), w1) →
  read_bytes (H := model_host tm) p w1 = Ok bytes.
Proof.
  intros Hlen Hw. destruct (model_write_bytes_ok tm p bytes w w1 Hw) as (Hp & Hl & ->).
  apply model_read_bytes_file; try assumption. apply lookup_insert_eq.
Qed.

End BinaryStreams.

Section ReferenceDirectories.
Implicit Types (p : path) (w : gmap loc node) (l : loc).

(** When [create_directories] reports no error, the directory is
    there. *)
Lemma make_path_directory names :
  ∀ w cur created b w1,
    make_path w cur names created = (b, None, w1) →
    node_at w cur = Some Dir →
    node_at w1 (cur ++ names) = Some Dir.
Proof.
  induction names as [|f rest IH]; intros w cur created b w1; simpl.
  - intros [= _ <-] Hcur. rewrite app_nil_r. exact Hcur.
  - assert ((cur ++ [f])%list ≠ []) as Hne by (destruct cur; discriminate).
    replace (cur ++ f :: rest)%list with ((cur ++ [f]) ++ rest)%list
      by (rewrite <- app_assoc; reflexivity).
    destruct (w !! (cur ++ [f])%list) as [[c|]|] eqn:Hnext.
    + discriminate.
    + intros Hmk _. apply (IH _ _ _ _ _ Hmk).
      rewrite node_at_nonroot by exact Hne. exact Hnext.
    + intros Hmk _. apply (IH _ _ _ _ _ Hmk).
      apply node_at_insert_eq, Hne.
Qed.

(** An error from [create_directories] comes with [false]. *)
Lemma make_path_error names :
  ∀ w cur created b e w1,
    make_path w cur names created = (b, Some e, w1) → b = false.
Proof.
  induction names as [|f rest IH]; intros w cur created b e w1; simpl.
  - discriminate.
  - destruct (w !! (cur ++ [f])%list) as [[c|]|]; eauto. intros [= <- _ _]. reflexivity.
Qed.

Lemma model_ensure_dir_post tm p w w1 :
  ensure_dir (H := model_host tm) p w = (Ok (), w1) →
  fst (model_status p w1) = ft_directory.
Proof.
  destruct (fst (std_exists (H := model_host tm) p w)) eqn:Hex.
  - unfold ensure_dir, std_exists, std_is_directory in *. simpl in *.
    destruct (model_status p w) as [s ec] eqn:Hst. simpl in *.
    destruct (status_known s); simpl in *; [|discriminate]. rewrite Hex.
    destruct (bool_decide (s = ft_directory)) eqn:Hdir; simpl; [|discriminate].
    intros [= <-]. rewrite Hst. apply bool_decide_eq_true in Hdir. exact Hdir.
  - rewrite (ensure_dir_absent (H := model_host tm) p w Hex). simpl.
    unfold model_create_directories.
    destruct (resolve p) as [e|l] eqn:Hres; [discriminate|].
    destruct (make_path w [] l false) as [[b ec] w2] eqn:Hmk.
    destruct ec as [e|].
    + rewrite (make_path_error _ _ _ _ _ _ _ Hmk). discriminate.
    + intros Hok. assert (w2 = w1) as -> by (destruct b; congruence).
      pose proof (make_path_directory _ _ _ _ _ _ Hmk eq_refl) as Hdir.
      simpl in Hdir. rewrite (model_status_entry p w1 l Hres), Hdir. reflexivity.
Qed.

Lemma model_ensure_dir_twice tm p w w1 :
  ensure_dir (H := model_host tm) p w = (Ok (), w1) →
  ensure_dir (H := model_host tm) p w1 = (Ok (), w1).
Proof.
  intros Hok. apply (ensure_dir_directory (H := model_host tm)).
  exact (model_ensure_dir_post tm p w w1 Hok).
Qed.

(** With the options [copy_file] passes, the host's [copy_file] either
    copies or reports an error: it never declines in silence. *)
Lemma model_copy_file_decided (from to : path) (overwrite : bool) w :
  let opt := if overwrite then overwrite_existing else copy_none in
  ∀ ok ec w1, model_copy_file from to opt w = (ok, ec, w1) →
    (ok = true ∧ ec = None) ∨ (ok = false ∧ is_Some ec).
Proof.
  intros opt ok ec w1. unfold model_copy_file, opt.
  destruct (resolve from) as [e|lf]; [intros [= <- <- _]; eauto|].
  destruct (node_at w lf) as [[c|]|]; [|intros [= <- <- _]; eauto..].
  destruct (resolve to) as [e|lt]; [intros [= <- <- _]; eauto|].
  destruct (node_at w lt) as [[c'|]|].
  - destruct (bool_decide (lf = lt)); [intros [= <- <- _]; eauto|].
    destruct overwrite; intros [= <- <- _]; eauto.
  - intros [= <- <- _]; eauto.
  - destruct (node_at w (removelast lt)) as [[c'|]|]; intros [= <- <- _]; eauto.
Qed.

Lemma model_copy_file_never_declined tm (from to : path) (overwrite : bool) w :
  outcome (fst (copy_file (H := model_host tm) from to overwrite w)) ≠ inl LogicError.
Proof.
  unfold copy_file. simpl.
  destruct (model_copy_file from to (if overwrite then overwrite_existing else copy_none) w)
    as [[ok ec] w1] eqn:Hcp.
  destruct (model_copy_file_decided from to overwrite w ok ec w1 Hcp)
    as [[-> ->]|[-> [e ->]]]; simpl; discriminate.
Qed.

(** A destination that is there, and no leave to overwrite it: the host
    reports that the file exists. *)
Lemma model_copy_file_existing tm (from to : path) w c c' :
  path_empty from = false → path_empty to = false →
  node_at w (locate from) = Some (File c) →
  node_at w (locate to) = Some (File c') →
  copy_file (H := model_host tm) from to false w =
    (Throw (system_error EEXIST ("rix::fs::copy_file: failed: " +:+ from +:+ " -> " +:+ to)), w).
Proof.
  intros Hf Ht Hc Hc'. unfold copy_file. simpl. unfold model_copy_file.
  rewrite (resolve_nonempty from Hf), (resolve_nonempty to Ht), Hc, Hc'.
  destruct (bool_decide (locate from = locate to)); reflexivity.
Qed.

End ReferenceDirectories.

(** * Properties of the lexical operations *)

Section Strings.
Implicit Types (s t f : string) (c : ascii).

Lemma append_nil_l s : EmptyString +:+ s = s.
Proof. reflexivity. Qed.

Lemma append_cons c s t : String c s +:+ t = String c (s +:+ t).
Proof. reflexivity. Qed.

Lemma append_nil_r s : s +:+ EmptyString = s.
Proof.
  induction s as [|c s IH]; [reflexivity|]. rewrite append_cons, IH. reflexivity.
Qed.

Lemma append_assoc s t u : (s +:+ t) +:+ u = s +:+ t +:+ u.
Proof.
  induction s as [|c s IH]; [reflexivity|]. rewrite !append_cons, IH. reflexivity.
Qed.

Lemma back_push_back s c : back (push_back s c) = Some c.
Proof.
  unfold push_back. induction s as [|a s IH]; [reflexivity|].
  rewrite append_cons. destruct s as [|b s]; [reflexivity|].
  rewrite append_cons in *. exact IH.
Qed.

Lemma push_back_nonempty s c : path_empty (push_back s c) = false.
Proof. destruct s; reflexivity. Qed.


Lemma is_dotdot_eq f : is_dotdot f = true ↔ f = dotdot.
Proof. apply String.eqb_eq. Qed.

Lemma is_dotdot_neq f : is_dotdot f = false ↔ f ≠ dotdot.
Proof. apply String.eqb_neq. Qed.

Lemma is_dot_neq f : is_dot f = false ↔ f ≠ dot.
Proof. apply String.eqb_neq. Qed.

(** A name that holds no separator passes through [no_double_sep] and
    sticks to the field that follows it. *)
Lemma no_double_sep_name f s :
  has_sep f = false → no_double_sep (f +:+ s) = no_double_sep s.
Proof.
  induction f as [|c f IH]; [reflexivity|].
  simpl has_sep. intros Hc. apply orb_false_iff in Hc as [Hc Hf].
  rewrite <- (IH Hf), append_cons. simpl no_double_sep. rewrite Hc.
  destruct (f +:+ s); reflexivity.
Qed.

Lemma fields_not_nil s : fields s ≠ [].
Proof.
  induction s as [|c s IH]; simpl; [discriminate|].
  destruct (is_sep c); [discriminate|]. destruct (fields s); discriminate.
Qed.

Lemma fields_no_sep s : Forall (λ f, has_sep f = false) (fields s).
Proof.
  induction s as [|c s IH]; simpl.
  - repeat constructor.
  - destruct (is_sep c) eqn:Hc.
    + constructor; [reflexivity | exact IH].
    + destruct (fields s) as [|f fs]; [repeat constructor; simpl; rewrite Hc; reflexivity|].
      inversion IH as [|? ? Hf Hfs]; subst. constructor; [|exact Hfs].
      simpl. rewrite Hc, Hf. reflexivity.
Qed.

Lemma fields_name_app f s :
  has_sep f = false →
  fields (f +:+ s) =
    match fields s with
    | g :: gs => (f +:+ g) :: gs
    | [] => [f]
    end.
Proof.
  induction f as [|c f IH].
  - intros _. rewrite append_nil_l. destruct (fields s) eqn:Hs; [|reflexivity].
    exfalso. exact (fields_not_nil s Hs).
  - simpl has_sep. intros Hc. apply orb_false_iff in Hc as [Hc Hf].
    rewrite append_cons. simpl fields.
    rewrite Hc, (IH Hf). destruct (fields s) as [|g gs] eqn:Hs; [|reflexivity].
    exfalso. exact (fields_not_nil s Hs).
Qed.

Lemma fields_name_sep f s :
  has_sep f = false → fields (f +:+ String slash s) = f :: fields s.
Proof.
  intros Hf. rewrite (fields_name_app f _ Hf). simpl.
  rewrite append_nil_r. reflexivity.
Qed.

Lemma fields_name f : has_sep f = false → fields f = [f].
Proof.
  intros Hf. rewrite <- (append_nil_r f) at 1.
  rewrite (fields_name_app f _ Hf). simpl. rewrite append_nil_r. reflexivity.
Qed.

Lemma filenames_are_names p : Forall is_name (filenames p).
Proof.
  unfold filenames. apply Forall_forall. intros f Hin.
  apply list_elem_of_filter in Hin as [Hne Hin]. split; [exact Hne|].
  pose proof (fields_no_sep p) as Hall. rewrite Forall_forall in Hall. auto.
Qed.

Lemma filter_names (fs : list string) :
  Forall is_name fs → filter (λ f, nonempty f = true) fs = fs.
Proof.
  induction 1 as [|f fs [Hf _] _ IH]; [reflexivity|].
  rewrite filter_cons_True by exact Hf. rewrite IH. reflexivity.
Qed.

End Strings.

Section Items.
Implicit Types (its kept : list (string * bool)) (it : string * bool).

Lemma well_marked_mark (fs : list string) b : well_marked (mark_items fs b).
Proof.
  induction fs as [|f fs IH]; simpl; [exact I|].
  destruct fs as [|g fs]; simpl in *; auto.
Qed.

Lemma mark_items_names (fs : list string) b : map fst (mark_items fs b) = fs.
Proof.
  induction fs as [|f fs IH]; simpl; [reflexivity|].
  destruct fs as [|g fs]; simpl in *; [reflexivity | rewrite IH; reflexivity].
Qed.

Lemma well_marked_drop its1 it its2 :
  well_marked (its1 ++ it :: its2) → well_marked (its1 ++ its2).
Proof.
  induction its1 as [|a its1 IH]; simpl; [tauto|].
  intros [Hlast Hrest]. split; [|exact (IH Hrest)].
  right. destruct Hlast as [Hnil|Ha]; [|exact Ha].
  destruct its1; discriminate.
Qed.

Lemma well_marked_filter (P : string * bool → Prop) `{!∀ x, Decision (P x)} its :
  well_marked its → well_marked (filter P its).
Proof.
  induction its as [|it rest IH]; simpl; [tauto|].
  intros [Hlast Hrest]. destruct (decide (P it)) as [Hp|Hp].
  - rewrite filter_cons_True by exact Hp. simpl. split; [|exact (IH Hrest)].
    destruct Hlast as [->|Hit]; [left; reflexivity | right; exact Hit].
  - rewrite filter_cons_False by exact Hp. exact (IH Hrest).
Qed.

Lemma well_marked_cancel its : ∀ kept,
  well_marked (rev kept ++ its) → well_marked (cancel_dotdots kept its).
Proof.
  induction its as [|it rest IH]; intros kept; simpl.
  - rewrite app_nil_r. tauto.
  - intros Hwm.
    assert (well_marked (rev (it :: kept) ++ rest)) as Hpush.
    { simpl. rewrite <- app_assoc. exact Hwm. }
    destruct (is_dotdot (fst it)); [|exact (IH _ Hpush)].
    destruct kept as [|k kept']; [exact (IH [it] Hwm)|].
    destruct (is_dotdot (fst k)); [exact (IH _ Hpush)|].
    apply IH. simpl in Hwm. rewrite <- app_assoc in Hwm. simpl in Hwm.
    apply well_marked_drop in Hwm. apply well_marked_drop in Hwm. exact Hwm.
Qed.

Lemma well_marked_trim its : well_marked its → well_marked (trim_last_dotdot its).
Proof.
  induction its as [|it rest IH]; simpl; [tauto|].
  intros [Hlast Hrest]. destruct rest as [|it' rest'].
  - destruct (is_dotdot (fst it)); simpl; auto.
  - destruct Hlast as [Hnil|Hit]; [discriminate|].
    split; [right; exact Hit | exact (IH Hrest)].
Qed.

Lemma trim_names its : map fst (trim_last_dotdot its) = map fst its.
Proof.
  induction its as [|it rest IH]; simpl; [reflexivity|].
  destruct rest as [|it' rest'].
  - destruct (is_dotdot (fst it)); reflexivity.
  - simpl in *. rewrite IH. reflexivity.
Qed.

(** Normalisation invents no name. *)
Lemma cancel_names its : ∀ kept f,
  f ∈ map fst (cancel_dotdots kept its) → f ∈ map fst (rev kept ++ its).
Proof.
  induction its as [|it rest IH]; intros kept f; simpl.
  - rewrite app_nil_r. tauto.
  - assert (∀ g, g ∈ map fst (rev (it :: kept) ++ rest) →
                 g ∈ map fst (rev kept ++ it :: rest)) as Hpush.
    { intros g. simpl. rewrite <- app_assoc. tauto. }
    destruct (is_dotdot (fst it)); [|intros Hin; exact (Hpush _ (IH _ _ Hin))].
    destruct kept as [|k kept']; [exact (IH [it] f)|].
    destruct (is_dotdot (fst k)); [intros Hin; exact (Hpush _ (IH _ _ Hin))|].
    intros Hin. apply IH in Hin. simpl. rewrite <- app_assoc. simpl.
    rewrite map_app in *. simpl. rewrite !elem_of_app, !elem_of_cons in *. tauto.
Qed.

Lemma normal_items_names root its f :
  f ∈ map fst (normal_items root its) → f ∈ map fst its ∧ f ≠ dot.
Proof.
  unfold normal_items. rewrite trim_names. intros Hin.
  assert (f ∈ map fst (cancel_dotdots [] (drop_dots its))) as Hc.
  { unfold drop_root_dotdots in Hin. destruct root; [|exact Hin].
    apply list_elem_of_fmap in Hin as (it & -> & Hit).
    apply list_elem_of_filter in Hit as [_ Hit].
    apply list_elem_of_fmap. eauto. }
  apply cancel_names in Hc. simpl in Hc.
  apply list_elem_of_fmap in Hc as (it & -> & Hit).
  unfold drop_dots in Hit. apply list_elem_of_filter in Hit as [Hdot Hit].
  split; [apply list_elem_of_fmap; eauto | apply is_dot_neq, Hdot].
Qed.

Lemma well_marked_normal root its : well_marked its → well_marked (normal_items root its).
Proof.
  intros Hwm. unfold normal_items. apply well_marked_trim.
  assert (well_marked (cancel_dotdots [] (drop_dots its))) as Hc.
  { apply well_marked_cancel. simpl. apply well_marked_filter, Hwm. }
  unfold drop_root_dotdots. destruct root; [|exact Hc].
  apply well_marked_filter, Hc.
Qed.

(** *** Where the dot-dots end up *)

Lemma all_dotdots its :
  Forall (λ it, is_dotdot (fst it) = true) its →
  map fst its = replicate (length its) dotdot.
Proof.
  induction 1 as [|it rest Hit _ IH]; simpl; [reflexivity|].
  apply is_dotdot_eq in Hit. rewrite Hit, IH. reflexivity.
Qed.

Lemma stack_ok_lead kept : stack_ok kept → dotdots_lead false (map fst (rev kept)).
Proof.
  induction kept as [|k kept' IH]; simpl.
  - intros _. exists 0%nat, []. simpl. split; [reflexivity|]. split; [|done].
    apply not_elem_of_nil.
  - intros [Hk Hok]. rewrite map_app. simpl.
    destruct (is_dotdot (fst k)) eqn:Hdd.
    + specialize (Hk eq_refl).
      assert (Forall (λ it, is_dotdot (fst it) = true) (rev kept' ++ [k])) as Hall.
      { apply Forall_app. split; [apply Forall_rev, Hk | repeat constructor; exact Hdd]. }
      apply all_dotdots in Hall. rewrite map_app in Hall. simpl in Hall.
      exists (length (rev kept' ++ [k])), []. rewrite app_nil_r.
      split; [exact Hall|]. split; [apply not_elem_of_nil | done].
    + destruct (IH Hok) as (n & rest & Hnames & Hrest & _).
      exists n, (rest ++ [fst k])%list. rewrite Hnames, <- app_assoc.
      split; [reflexivity|]. split; [|done].
      rewrite elem_of_app, list_elem_of_singleton. intros [Hin|Heq]; [exact (Hrest Hin)|].
      apply is_dotdot_neq in Hdd. congruence.
Qed.

Lemma cancel_lead its : ∀ kept,
  stack_ok kept → dotdots_lead false (map fst (cancel_dotdots kept its)).
Proof.
  induction its as [|it rest IH]; intros kept Hok; simpl.
  - apply stack_ok_lead, Hok.
  - destruct (is_dotdot (fst it)) eqn:Hit.
    + destruct kept as [|k kept'].
      * apply IH. simpl. split; [intros _; constructor | exact I].
      * destruct (is_dotdot (fst k)) eqn:Hk.
        -- apply IH. simpl in *. destruct Hok as [Hbelow Hok].
           split; [|split; [exact Hbelow | exact Hok]].
           intros _. constructor; [exact Hk | exact (Hbelow Hk)].
        -- apply IH. simpl in Hok. tauto.
    + apply IH. simpl. split; [|exact Hok]. rewrite Hit. discriminate.
Qed.

Lemma normal_items_lead root its :
  dotdots_lead root (map fst (normal_items root its)).
Proof.
  unfold normal_items. rewrite trim_names.
  pose proof (cancel_lead (drop_dots its) [] I) as Hlead.
  unfold drop_root_dotdots. destruct root; [|exact Hlead].
  exists 0%nat, (map fst (filter (λ it, is_dotdot (fst it) = false)
                         (cancel_dotdots [] (drop_dots its)))).
  split; [reflexivity|]. split; [|done].
  intros Hin. apply list_elem_of_fmap in Hin as (it & Heq & Hit).
  apply list_elem_of_filter in Hit as [Hdd _]. apply is_dotdot_neq in Hdd. congruence.
Qed.

End Items.

Section Rendering.
Implicit Types (its : list (string * bool)) (it : string * bool).

Lemma render_item_sep f s :
  render_item (f, true) +:+ s = f +:+ String slash s.
Proof. unfold render_item, push_back. simpl. rewrite append_assoc. reflexivity. Qed.

Lemma name_first_char f :
  is_name f → ∃ c f', f = String c f' ∧ is_sep c = false.
Proof.
  intros [Hne Hsep]. destruct f as [|c f']; [discriminate|].
  simpl in Hsep. apply orb_false_iff in Hsep as [Hc _]. eauto.
Qed.

Lemma render_items_no_root its :
  names_ok its → has_root_directory (render_items its) = false.
Proof.
  destruct its as [|[f b] rest]; [reflexivity|].
  intros Hok. inversion Hok as [|? ? Hf _]; subst. simpl in Hf.
  destruct (name_first_char f Hf) as (c & f' & -> & Hc).
  unfold render_items. simpl. destruct b.
  - rewrite render_item_sep. simpl. exact Hc.
  - unfold render_item. simpl. exact Hc.
Qed.

Lemma no_double_sep_slash s :
  has_root_directory s = false → no_double_sep s = true →
  no_double_sep (String slash s) = true.
Proof.
  destruct s as [|c s]; [reflexivity|]. intros Hc Hs.
  change (negb (is_sep slash && is_sep c) && no_double_sep (String c s) = true).
  simpl in Hc. rewrite Hc, Hs. reflexivity.
Qed.

Lemma no_double_sep_items its :
  names_ok its → no_double_sep (render_items its) = true.
Proof.
  induction its as [|[f b] rest IH]; [reflexivity|].
  intros Hok. inversion Hok as [|? ? [_ Hf] Hrest]; subst. simpl in Hf.
  unfold render_items. simpl. fold (render_items rest). destruct b.
  - rewrite render_item_sep, (no_double_sep_name f _ Hf).
    apply no_double_sep_slash; [apply render_items_no_root, Hrest | exact (IH Hrest)].
  - unfold render_item. simpl. rewrite (no_double_sep_name f _ Hf). exact (IH Hrest).
Qed.

Lemma trailing_cons it it' its : trailing (it :: it' :: its) = trailing (it' :: its).
Proof. reflexivity. Qed.

Lemma fields_render_items its :
  names_ok its → well_marked its →
  fields (render_items its) =
    match its with
    | [] => [EmptyString]
    | _ => (map fst its ++ (if trailing its then [EmptyString] else []))%list
    end.
Proof.
  induction its as [|[f b] rest IH]; [reflexivity|].
  intros Hok [Hlast Hwm]. inversion Hok as [|? ? [_ Hf] Hrest]; subst. simpl in Hf.
  unfold render_items. simpl map. simpl fold_right. fold (render_items rest).
  destruct rest as [|it' rest'].
  - unfold render_items. simpl. destruct b.
    + rewrite render_item_sep, (fields_name_sep f _ Hf). reflexivity.
    + unfold render_item. simpl. rewrite append_nil_r, (fields_name f Hf). reflexivity.
  - destruct Hlast as [Hnil|Hb]; [discriminate|]. simpl in Hb. subst b.
    rewrite render_item_sep, (fields_name_sep f _ Hf), (IH Hrest Hwm).
    rewrite trailing_cons. reflexivity.
Qed.

Lemma names_ok_names its : names_ok its → Forall is_name (map fst its).
Proof. unfold names_ok. intros Hok. apply Forall_fmap. exact Hok. Qed.

Lemma filenames_render_items its :
  names_ok its → well_marked its →
  filter (λ f, nonempty f = true) (fields (render_items its)) = map fst its.
Proof.
  intros Hok Hwm. rewrite (fields_render_items its Hok Hwm).
  destruct its as [|it rest]; [reflexivity|].
  rewrite filter_app, (filter_names _ (names_ok_names _ Hok)).
  destruct (trailing (it :: rest)); simpl; rewrite ?app_nil_r; reflexivity.
Qed.

Lemma filenames_render e :
  names_ok (el_items e) → well_marked (el_items e) →
  filenames (render e) = map fst (el_items e).
Proof.
  intros Hok Hwm. unfold filenames, render. destruct (el_root e).
  - rewrite append_cons, append_nil_l.
    change (fields (String slash (render_items (el_items e))))
      with (EmptyString :: fields (render_items (el_items e))).
    rewrite filter_cons_False by (simpl; discriminate).
    apply filenames_render_items; assumption.
  - rewrite append_nil_l. apply filenames_render_items; assumption.
Qed.

Lemma has_root_render e :
  names_ok (el_items e) → has_root_directory (render e) = el_root e.
Proof.
  intros Hok. unfold render. destruct (el_root e).
  - reflexivity.
  - rewrite append_nil_l. apply render_items_no_root, Hok.
Qed.

Lemma no_double_sep_render e :
  names_ok (el_items e) → no_double_sep (render e) = true.
Proof.
  intros Hok. unfold render. destruct (el_root e).
  - rewrite append_cons, append_nil_l.
    apply no_double_sep_slash; [apply render_items_no_root | apply no_double_sep_items];
      exact Hok.
  - rewrite append_nil_l. apply no_double_sep_items, Hok.
Qed.

Lemma decompose_ok p :
  names_ok (el_items (decompose p)) ∧ well_marked (el_items (decompose p)).
Proof.
  unfold decompose. simpl. split; [|apply well_marked_mark].
  assert (Forall is_name (map fst (mark_items (filenames p) (ends_with_sep p)))) as Hn.
  { rewrite mark_items_names. apply filenames_are_names. }
  unfold names_ok. apply Forall_forall. intros it Hin.
  rewrite Forall_forall in Hn. apply Hn, list_elem_of_fmap. eauto.
Qed.

Lemma normal_items_ok root its : names_ok its → names_ok (normal_items root its).
Proof.
  intros Hok. unfold names_ok. apply Forall_forall. intros it Hin.
  assert (fst it ∈ map fst (normal_items root its)) as Hname.
  { apply list_elem_of_fmap. eauto. }
  apply normal_items_names in Hname as [Hname _].
  apply names_ok_names in Hok. rewrite Forall_forall in Hok. auto.
Qed.

(** What [normalize] returns: the path itself when it has no filename, a
    dot when nothing is left, and the normal items written out
    otherwise. *)
Lemma normalize_cases p :
  (filenames p = [] ∧ normalize p = p)
  ∨ (filenames p ≠ [] ∧ normalize p = dot)
  ∨ (filenames p ≠ []
     ∧ ∃ e, normalize p = render e ∧ names_ok (el_items e) ∧ well_marked (el_items e)
            ∧ dotdots_lead (el_root e) (map fst (el_items e))
            ∧ dot ∉ map fst (el_items e)).
Proof.
  unfold normalize, lexically_normal.
  destruct (bool_decide (filenames p = [])) eqn:Hnil.
  { left. apply bool_decide_eq_true in Hnil. auto. }
  apply bool_decide_eq_false in Hnil. right.
  destruct (negb (el_root (decompose p)) &&
            bool_decide (normal_items (el_root (decompose p)) (el_items (decompose p)) = []));
    [left; auto|].
  right. split; [exact Hnil|]. destruct (decompose_ok p) as [Hok Hwm].
  eexists. split; [reflexivity|]. simpl.
  split; [apply normal_items_ok, Hok|].
  split; [apply well_marked_normal, Hwm|].
  split; [apply normal_items_lead|].
  intros Hin. apply normal_items_names in Hin as [_ Hne]. congruence.
Qed.




End Rendering.

Section GenericFormat.
Implicit Types (p : path) (s t f : string) (its : list (string * bool))
  (it : string * bool) (e : path_elements).

Lemma back_none s : back s = None → s = EmptyString.
Proof.
  induction s as [|c s IH]; [reflexivity|]. simpl.
  destruct s as [|c' s]; [discriminate|]. intros Hb. discriminate (IH Hb).
Qed.

Lemma back_app s t :
  back (s +:+ t) = match back t with Some c => Some c | None => back s end.
Proof.
  induction s as [|a s IH].
  - rewrite append_nil_l. destruct (back t); reflexivity.
  - rewrite append_cons.
    destruct (back t) as [c|] eqn:Ht.
    + change (back (String a (s +:+ t)))
        with (match s +:+ t with EmptyString => Some a | String _ _ => back (s +:+ t) end).
      rewrite IH. destruct (s +:+ t) eqn:Hst; [|reflexivity].
      destruct s; [|discriminate]. rewrite append_nil_l in Hst. subst t. discriminate.
    + apply back_none in Ht. subst t. rewrite append_nil_r. reflexivity.
Qed.

Lemma name_back f c : has_sep f = false → back f = Some c → is_sep c = false.
Proof.
  induction f as [|a f IH]; [discriminate|]. simpl has_sep.
  intros Hsep. apply orb_false_iff in Hsep as [Ha Hf].
  destruct f as [|a' f]; [intros [= <-]; exact Ha | exact (IH Hf)].
Qed.

Lemma render_item_nonempty it : is_name (fst it) → path_empty (render_item it) = false.
Proof.
  destruct it as [f b]. simpl. intros [Hne _]. destruct f; [discriminate|].
  destruct b; reflexivity.
Qed.

Lemma append_nonempty s t : path_empty s = false → path_empty (s +:+ t) = false.
Proof. destruct s; [discriminate | reflexivity]. Qed.

Lemma render_items_nonempty its :
  names_ok its → its ≠ [] → path_empty (render_items its) = false.
Proof.
  destruct its as [|it rest]; [congruence|]. intros Hok _.
  inversion Hok as [|? ? Hit _]; subst.
  unfold render_items. simpl. apply append_nonempty, render_item_nonempty, Hit.
Qed.

Lemma ends_with_sep_items its :
  names_ok its → ends_with_sep (render_items its) = trailing its.
Proof.
  induction its as [|[f b] rest IH]; [reflexivity|].
  intros Hok. inversion Hok as [|? ? [Hne Hsep] Hrest]; subst. simpl in Hne, Hsep.
  unfold ends_with_sep, render_items. simpl map. simpl fold_right.
  fold (render_items rest). rewrite back_app.
  destruct rest as [|it' rest'].
  - unfold render_items. simpl fold_right. simpl back. unfold trailing. simpl.
    unfold render_item. simpl. destruct b.
    + rewrite back_push_back. reflexivity.
    + destruct (back f) as [c|] eqn:Hb; [exact (name_back f c Hsep Hb) | reflexivity].
  - rewrite trailing_cons, <- (IH Hrest). unfold ends_with_sep.
    destruct (back (render_items (it' :: rest'))) as [c|] eqn:Hb; [reflexivity|].
    apply back_none in Hb.
    pose proof (render_items_nonempty (it' :: rest') Hrest) as Hne'.
    rewrite Hb in Hne'. discriminate Hne'. discriminate.
Qed.

Lemma mark_items_marked its :
  well_marked its → mark_items (map fst its) (trailing its) = its.
Proof.
  induction its as [|[f b] rest IH]; [reflexivity|].
  intros [Hlast Hwm]. destruct rest as [|it' rest'].
  - reflexivity.
  - destruct Hlast as [Hnil|Hb]; [discriminate|]. simpl in Hb. subst b.
    rewrite trailing_cons.
    change ((f, true) :: mark_items (map fst (it' :: rest')) (trailing (it' :: rest'))
            = (f, true) :: it' :: rest').
    rewrite (IH Hwm). reflexivity.
Qed.

(** A pathname written out from its elements reads back as those
    elements. *)
Lemma decompose_render e :
  names_ok (el_items e) → well_marked (el_items e) → decompose (render e) = e.
Proof.
  intros Hok Hwm. unfold decompose.
  rewrite (has_root_render e Hok), (filenames_render e Hok Hwm).
  destruct e as [root its]. simpl in *. f_equal.
  destruct its as [|it rest]; [reflexivity|].
  assert (ends_with_sep (render (PathElements root (it :: rest))) = trailing (it :: rest)) as ->.
  { unfold render, ends_with_sep. rewrite back_app. simpl el_items.
    pose proof (ends_with_sep_items (it :: rest) Hok) as Hends.
    unfold ends_with_sep in Hends.
    destruct (back (render_items (it :: rest))) as [c|] eqn:Hb; [exact Hends|].
    apply back_none in Hb.
    pose proof (render_items_nonempty (it :: rest) Hok) as Hne.
    rewrite Hb in Hne. discriminate Hne. discriminate. }
  apply mark_items_marked, Hwm.
Qed.

Lemma generic_string_render e :
  names_ok (el_items e) → well_marked (el_items e) → generic_string (render e) = render e.
Proof.
  intros Hok Hwm. unfold generic_string. rewrite (decompose_render e Hok Hwm). reflexivity.
Qed.

(** The generic format is a format: writing it out again changes
    nothing. *)
Lemma generic_string_idempotent p :
  generic_string (generic_string p) = generic_string p.
Proof.
  unfold generic_string at 2 3. destruct (decompose_ok p) as [Hok Hwm].
  apply generic_string_render; assumption.
Qed.

Lemma generic_string_nonempty p :
  path_empty p = false → path_empty (generic_string p) = false.
Proof.
  destruct p as [|c p']; [discriminate|]. intros _.
  unfold generic_string, render, decompose. simpl el_root. simpl el_items.
  destruct (is_sep c) eqn:Hc; [reflexivity|].
  rewrite append_nil_l. destruct (decompose_ok (String c p')) as [Hok _].
  apply render_items_nonempty; [exact Hok|].
  unfold decompose. simpl el_items. unfold filenames. simpl fields. rewrite Hc.
  destruct (fields p') as [|f fs] eqn:Hf; [exfalso; exact (fields_not_nil p' Hf)|].
  rewrite filter_cons_True by reflexivity.
  destruct (filter _ fs); discriminate.
Qed.

Lemma close_last_ok its :
  names_ok its → well_marked its →
  names_ok (close_last its) ∧ well_marked (close_last its).
Proof.
  induction its as [|it rest IH]; [auto|].
  intros Hok [Hlast Hwm]. inversion Hok as [|? ? Hit Hrest]; subst.
  destruct rest as [|it' rest'].
  - simpl. split; [constructor; [exact Hit | constructor] | auto].
  - destruct (IH Hrest Hwm) as [Hok' Hwm'].
    change (close_last (it :: it' :: rest')) with (it :: close_last (it' :: rest')).
    split; [constructor; assumption|].
    split; [|exact Hwm']. destruct Hlast as [Hnil|Hb]; [discriminate | right; exact Hb].
Qed.

Lemma render_close_last its :
  its ≠ [] → trailing its = false →
  render_items (close_last its) = push_back (render_items its) slash.
Proof.
  induction its as [|[f b] rest IH]; [congruence|]. intros _ Htr.
  destruct rest as [|it' rest'].
  - unfold trailing in Htr. simpl in Htr. subst b.
    unfold render_items, render_item, push_back. simpl.
    rewrite !append_nil_r. reflexivity.
  - change (close_last ((f, b) :: it' :: rest')) with ((f, b) :: close_last (it' :: rest')).
    unfold render_items in *. simpl map. simpl fold_right.
    rewrite trailing_cons in Htr. simpl map in IH. simpl fold_right in IH.
    rewrite IH by (congruence || exact Htr).
    unfold push_back. rewrite !append_assoc. reflexivity.
Qed.

Lemma is_sep_slash c : is_sep c = true ↔ c = slash.
Proof. unfold is_sep. apply Ascii.eqb_eq. Qed.

(** A separator pushed onto a pathname in the generic format that does
    not end with one leaves it in the generic format. *)
Lemma generic_string_push_back p :
  path_empty p = false → back (generic_string p) ≠ Some slash →
  generic_string (push_back (generic_string p) slash) = push_back (generic_string p) slash.
Proof.
  intros Hp Hback. destruct (decompose_ok p) as [Hok Hwm].
  pose proof (generic_string_nonempty p Hp) as Hne.
  unfold generic_string in Hback, Hne |- * at 2 3.
  destruct (decompose p) as [root its]. simpl in Hok, Hwm.
  assert (its ≠ [] ∧ trailing its = false) as [Hits Htr].
  { destruct its as [|it rest].
    - exfalso. unfold render in Hback, Hne. simpl in Hback, Hne.
      destruct root; [apply Hback; reflexivity | discriminate].
    - split; [discriminate|].
      rewrite <- (ends_with_sep_items _ Hok).
      unfold render in Hback. simpl el_items in Hback. rewrite back_app in Hback.
      unfold ends_with_sep.
      destruct (back (render_items (it :: rest))) as [c|]; [|reflexivity].
      destruct (is_sep c) eqn:Hc; [|reflexivity].
      apply is_sep_slash in Hc. congruence. }
  destruct (close_last_ok its Hok Hwm) as [Hok' Hwm'].
  assert (push_back (render (PathElements root its)) slash
          = render (PathElements root (close_last its))) as ->.
  { unfold render. simpl el_root. simpl el_items.
    rewrite (render_close_last its Hits Htr). unfold push_back.
    rewrite append_assoc. reflexivity. }
  apply generic_string_render; assumption.
Qed.

End GenericFormat.

Section TrailingSeparator.
Implicit Types (p : path).

(** What [ensure_trailing_separator] returns for a path that is not
    empty: a pathname in the generic format that ends with a
    separator. *)
Lemma ensure_trailing_separator_nonempty p :
  path_empty p = false →
  path_empty (ensure_trailing_separator p) = false
  ∧ generic_string (ensure_trailing_separator p) = ensure_trailing_separator p
  ∧ back (ensure_trailing_separator p) = Some slash.
Proof.
  intros Hp. unfold ensure_trailing_separator, path_of_string, nonempty.
  rewrite Hp, (generic_string_nonempty p Hp). simpl negb. rewrite andb_true_l.
  destruct (bool_decide (back (generic_string p) = Some slash)) eqn:Hback; simpl negb; cbv iota.
  - apply bool_decide_eq_true in Hback.
    split; [apply generic_string_nonempty, Hp|].
    split; [apply generic_string_idempotent | exact Hback].
  - apply bool_decide_eq_false in Hback.
    split; [apply push_back_nonempty|].
    split; [apply generic_string_push_back; assumption | apply back_push_back].
Qed.

Lemma ensure_trailing_separator_fixed p :
  generic_string p = p → back p = Some slash → ensure_trailing_separator p = p.
Proof.
  unfold ensure_trailing_separator, path_of_string. intros Hgen Hback.
  destruct (path_empty p); [reflexivity|]. rewrite Hgen.
  rewrite (bool_decide_eq_true_2 _ Hback). rewrite andb_false_r. reflexivity.
Qed.

Lemma ensure_trailing_separator_idempotent p :
  ensure_trailing_separator (ensure_trailing_separator p) = ensure_trailing_separator p.
Proof.
  destruct (path_empty p) eqn:Hp.
  - unfold ensure_trailing_separator. rewrite Hp, Hp. reflexivity.
  - destruct (ensure_trailing_separator_nonempty p Hp) as (_ & Hgen & Hback).
    apply ensure_trailing_separator_fixed; assumption.
Qed.

End TrailingSeparator.

Section NormalForm.
Implicit Types (p : path) (its kept : list (string * bool)) (it : string * bool).

Lemma filter_all {A} (P : A → Prop) `{!∀ x, Decision (P x)} (l : list A) :
  Forall P l → filter P l = l.
Proof.
  induction 1 as [|x l Hx _ IH]; [reflexivity|].
  rewrite filter_cons_True by exact Hx. rewrite IH. reflexivity.
Qed.

(** Dot-dots on top of dot-dots are kept. *)
Lemma cancel_dotdots_push its1 : ∀ kept its2,
  Forall (λ it, is_dotdot (fst it) = true) kept →
  Forall (λ it, is_dotdot (fst it) = true) its1 →
  cancel_dotdots kept (its1 ++ its2) = cancel_dotdots (rev its1 ++ kept) its2.
Proof.
  induction its1 as [|it rest IH]; intros kept its2 Hkept Hits; [reflexivity|].
  inversion Hits as [|? ? Hit Hrest]; subst. simpl. rewrite Hit.
  assert (cancel_dotdots (it :: kept) (rest ++ its2)
          = cancel_dotdots ((rev rest ++ [it]) ++ kept) its2) as Hpush.
  { rewrite IH by (try constructor; assumption). rewrite <- app_assoc. reflexivity. }
  destruct kept as [|k kept']; [exact Hpush|].
  inversion Hkept as [|? ? Hk _]; subst. rewrite Hk. exact Hpush.
Qed.

(** Names other than dot-dot are kept. *)
Lemma cancel_dotdots_none its : ∀ kept,
  Forall (λ it, is_dotdot (fst it) = false) its →
  cancel_dotdots kept its = (rev kept ++ its)%list.
Proof.
  induction its as [|it rest IH]; intros kept Hits; simpl.
  - rewrite app_nil_r. reflexivity.
  - inversion Hits as [|? ? Hit Hrest]; subst. rewrite Hit, (IH _ Hrest).
    simpl. rewrite <- app_assoc. reflexivity.
Qed.

Lemma cancel_dotdots_fixed its :
  dotdots_lead false (map fst its) → cancel_dotdots [] its = its.
Proof.
  intros (k & rest & Hnames & Hrest & _).
  apply fmap_app_inv in Hnames as (its1 & its2 & Hdd & Hnorm & ->).
  assert (Forall (λ it, is_dotdot (fst it) = true) its1) as H1.
  { apply Forall_forall. intros it Hin. apply is_dotdot_eq.
    assert (fst it ∈ replicate k dotdot) as Hmem
      by (rewrite Hdd; apply list_elem_of_fmap; eauto).
    apply elem_of_replicate in Hmem as [Heq _]. exact Heq. }
  assert (Forall (λ it, is_dotdot (fst it) = false) its2) as H2.
  { apply Forall_forall. intros it Hin. apply is_dotdot_neq. intros Heq.
    apply Hrest. rewrite Hnorm, <- Heq. apply list_elem_of_fmap. eauto. }
  rewrite (cancel_dotdots_push its1 [] its2 (List.Forall_nil _) H1).
  rewrite (cancel_dotdots_none its2 _ H2), app_nil_r, rev_involutive. reflexivity.
Qed.


Lemma trim_fixed its : trimmed its → trim_last_dotdot its = its.
Proof.
  unfold trimmed. induction its as [|it rest IH]; [reflexivity|].
  destruct rest as [|it' rest'].
  - intros Htr. simpl. destruct (is_dotdot (fst it)) eqn:Hdd; [|reflexivity].
    specialize (Htr it eq_refl Hdd). destruct it as [f b]. simpl in *. subst b. reflexivity.
  - intros Htr.
    change (trim_last_dotdot (it :: it' :: rest')) with (it :: trim_last_dotdot (it' :: rest')).
    rewrite IH; [reflexivity|]. intros it0 Hlast. apply Htr.
    rewrite last_cons, Hlast. reflexivity.
Qed.

(** Normal items are a fixed point of the normalisation. *)
Lemma normal_items_fixed root its :
  dot ∉ map fst its → dotdots_lead root (map fst its) → trimmed its →
  normal_items root its = its.
Proof.
  intros Hdot Hlead Htr. unfold normal_items.
  assert (drop_dots its = its) as ->.
  { unfold drop_dots. apply filter_all, Forall_forall. intros it Hin.
    apply is_dot_neq. intros Heq. apply Hdot. rewrite <- Heq.
    apply list_elem_of_fmap. eauto. }
  assert (dotdots_lead false (map fst its)) as Hlead'.
  { destruct Hlead as (k & rest & Hn & Hr & _). exists k, rest.
    split; [exact Hn|]. split; [exact Hr | discriminate]. }
  rewrite (cancel_dotdots_fixed its Hlead').
  assert (drop_root_dotdots root its = its) as ->.
  { unfold drop_root_dotdots. destruct root; [|reflexivity].
    destruct Hlead as (k & rest & Hn & Hr & Hk). rewrite (Hk eq_refl) in Hn. simpl in Hn.
    apply filter_all, Forall_forall. intros it Hin. apply is_dotdot_neq. intros Heq.
    apply Hr. rewrite <- Hn, <- Heq. apply list_elem_of_fmap. eauto. }
  apply trim_fixed, Htr.
Qed.




Lemma render_nonempty (e : path_elements) :
  names_ok (el_items e) → el_root e = true ∨ el_items e ≠ [] →
  path_empty (render e) = false.
Proof.
  intros Hok Hcase. unfold render. destruct (el_root e); [reflexivity|].
  rewrite append_nil_l. apply render_items_nonempty; [exact Hok|].
  destruct Hcase; [discriminate | assumption].
Qed.



End NormalForm.

Section LexicalResolution.
Implicit Types (p : path) (its kept : list (string * bool)) (it : string * bool)
  (cur : loc).










Lemma decompose_names p : map fst (el_items (decompose p)) = filenames p.
Proof. unfold decompose. simpl. apply mark_items_names. Qed.





End LexicalResolution.

(** * The claims of the specification *)

(** C1, as stated, fails.  A status query can find an entry and fail to
    tell its attributes: it then reports an error together with the type
    [unknown], and [exists] takes a known type other than "not found" for
    an entry that is there.  So [path_exists] answers [true] although the
    underlying query failed. *)
Lemma C1_counterexample :
  std_status (Host := overflow_host) "f" demo_world = (ft_unknown, Some EOVERFLOW)
  ∧ path_exists (H := overflow_host) "f" demo_world = true
  ∧ is_file_path (H := overflow_host) "f" demo_world = false
  ∧ is_dir_path (H := overflow_host) "f" demo_world = false.
Proof. repeat split; vm_compute; reflexivity. Qed.

(** C1, amended.  On every host, [path_exists], [is_file_path] and
    [is_dir_path] return [false] for a path whose status is "not found",
    and return [false] whenever the call they forward to leaves an error in
    its [std::error_code].  When the status query itself reports an error,
    [is_file_path] and [is_dir_path] return [false], and [path_exists]
    returns [false] unless the type that comes with the error is [unknown],
    in which case it returns [true].  They are total functions into
    [bool]: no exception can come out of them, whatever the status query
    does, and their value is read off the type that the status query
    returns. *)
Theorem C1_safe_checks_amended (H : Host) (p : path) (w : world) :
  (fst (std_status p w) = ft_not_found →
     path_exists p w = false ∧ is_file_path p w = false ∧ is_dir_path p w = false)
  ∧ (is_Some (snd (std_status p w)) →
     is_file_path p w = false ∧ is_dir_path p w = false
     ∧ path_exists p w = bool_decide (fst (std_status p w) = ft_unknown))
  ∧ (is_Some (snd (std_exists p w)) → path_exists p w = false)
  ∧ (is_Some (snd (std_is_regular_file p w)) → is_file_path p w = false)
  ∧ (is_Some (snd (std_is_directory p w)) → is_dir_path p w = false)
  ∧ path_exists p w = exists_status (fst (std_status p w))
  ∧ is_file_path p w = bool_decide (fst (std_status p w) = ft_regular)
  ∧ is_dir_path p w = bool_decide (fst (std_status p w) = ft_directory).
Proof.
  split; [apply checks_not_found|].
  split.
  { intros [e He]. pose proof (std_status_error p w e He) as Hin.
    unfold path_exists, is_file_path, is_dir_path, std_exists, std_is_regular_file,
      std_is_directory.
    destruct (std_status p w) as [s ec]. simpl in *.
    rewrite !elem_of_cons, elem_of_nil in Hin.
    destruct Hin as [->|[->|[->|[]]]]; auto. }
  split; [apply std_exists_error|].
  split; [apply std_is_regular_file_error|].
  split; [apply std_is_directory_error|].
  unfold path_exists, is_file_path, is_dir_path, std_exists, std_is_regular_file,
    std_is_directory, exists_status.
  destruct (std_status p w) as [s ec]. simpl.
  destruct (status_known s); auto.
Qed.

(** On the POSIX reference host for a path that is not there, on a host
    that denies every query, and on a host that cannot tell the attributes
    of a file. *)
Lemma C1_safe_checks_amended_witness :
  (path_exists (H := posix_host) "nope" demo_world = false
   ∧ is_file_path (H := posix_host) "nope" demo_world = false
   ∧ is_dir_path (H := posix_host) "nope" demo_world = false)
  ∧ path_exists (H := unreachable_host EACCES) "f" demo_world = false
  ∧ is_file_path (H := unreachable_host EACCES) "f" demo_world = false
  ∧ is_dir_path (H := unreachable_host EACCES) "d" demo_world = false
  ∧ (is_file_path (H := overflow_host) "f" demo_world = false
     ∧ is_dir_path (H := overflow_host) "f" demo_world = false
     ∧ path_exists (H := overflow_host) "f" demo_world = true).
Proof.
  destruct (C1_safe_checks_amended posix_host "nope" demo_world) as (Hmissing & _).
  destruct (C1_safe_checks_amended (unreachable_host EACCES) "f" demo_world)
    as (_ & _ & Hexists & Hfile & _).
  destruct (C1_safe_checks_amended (unreachable_host EACCES) "d" demo_world)
    as (_ & _ & _ & _ & Hdir & _).
  destruct (C1_safe_checks_amended overflow_host "f" demo_world) as (_ & Hstatus & _).
  split; [apply Hmissing; vm_compute; reflexivity|].
  split; [apply Hexists; exists EACCES; reflexivity|].
  split; [apply Hfile; exists EACCES; reflexivity|].
  split; [apply Hdir; exists EACCES; reflexivity|].
  apply Hstatus. exists EOVERFLOW. reflexivity.
Defined.

(** C2.  On a host whose text-mode streams translate, [write_text] then
    [read_text] does not give the text back: the one byte Ctrl-Z is
    written, and nothing is read; [write_bytes] then [read_bytes], whose
    streams are binary, gives the byte back.  ([posix_write_read] is the
    round trip on a host whose text-mode streams are transparent, for every
    text; [crlf_write_read] is the round trip on the translating host, for
    the texts that hold no Ctrl-Z; [model_write_read_bytes] is the round
    trip of [write_bytes] and [read_bytes], on either host.) *)
Theorem C2_text_mode_round_trip :
  (∃ w1,
     write_text (H := crlf_host) "n" (String CtrlZ EmptyString) ∅ = (Ok (), w1)
     ∧ w1 = {[ ["n"] := File (String CtrlZ EmptyString) ]}
     ∧ read_text (H := crlf_host) "n" w1 = Ok EmptyString)
  ∧ (∃ w1,
       write_bytes (H := crlf_host) "n" (String CtrlZ EmptyString) ∅ = (Ok (), w1)
       ∧ read_bytes (H := crlf_host) "n" w1 = Ok (String CtrlZ EmptyString)).
Proof.
  split.
  - eexists. split; [vm_compute; reflexivity|]. split; vm_compute; reflexivity.
  - eexists. split; [vm_compute; reflexivity|]. vm_compute. reflexivity.
Qed.

(** C3.  On every host: when [p] is a directory, [ensure_dir p] returns
    and leaves the world as it found it, so that a second call does as the
    first; when [p] exists and is not a directory, it throws the
    [std::runtime_error] "not a directory"; when [p] does not exist and
    [create_directories] reports an error, it throws [std::system_error]
    with that error.  On the reference host, after any call that returned,
    [p] is a directory, and a second call returns and changes nothing. *)
Theorem C3_ensure_dir :
  (∀ (H : Host) (p : path) (w : world),
     fst (std_status p w) = ft_directory →
     ensure_dir p w = (Ok (), w)
     ∧ ensure_dir p (snd (ensure_dir p w)) = ensure_dir p w)
  ∧ (∀ (H : Host) (p : path) (w : world),
       exists_status (fst (std_status p w)) = true →
       fst (std_status p w) ≠ ft_directory →
       ensure_dir p w
       = (Throw (runtime_error ("rix::fs::ensure_dir: not a directory: " +:+ p)), w))
  ∧ (∀ (H : Host) (p : path) (w w1 : world) (e : errc),
       fst (std_exists p w) = false →
       std_create_directories p w = (false, Some e, w1) →
       ensure_dir p w
       = (Throw (system_error e ("rix::fs::ensure_dir: create failed: " +:+ p)), w1))
  ∧ (∀ (tm : text_mode) (p : path) (w w1 : gmap loc node),
       ensure_dir (H := model_host tm) p w = (Ok (), w1) →
       is_dir_path (H := model_host tm) p w1 = true
       ∧ ensure_dir (H := model_host tm) p w1 = (Ok (), w1)).
Proof.
  split; [|split; [|split]].
  - intros H p w Hdir. rewrite (ensure_dir_directory p w Hdir). simpl.
    rewrite (ensure_dir_directory p w Hdir). auto.
  - intros H p w. apply ensure_dir_not_directory.
  - intros H p w w1 e Hex Hmk. rewrite (ensure_dir_absent p w Hex), Hmk. reflexivity.
  - intros tm p w w1 Hok. split; [|exact (model_ensure_dir_twice tm p w w1 Hok)].
    pose proof (model_ensure_dir_post tm p w w1 Hok) as Hdir.
    unfold is_dir_path, std_is_directory. simpl.
    destruct (model_status p w1) as [s ec]; simpl in *. subst s. reflexivity.
Qed.

(** A directory, a file, a path that runs through a file, and a
    directory that an earlier call made. *)
Lemma C3_ensure_dir_witness :
  ensure_dir (H := posix_host) "d" demo_world = (Ok (), demo_world)
  ∧ ensure_dir (H := posix_host) "f" demo_world
    = (Throw (runtime_error "rix::fs::ensure_dir: not a directory: f"), demo_world)
  ∧ ensure_dir (H := posix_host) "f/sub" demo_world
    = (Throw (system_error ENOTDIR "rix::fs::ensure_dir: create failed: f/sub"), demo_world)
  ∧ ensure_dir (H := posix_host) "x/y" (<[ ["x"; "y"] := Dir ]> (<[ ["x"] := Dir ]> demo_world))
    = (Ok (), <[ ["x"; "y"] := Dir ]> (<[ ["x"] := Dir ]> demo_world)).
Proof.
  destruct C3_ensure_dir as (Hdir & Hnot & Hfail & Htwice).
  split; [|split; [|split]].
  - apply (Hdir posix_host "d" demo_world). vm_compute. reflexivity.
  - apply (Hnot posix_host "f" demo_world); vm_compute; [reflexivity | discriminate].
  - apply (Hfail posix_host "f/sub" demo_world demo_world ENOTDIR); vm_compute; reflexivity.
  - apply (Htwice Transparent "x/y" demo_world). vm_compute. reflexivity.
Defined.

(** C4, as stated, fails: for a path that does not exist the type query
    itself reports "no such file", and [file_size_bytes] throws
    [std::system_error], not the [std::runtime_error] that stands for
    "not a regular file". *)
Lemma C4_counterexample :
  path_exists (H := posix_host) "nope" demo_world = false
  ∧ is_file_path (H := posix_host) "nope" demo_world = false
  ∧ file_size_bytes (H := posix_host) "nope" demo_world
    = Throw (system_error ENOENT "rix::fs::file_size_bytes: stat failed: nope")
  ∧ outcome (file_size_bytes (H := posix_host) "nope" demo_world) ≠ inl LogicError.
Proof.
  split; [vm_compute; reflexivity|]. split; [vm_compute; reflexivity|].
  split; [vm_compute; reflexivity|]. vm_compute. discriminate.
Qed.

(** C4, amended.  On every host, [file_size_bytes p] throws
    [std::system_error] when the type query reports an error; throws the
    [std::runtime_error] "not a regular file" when the type query reports
    no error and [p] is not a regular file; throws [std::system_error]
    when [p] is a regular file and the size query reports an error; and
    returns what the size query returns otherwise.  On the reference
    host, for a plain path, that is: a system error for a path that does
    not exist, the runtime error for a directory, and for a regular file
    its number of bytes, an unsigned 64-bit value. *)
Theorem C4_file_size_bytes_amended :
  (∀ (H : Host) (p : path) (w : world) (e : errc),
     snd (std_status p w) = Some e →
     file_size_bytes p w
     = Throw (system_error e ("rix::fs::file_size_bytes: stat failed: " +:+ p)))
  ∧ (∀ (H : Host) (p : path) (w : world),
       snd (std_status p w) = None → fst (std_status p w) ≠ ft_regular →
       file_size_bytes p w
       = Throw (runtime_error ("rix::fs::file_size_bytes: not a regular file: " +:+ p)))
  ∧ (∀ (H : Host) (p : path) (w : world) (sz : Z) (e : errc),
       std_status p w = (ft_regular, None) → std_file_size p w = (sz, Some e) →
       file_size_bytes p w
       = Throw (system_error e ("rix::fs::file_size_bytes: file_size failed: " +:+ p)))
  ∧ (∀ (H : Host) (p : path) (w : world) (sz : Z),
       std_status p w = (ft_regular, None) → std_file_size p w = (sz, None) →
       file_size_bytes p w = Ok sz)
  ∧ (∀ (tm : text_mode) (p : path) (w : gmap loc node),
       plain p →
       match fst (model_status p w) with
       | ft_not_found =>
           ∃ e, outcome (file_size_bytes (H := model_host tm) p w) = inl (IOError e)
       | ft_directory =>
           outcome (file_size_bytes (H := model_host tm) p w) = inl LogicError
       | _ =>
           ∃ c, node_at w (locate p) = Some (File c)
                ∧ file_size_bytes (H := model_host tm) p w
                  = Ok (to_uintmax (Z.of_nat (String.length c)))
                ∧ 0 ≤ to_uintmax (Z.of_nat (String.length c)) < uintmax_modulus
       end).
Proof.
  split; [|split; [|split; [|split]]].
  - intros H p w e. apply file_size_bytes_stat_failed.
  - intros H p w. apply file_size_bytes_not_regular.
  - intros H p w sz e Hst Hsz. rewrite (file_size_bytes_regular p w Hst), Hsz. reflexivity.
  - intros H p w sz Hst Hsz. rewrite (file_size_bytes_regular p w Hst), Hsz. reflexivity.
  - intros tm p w _. unfold file_size_bytes, std_is_regular_file. simpl.
    unfold model_status, model_file_size, resolve.
    destruct (path_empty p); [eexists; reflexivity|].
    destruct (node_at w (locate p)) as [[c|]|]; simpl;
      [|reflexivity | eexists; reflexivity].
    exists c. split; [reflexivity|]. split; [reflexivity | apply to_uintmax_range].
Qed.

(** A path that is not there, a directory, a file whose size query fails,
    a file of five bytes, and a plain path through the file [/f]. *)
Lemma C4_file_size_bytes_amended_witness :
  file_size_bytes (H := posix_host) "nope" demo_world
  = Throw (system_error ENOENT "rix::fs::file_size_bytes: stat failed: nope")
  ∧ file_size_bytes (H := posix_host) "d" demo_world
    = Throw (runtime_error "rix::fs::file_size_bytes: not a regular file: d")
  ∧ file_size_bytes (H := size_fault_host EIO) "f" demo_world
    = Throw (system_error EIO "rix::fs::file_size_bytes: file_size failed: f")
  ∧ file_size_bytes (H := posix_host) "f" demo_world = Ok 5
  ∧ ∃ e, outcome (file_size_bytes (H := posix_host) "f/sub" demo_world) = inl (IOError e).
Proof.
  destruct C4_file_size_bytes_amended as (Hstat & Hnot & Hsize & Hok & Hplain).
  split; [|split; [|split; [|split]]].
  - apply (Hstat posix_host "nope" demo_world ENOENT). vm_compute. reflexivity.
  - apply (Hnot posix_host "d" demo_world); vm_compute; [reflexivity | discriminate].
  - apply (Hsize (size_fault_host EIO) "f" demo_world uintmax_minus_one EIO);
      vm_compute; reflexivity.
  - apply (Hok posix_host "f" demo_world 5); vm_compute; reflexivity.
  - pose proof (Hplain Transparent "f/sub" demo_world ltac:(by_evaluation)) as Hthrows.
    assert (Hmissing : fst (model_status "f/sub" demo_world) = ft_not_found)
      by (vm_compute; reflexivity).
    rewrite Hmissing in Hthrows. exact Hthrows.
Defined.

(** C5.  On every host [copy_file] ends in one of three ways: with
    [std::system_error] when the host's [copy_file] reports an error, with
    the [std::runtime_error] "not copied" when it reports none and returns
    [false], and with success otherwise.  But a destination that exists,
    with [overwrite] false, is not a case of the second: the host reports
    "file exists" in its error code and the wrapper throws
    [std::system_error]; and on the reference host no call of [copy_file]
    ends in "not copied" at all. *)
Theorem C5_copy_onto_existing :
  (∀ (H : Host) (from to : path) (overwrite : bool) (w : world),
     outcome (fst (copy_file from to overwrite w))
     = match std_copy_file from to (if overwrite then overwrite_existing else copy_none) w with
       | (_, Some e, _) => inl (IOError e)
       | (false, None, _) => inl LogicError
       | (true, None, _) => inr ()
       end)
  ∧ copy_file (H := posix_host) "f" "d/g" false demo_world
    = (Throw (system_error EEXIST "rix::fs::copy_file: failed: f -> d/g"), demo_world)
  ∧ ∀ (tm : text_mode) (from to : path) (overwrite : bool) (w : gmap loc node),
      outcome (fst (copy_file (H := model_host tm) from to overwrite w)) ≠ inl LogicError.
Proof.
  split; [|split].
  - intros H from to overwrite w. unfold copy_file.
    destruct (std_copy_file from to (if overwrite then overwrite_existing else copy_none) w)
      as [[[] [e|]] w1]; reflexivity.
  - vm_compute. reflexivity.
  - apply model_copy_file_never_declined.
Qed.




(** C7.  On a host whose text-mode streams translate, the size of the file
    after [write_text] is not the length of the text: a single line feed
    makes a file of two bytes, where [write_bytes] makes one of one byte.
    ([posix_write_size] is the size invariant on a host whose text-mode
    streams are transparent.) *)
Theorem C7_text_mode_size :
  (∃ w1,
     write_text (H := crlf_host) "n" (String LF EmptyString) ∅ = (Ok (), w1)
     ∧ file_size_bytes (H := crlf_host) "n" w1 = Ok 2)
  ∧ (∃ w1,
       write_bytes (H := crlf_host) "n" (String LF EmptyString) ∅ = (Ok (), w1)
       ∧ file_size_bytes (H := crlf_host) "n" w1 = Ok 1).
Proof.
  split; eexists; (split; [vm_compute; reflexivity|]); vm_compute; reflexivity.
Qed.




(** C9.  On every host, [remove_file] and [remove_dir] leave the same
    world behind and end the same way: both return the same boolean, or
    both throw [std::system_error] with the same error code, the text of
    the message being the only difference.  On the reference host, for a
    plain path, [remove_file] thus removes an empty directory and
    [remove_dir] a regular file. *)
Theorem C9_remove_file_is_remove_dir :
  (∀ (H : Host) (p : path) (w : world),
     snd (remove_file p w) = snd (remove_dir p w)
     ∧ outcome (fst (remove_file p w)) = outcome (fst (remove_dir p w))
     ∧ (∀ e what, fst (remove_file p w) = Throw (system_error e what) →
          what = "rix::fs::remove_file: failed: " +:+ p
          ∧ fst (remove_dir p w)
            = Throw (system_error e ("rix::fs::remove_dir: failed: " +:+ p))))
  ∧ (∀ (tm : text_mode) (p : path) (w : gmap loc node),
       plain p → path_empty p = false →
       (w !! locate p = Some Dir ∧ below w (locate p) = ∅ →
          remove_file (H := model_host tm) p w = (Ok true, delete (locate p) w))
       ∧ (∀ c, w !! locate p = Some (File c) →
          remove_dir (H := model_host tm) p w = (Ok true, delete (locate p) w))).
Proof.
  split.
  - intros H p w. destruct (remove_file_remove_dir p w) as (Hw & Hout & _).
    split; [exact Hw|]. split; [exact Hout|]. apply remove_file_message.
  - intros tm p w Hplain Hp.
    apply (model_remove_swapped tm p w Hp (plain_nonroot p Hplain Hp)).
Qed.

(** An empty directory under [remove_file], a file under [remove_dir], and
    a directory that is not empty under either. *)
Lemma C9_remove_file_is_remove_dir_witness :
  remove_file (H := posix_host) "e" (<[ ["e"] := Dir ]> demo_world)
    = (Ok true, delete ["e"] (<[ ["e"] := Dir ]> demo_world))
  ∧ remove_dir (H := posix_host) "f" demo_world = (Ok true, delete ["f"] demo_world)
  ∧ fst (remove_dir (H := posix_host) "d" demo_world)
    = Throw (system_error ENOTEMPTY "rix::fs::remove_dir: failed: d").
Proof.
  destruct C9_remove_file_is_remove_dir as [Hany Hmodel].
  split; [|split].
  - apply (Hmodel Transparent "e" (<[ ["e"] := Dir ]> demo_world)).
    + apply (bool_decide_unpack _). vm_compute. exact I.
    + reflexivity.
    + split; vm_compute; reflexivity.
  - apply (Hmodel Transparent "f" demo_world) with (c := "hello").
    + apply (bool_decide_unpack _). vm_compute. exact I.
    + reflexivity.
    + vm_compute. reflexivity.
  - destruct (Hany posix_host "d" demo_world) as (_ & _ & Hmsg).
    apply (Hmsg ENOTEMPTY "rix::fs::remove_file: failed: d").
    vm_compute. reflexivity.
Defined.

(** C10.  [ensure_trailing_separator] is idempotent; it returns the empty
    path unchanged, and for every other path the generic string of its
    result ends with ['/']. *)
Theorem C10_ensure_trailing_separator (p : path) :
  ensure_trailing_separator (ensure_trailing_separator p) = ensure_trailing_separator p
  ∧ (if path_empty p then ensure_trailing_separator p = p
     else back (generic_string (ensure_trailing_separator p)) = Some slash).
Proof.
  split; [apply ensure_trailing_separator_idempotent|].
  destruct (path_empty p) eqn:Hp.
  - unfold ensure_trailing_separator. rewrite Hp. reflexivity.
  - destruct (ensure_trailing_separator_nonempty p Hp) as (_ & Hgen & Hback).
    rewrite Hgen. exact Hback.
Qed.

(** * Further properties of the library

    What the functions do beyond the claims of the specification: first
    the lexical helpers of [path.hpp], then the file and directory
    functions on the reference host, X1 to X30. *)

(** ** Lexical helpers *)

Section Cuts.
Context (d : ascii → bool).
Implicit Types (s t : string) (c : ascii).

Lemma has_char_app s t : has_char d (s +:+ t) = has_char d s || has_char d t.
Proof.
  induction s as [|c s IH]; [reflexivity|].
  rewrite append_cons. simpl. rewrite IH, orb_assoc. reflexivity.
Qed.

Lemma upto_after s : upto_last d s +:+ after_last d s = s.
Proof.
  induction s as [|c s IH]; [reflexivity|]. simpl.
  destruct (has_char d s); [rewrite append_cons, IH; reflexivity|].
  destruct (d c); reflexivity.
Qed.

Lemma after_last_none s : has_char d s = false → after_last d s = s.
Proof.
  destruct s as [|c s]; [reflexivity|]. simpl. intros Hc.
  apply orb_false_iff in Hc as [Hc Hs]. rewrite Hs, Hc. reflexivity.
Qed.

Lemma upto_last_none s : has_char d s = false → upto_last d s = EmptyString.
Proof.
  destruct s as [|c s]; [reflexivity|]. simpl. intros Hc.
  apply orb_false_iff in Hc as [Hc Hs]. rewrite Hs, Hc. reflexivity.
Qed.

Lemma before_last_none s : has_char d s = false → before_last d s = s.
Proof.
  destruct s as [|c s]; [reflexivity|]. simpl. intros Hc.
  apply orb_false_iff in Hc as [Hc Hs]. rewrite Hs, Hc. reflexivity.
Qed.

Lemma after_last_clean s : has_char d (after_last d s) = false.
Proof.
  induction s as [|c s IH]; [reflexivity|]. simpl.
  destruct (has_char d s) eqn:Hs; [exact IH|].
  destruct (d c) eqn:Hc; [exact Hs|]. simpl. rewrite Hc, Hs. reflexivity.
Qed.

Lemma after_last_app s t :
  after_last d (s +:+ t) =
    if has_char d t then after_last d t else after_last d s +:+ t.
Proof.
  induction s as [|c s IH].
  - rewrite append_nil_l. destruct (has_char d t) eqn:Ht; [reflexivity|].
    apply after_last_none, Ht.
  - rewrite append_cons. simpl. rewrite has_char_app, IH.
    destruct (has_char d t) eqn:Ht.
    + rewrite orb_true_r. reflexivity.
    + rewrite orb_false_r. destruct (has_char d s); [reflexivity|].
      destruct (d c); reflexivity.
Qed.

Lemma upto_last_app s t :
  upto_last d (s +:+ t) =
    if has_char d t then s +:+ upto_last d t else upto_last d s.
Proof.
  induction s as [|c s IH].
  - rewrite append_nil_l. destruct (has_char d t) eqn:Ht; [reflexivity|].
    apply upto_last_none, Ht.
  - rewrite append_cons. simpl. rewrite has_char_app, IH.
    destruct (has_char d t) eqn:Ht.
    + rewrite orb_true_r. reflexivity.
    + rewrite orb_false_r. reflexivity.
Qed.

Lemma before_last_app s t :
  before_last d (s +:+ t) =
    if has_char d t then s +:+ before_last d t
    else if has_char d s then before_last d s else s +:+ t.
Proof.
  induction s as [|c s IH].
  - rewrite append_nil_l. destruct (has_char d t) eqn:Ht; [reflexivity|].
    apply before_last_none, Ht.
  - rewrite append_cons. simpl. rewrite has_char_app, IH.
    destruct (has_char d t) eqn:Ht.
    + rewrite orb_true_r. reflexivity.
    + rewrite orb_false_r. destruct (has_char d s); [rewrite orb_true_r; reflexivity|].
      rewrite orb_false_r. destruct (d c); reflexivity.
Qed.

(** A string that holds the character splits around its last
    occurrence. *)
Lemma cut_at_last s :
  has_char d s = true →
  ∃ c, d c = true
       ∧ s = before_last d s +:+ String c (after_last d s)
       ∧ upto_last d s = push_back (before_last d s) c.
Proof.
  induction s as [|a s IH]; [discriminate|]. simpl.
  destruct (has_char d s) eqn:Hs.
  - intros _. destruct (IH eq_refl) as (c & Hc & Heq & Hup).
    exists c. split; [exact Hc|]. rewrite !append_cons, <- Heq, Hup. split; reflexivity.
  - rewrite orb_false_r. intros Ha. rewrite Ha. exists a. split; [exact Ha|].
    split; reflexivity.
Qed.

End Cuts.

Section Components.
Implicit Types (p q : path) (s t f e : string) (c : ascii).

Lemma has_char_sep s : has_char is_sep s = has_sep s.
Proof. induction s as [|c s IH]; [reflexivity|]. simpl. rewrite IH. reflexivity. Qed.

Lemma is_period_eq c : is_period c = true ↔ c = period.
Proof. apply Ascii.eqb_eq. Qed.

Lemma filename_no_sep p : has_sep (path_filename p) = false.
Proof. rewrite <- has_char_sep. apply after_last_clean. Qed.

Lemma append_nonempty' s t : path_empty t = false → path_empty (s +:+ t) = false.
Proof. destruct s; [rewrite append_nil_l; tauto | reflexivity]. Qed.

Lemma stem_extension_of f : stem_of f +:+ extension_of f = f.
Proof.
  unfold stem_of, extension_of.
  destruct (is_dot f || is_dotdot f); [apply append_nil_r|].
  destruct f as [|c f]; [reflexivity|].
  destruct (has_char is_period f) eqn:Hf; [|apply append_nil_r].
  destruct (cut_at_last is_period f Hf) as (a & Ha & Heq & _).
  apply is_period_eq in Ha. subst a. rewrite append_cons, <- Heq. reflexivity.
Qed.

Lemma extension_of_shape f :
  extension_of f = EmptyString
  ∨ ∃ e, extension_of f = String period e ∧ has_char is_period e = false.
Proof.
  unfold extension_of.
  destruct (is_dot f || is_dotdot f); [left; reflexivity|].
  destruct f as [|c f]; [left; reflexivity|].
  destruct (has_char is_period f); [|left; reflexivity].
  right. eexists. split; [reflexivity | apply after_last_clean].
Qed.

(** A path has a filename when it is not empty and does not end with a
    separator. *)
Lemma has_filename_back p :
  has_filename p = negb (path_empty p) && negb (ends_with_sep p).
Proof.
  unfold has_filename, path_filename, nonempty, ends_with_sep.
  induction p as [|c p IH]; [reflexivity|].
  simpl after_last. simpl path_empty. simpl negb at 2. rewrite andb_true_l.
  destruct (has_char is_sep p) eqn:Hp.
  - rewrite IH. destruct p as [|c' p]; [discriminate|]. reflexivity.
  - destruct p as [|c' p].
    + simpl back. destruct (is_sep c); reflexivity.
    + assert (Hlast : match back (String c' p) with
                      | Some a => is_sep a | None => false end = false).
      { destruct (back (String c' p)) as [a|] eqn:Hb; [|reflexivity].
        apply (name_back (String c' p)); [|exact Hb].
        rewrite <- has_char_sep. exact Hp. }
      change (back (String c (String c' p))) with (back (String c' p)).
      rewrite Hlast. destruct (is_sep c); reflexivity.
Qed.

Lemma path_filename_app p t :
  path_filename (p +:+ t) =
    if has_sep t then path_filename t else path_filename p +:+ t.
Proof. unfold path_filename. rewrite after_last_app, has_char_sep. reflexivity. Qed.

Lemma has_filename_app p t :
  path_empty t = false → has_filename (p +:+ t) = has_filename t.
Proof.
  intros Ht. rewrite !has_filename_back. rewrite (append_nonempty' p t Ht).
  rewrite Ht. unfold ends_with_sep. rewrite back_app.
  destruct (back t) eqn:Hb; [reflexivity|].
  apply back_none in Hb. subst t. discriminate.
Qed.

Lemma has_root_app p t :
  path_empty p = false → has_root_directory (p +:+ t) = has_root_directory p.
Proof. destruct p; [discriminate | reflexivity]. Qed.

Lemma path_append_absolute p q :
  has_root_directory q = true → path_append p q = q.
Proof. unfold path_append. intros ->. reflexivity. Qed.

Lemma path_append_empty_l q : path_append EmptyString q = q.
Proof. unfold path_append. destruct (has_root_directory q); reflexivity. Qed.

Lemma path_append_root p q :
  has_root_directory q = false →
  has_root_directory (path_append p q) = has_root_directory p.
Proof.
  unfold path_append. intros Hq. rewrite Hq.
  destruct p as [|c p]; [exact Hq|].
  destruct (has_filename (String c p)); reflexivity.
Qed.

Lemma path_append_has_filename p q :
  has_root_directory q = false →
  has_filename (path_append p q) = has_filename q.
Proof.
  unfold path_append. intros Hq. rewrite Hq.
  destruct (path_empty q) eqn:Hemp.
  - destruct q; [|discriminate]. destruct (has_filename p) eqn:Hp.
    + rewrite has_filename_app by reflexivity. reflexivity.
    + rewrite append_nil_r. exact Hp.
  - destruct (has_filename p).
    + rewrite has_filename_app by reflexivity.
      change (String slash q) with (String slash EmptyString +:+ q).
      apply has_filename_app, Hemp.
    + apply has_filename_app, Hemp.
Qed.

Lemma path_append_assoc p q r :
  path_append p (path_append q r) = path_append (path_append p q) r.
Proof.
  destruct (has_root_directory r) eqn:Hr.
  { rewrite !(path_append_absolute _ r Hr). reflexivity. }
  destruct (has_root_directory q) eqn:Hq.
  { rewrite (path_append_absolute p q Hq). apply path_append_absolute.
    rewrite path_append_root by exact Hr. exact Hq. }
  pose proof (path_append_root q r Hr) as Hqr. rewrite Hq in Hqr.
  pose proof (path_append_has_filename p q Hq) as Hpq.
  unfold path_append at 1 3. rewrite Hqr, Hr, Hpq.
  unfold path_append. rewrite Hq, Hr.
  destruct (has_filename p), (has_filename q);
    rewrite ?append_assoc, ?append_cons, ?append_nil_l; reflexivity.
Qed.

Lemma fold_append_assoc (segs : list path) : ∀ p base,
  fold_left path_append segs (path_append p base) =
  path_append p (fold_left path_append segs base).
Proof.
  induction segs as [|x segs IH]; intros p base; [reflexivity|].
  simpl. rewrite <- path_append_assoc. apply IH.
Qed.

(** *** Filenames *)

Lemma fields_has_sep s :
  has_sep s = true → ∃ f g gs, fields s = f :: g :: gs.
Proof.
  induction s as [|c s IH]; [discriminate|]. simpl.
  destruct (is_sep c) eqn:Hc.
  - intros _. destruct (fields s) as [|g gs] eqn:Hs; [destruct (fields_not_nil s Hs)|].
    eauto.
  - simpl. intros Hs. destruct (IH Hs) as (f & g & gs & ->). eauto.
Qed.

Lemma fields_last p : last (fields p) = Some (path_filename p).
Proof.
  unfold path_filename. induction p as [|c p IH]; [reflexivity|].
  simpl. rewrite has_char_sep.
  destruct (has_sep p) eqn:Hp.
  - destruct (fields_has_sep p Hp) as (f & g & gs & Hf). rewrite Hf in *.
    destruct (is_sep c); exact IH.
  - rewrite (fields_name p Hp). destruct (is_sep c); reflexivity.
Qed.

Lemma filename_in_filenames p :
  has_filename p = true → path_filename p ∈ filenames p.
Proof.
  intros Hf. unfold filenames. apply list_elem_of_filter. split; [exact Hf|].
  apply last_Some_elem_of, fields_last.
Qed.

Lemma no_filenames_no_filename p : filenames p = [] → path_filename p = EmptyString.
Proof.
  intros Hnil. destruct (has_filename p) eqn:Hf.
  - apply filename_in_filenames in Hf. rewrite Hnil in Hf. inversion Hf.
  - unfold has_filename, nonempty in Hf. destruct (path_filename p); [reflexivity | discriminate].
Qed.

Lemma strip_seps_push s : strip_seps (push_back s slash) = strip_seps s.
Proof.
  unfold push_back. induction s as [|c s IH]; [reflexivity|].
  rewrite append_cons. simpl. rewrite IH. reflexivity.
Qed.

Lemma ends_with_sep_cons c c' s :
  ends_with_sep (String c (String c' s)) = ends_with_sep (String c' s).
Proof. reflexivity. Qed.

Lemma strip_seps_fixed s : ends_with_sep s = false → strip_seps s = s.
Proof.
  induction s as [|c s IH]; [reflexivity|].
  destruct s as [|c' s].
  - unfold ends_with_sep. simpl. intros ->. reflexivity.
  - rewrite ends_with_sep_cons. intros Hs. specialize (IH Hs).
    change (strip_seps (String c (String c' s)))
      with (match strip_seps (String c' s) with
            | EmptyString => if is_sep c then EmptyString else String c EmptyString
            | t => String c t
            end).
    rewrite IH. reflexivity.
Qed.

Lemma no_double_sep_before s t :
  no_double_sep (s +:+ String slash t) = true → ends_with_sep s = false.
Proof.
  induction s as [|c s IH]; [reflexivity|].
  rewrite append_cons. destruct s as [|c' s].
  - rewrite append_nil_l. simpl. unfold ends_with_sep. simpl.
    destruct (is_sep c); [discriminate | reflexivity].
  - rewrite ends_with_sep_cons. rewrite append_cons in *.
    simpl no_double_sep. intros Hn. apply andb_true_iff in Hn as [_ Hn]. exact (IH Hn).
Qed.

Lemma upto_last_sep_name f :
  has_sep f = false → upto_last is_sep (String slash f) = String slash EmptyString.
Proof. intros Hf. simpl. rewrite has_char_sep, Hf. reflexivity. Qed.

Lemma after_upto (d : ascii → bool) s : after_last d (upto_last d s) = EmptyString.
Proof.
  induction s as [|c s IH]; [reflexivity|]. simpl.
  destruct (has_char d s) eqn:Hs.
  - simpl. destruct (has_char d (upto_last d s)) eqn:Hu; [exact IH|].
    destruct (cut_at_last d s Hs) as (a & Ha & _ & Hup).
    rewrite Hup in Hu. unfold push_back in Hu. rewrite has_char_app in Hu.
    simpl in Hu. rewrite Ha, orb_true_r in Hu. discriminate.
  - destruct (d c) eqn:Hc; [|reflexivity]. simpl. rewrite Hc. reflexivity.
Qed.

(** The parent and the filename of a pathname without doubled separators
    put it together again. *)
Lemma parent_filename_join p :
  no_double_sep p = true →
  path_append (parent_path p) (path_filename p) = p.
Proof.
  intros Hnd. unfold parent_path.
  destruct (bool_decide (filenames p = [])) eqn:Hnames.
  { apply bool_decide_eq_true in Hnames.
    pose proof (no_filenames_no_filename p Hnames) as Hfn. rewrite Hfn.
    unfold path_append. simpl has_root_directory. cbv iota.
    assert (Hf : has_filename p = false) by (unfold has_filename; rewrite Hfn; reflexivity).
    rewrite Hf. apply append_nil_r. }
  clear Hnames.
  assert (Hroot : has_root_directory (path_filename p) = false).
  { pose proof (filename_no_sep p) as Hs.
    destruct (path_filename p) as [|c f]; [reflexivity|].
    simpl in Hs. apply orb_false_iff in Hs as [Hc _]. exact Hc. }
  destruct (has_sep p) eqn:Hsep.
  - rewrite <- has_char_sep in Hsep.
    destruct (cut_at_last is_sep p Hsep) as (c & Hc & Heq & Hup).
    apply is_sep_slash in Hc. subst c.
    rewrite Heq in Hnd. apply no_double_sep_before in Hnd.
    rewrite Hup, strip_seps_push, (strip_seps_fixed _ Hnd).
    destruct (before_last is_sep p) as [|b bs] eqn:Hb.
    + assert (Hr : has_root_directory p = true) by (rewrite Heq; reflexivity).
      rewrite Hr. simpl. unfold path_append. rewrite Hroot.
      change (has_filename (String slash EmptyString)) with false. cbv iota.
      rewrite Heq at 2. reflexivity.
    + simpl path_empty. rewrite andb_false_l.
      unfold path_append. rewrite Hroot.
      rewrite has_filename_back, Hnd. simpl.
      symmetry. exact Heq.
  - rewrite <- has_char_sep in Hsep.
    rewrite (upto_last_none is_sep p Hsep). simpl strip_seps. simpl path_empty.
    assert (Hr : has_root_directory p = false).
    { destruct p as [|c p]; [reflexivity|]. simpl in Hsep.
      apply orb_false_iff in Hsep as [Hc _]. exact Hc. }
    rewrite Hr. simpl. rewrite path_append_empty_l.
    apply after_last_none, Hsep.
Qed.

Lemma name_no_root f : is_name f → has_root_directory f = false.
Proof.
  intros Hf. destruct (name_first_char f Hf) as (c & f' & -> & Hc). exact Hc.
Qed.

Lemma filename_join_name p f : is_name f → path_filename (path_append p f) = f.
Proof.
  intros Hf. pose proof Hf as [Hne Hsep].
  unfold path_append. rewrite (name_no_root f Hf).
  destruct (has_filename p) eqn:Hp.
  - rewrite path_filename_app. simpl has_sep. unfold path_filename. simpl.
    rewrite has_char_sep, Hsep. reflexivity.
  - rewrite path_filename_app, Hsep.
    unfold has_filename, nonempty in Hp.
    destruct (path_filename p); [reflexivity | discriminate].
Qed.

Lemma parent_join_name p f :
  is_name f → ends_with_sep p = false → parent_path (path_append p f) = p.
Proof.
  intros Hf Hp. pose proof Hf as [Hne Hsep].
  assert (Hin : path_filename (path_append p f) ∈ filenames (path_append p f)).
  { apply filename_in_filenames. unfold has_filename.
    rewrite (filename_join_name p f Hf). exact Hne. }
  unfold parent_path. rewrite bool_decide_eq_false_2
    by (intros Hnil; rewrite Hnil in Hin; inversion Hin).
  unfold path_append in *. rewrite (name_no_root f Hf) in *.
  rewrite has_filename_back, Hp, andb_true_r in *.
  destruct p as [|c p].
  - simpl negb. cbv iota. rewrite append_nil_l.
    rewrite <- has_char_sep in Hsep. rewrite (upto_last_none _ _ Hsep).
    simpl. rewrite (name_no_root f Hf). reflexivity.
  - simpl negb. cbv iota. rewrite upto_last_app. simpl has_char.
    cbv iota. rewrite (upto_last_sep_name f Hsep).
    change (String c p +:+ String slash EmptyString) with (push_back (String c p) slash).
    rewrite strip_seps_push, (strip_seps_fixed _ Hp). reflexivity.
Qed.

End Components.

Section Extensions.
Implicit Types (p : path) (s t f e : string) (c : ascii).

Lemma has_sep_app s t : has_sep (s +:+ t) = has_sep s || has_sep t.
Proof. rewrite <- !has_char_sep. apply has_char_app. Qed.

Lemma stem_of_no_sep f : has_sep f = false → has_sep (stem_of f) = false.
Proof.
  intros Hf. rewrite <- (stem_extension_of f), has_sep_app in Hf.
  apply orb_false_iff in Hf as [Hs _]. exact Hs.
Qed.

Lemma stem_of_nonempty f : path_empty f = false → path_empty (stem_of f) = false.
Proof.
  unfold stem_of. intros Hf. destruct (is_dot f || is_dotdot f); [exact Hf|].
  destruct f as [|c f]; [discriminate|]. destruct (has_char is_period f); reflexivity.
Qed.

(** What [replace_extension] returns: the path without its extension,
    followed by the new extension with a period in front. *)
Lemma replace_extension_eq p ext :
  replace_extension p ext =
    upto_last is_sep p +:+ path_stem p
    +:+ (if path_empty ext then EmptyString
         else if starts_with_period ext then ext else String period ext).
Proof.
  unfold replace_extension, path_replace_extension, path_of_string, nonempty, push_back.
  destruct ext as [|c e].
  - simpl. rewrite !append_nil_r. reflexivity.
  - simpl path_empty. simpl negb. rewrite !andb_true_l. cbv iota.
    simpl starts_with_period. destruct (is_period c) eqn:Hc.
    + simpl negb. cbv iota. apply append_assoc.
    + simpl negb. cbv iota. rewrite append_nil_l.
      rewrite append_assoc. reflexivity.
Qed.

Lemma stem_dot_ext s e :
  path_empty s = false → path_empty e = false → has_char is_period e = false →
  extension_of (s +:+ String period e) = String period e
  ∧ stem_of (s +:+ String period e) = s.
Proof.
  intros Hs He Hper. destruct s as [|c s]; [discriminate|].
  destruct e as [|a e]; [discriminate|].
  assert (Hno : is_dot (String c s +:+ String period (String a e))
                || is_dotdot (String c s +:+ String period (String a e)) = false).
  { apply orb_false_iff. split; [apply is_dot_neq | apply is_dotdot_neq].
    - rewrite append_cons. unfold dot. intros [= _ Habs].
      destruct s; discriminate.
    - rewrite append_cons. unfold dotdot. intros [= _ Habs].
      destruct s as [|c' s]; [discriminate|].
      rewrite append_cons in Habs. injection Habs as _ Habs. destruct s; discriminate. }
  assert (Hper' : has_char is_period (String period (String a e)) = true) by reflexivity.
  assert (Hhas : has_char is_period (s +:+ String period (String a e)) = true).
  { rewrite has_char_app, Hper'. apply orb_true_r. }
  assert (Hafter : after_last is_period (s +:+ String period (String a e)) = String a e).
  { rewrite after_last_app, Hper'.
    change (after_last is_period (String period (String a e)))
      with (if has_char is_period (String a e) then after_last is_period (String a e)
            else String a e).
    rewrite Hper. reflexivity. }
  assert (Hbefore : before_last is_period (s +:+ String period (String a e)) = s).
  { rewrite before_last_app, Hper'.
    change (before_last is_period (String period (String a e)))
      with (if has_char is_period (String a e)
            then String period (before_last is_period (String a e))
            else EmptyString).
    rewrite Hper. apply append_nil_r. }
  unfold extension_of, stem_of. rewrite Hno, append_cons, Hhas, Hafter, Hbefore.
  split; reflexivity.
Qed.

End Extensions.

Section Splitting.
Implicit Types (p : path) (s t f : string) (c : ascii) (ns : list string).

Lemma split_eq p :
  filenames p ≠ [] →
  split p =
    ((if has_root_directory p then [String slash EmptyString] else []) ++ filenames p)%list.
Proof.
  intros Hp. unfold split, path_iter, path_string.
  rewrite (bool_decide_eq_false_2 _ Hp), map_id, !filter_app.
  rewrite (filter_names (filenames p) (filenames_are_names p)).
  assert (Hlast : filter (λ s, nonempty s = true)
            (if ends_with_sep p then [EmptyString] else []) = []).
  { destruct (ends_with_sep p); reflexivity. }
  rewrite Hlast, app_nil_r. destruct (has_root_directory p); reflexivity.
Qed.

(** A path without a filename is empty or is its root directory, and
    [split] returns it as it is spelled. *)
Lemma split_rootless p :
  filenames p = [] → split p = if path_empty p then [] else [path_string p].
Proof.
  intros Hp. unfold split, path_iter, path_string.
  rewrite (bool_decide_eq_true_2 _ Hp). destruct p as [|c p']; reflexivity.
Qed.

Lemma filenames_relative p :
  path_empty p = false → has_root_directory p = false → filenames p ≠ [].
Proof.
  destruct p as [|c p']; [discriminate|]. intros _ Hroot. simpl in Hroot.
  unfold filenames. simpl fields. rewrite Hroot.
  destruct (fields p') as [|f fs] eqn:Hf; [exfalso; exact (fields_not_nil p' Hf)|].
  rewrite filter_cons_True by reflexivity. discriminate.
Qed.

Lemma filenames_generic p : filenames (generic_string p) = filenames p.
Proof.
  unfold generic_string. destruct (decompose_ok p) as [Hok Hwm].
  rewrite (filenames_render _ Hok Hwm). apply mark_items_names.
Qed.

Lemma has_root_generic p :
  has_root_directory (generic_string p) = has_root_directory p.
Proof.
  unfold generic_string. destruct (decompose_ok p) as [Hok _].
  apply (has_root_render _ Hok).
Qed.

Lemma fields_push_sep s : fields (push_back s slash) = (fields s ++ [EmptyString])%list.
Proof.
  unfold push_back. induction s as [|c s IH]; [reflexivity|].
  rewrite append_cons. simpl fields. rewrite IH.
  destruct (is_sep c); [reflexivity|].
  destruct (fields s) as [|f fs] eqn:Hs; [destruct (fields_not_nil s Hs)|]. reflexivity.
Qed.

Lemma filenames_push_sep s : filenames (push_back s slash) = filenames s.
Proof.
  unfold filenames. rewrite fields_push_sep, filter_app.
  rewrite filter_cons_False by (intros Hne; discriminate Hne). apply app_nil_r.
Qed.

Lemma split_trailing_separator p :
  filenames p ≠ [] → split (ensure_trailing_separator p) = split p.
Proof.
  intros Hnames.
  assert (Hp : path_empty p = false).
  { destruct p; [exfalso; apply Hnames; reflexivity | reflexivity]. }
  unfold ensure_trailing_separator, path_of_string. rewrite Hp.
  pose proof (generic_string_nonempty p Hp) as Hg.
  destruct (nonempty (generic_string p)
            && negb (bool_decide (back (generic_string p) = Some slash))).
  - rewrite !split_eq by (rewrite ?filenames_push_sep, ?filenames_generic; exact Hnames).
    rewrite filenames_push_sep. unfold push_back.
    rewrite (has_root_app _ _ Hg), has_root_generic, filenames_generic. reflexivity.
  - rewrite !split_eq by (rewrite ?filenames_generic; exact Hnames).
    rewrite has_root_generic, filenames_generic. reflexivity.
Qed.

Lemma name_has_filename f : is_name f → has_filename f = true.
Proof.
  intros [Hne Hsep]. unfold has_filename, path_filename.
  rewrite <- has_char_sep in Hsep. rewrite (after_last_none _ _ Hsep). exact Hne.
Qed.

(** Appending names one after the other writes them out with a separator
    in between. *)
Lemma fold_names ns : ∀ acc,
  Forall is_name ns →
  fold_left path_append ns acc =
    acc +:+ (if has_filename acc && negb (bool_decide (ns = []))
             then String slash EmptyString else EmptyString)
        +:+ render_items (mark_items ns false).
Proof.
  induction ns as [|n rest IH]; intros acc Hns.
  - simpl. rewrite andb_false_r. unfold render_items. simpl.
    rewrite !append_nil_r. reflexivity.
  - inversion Hns as [|? ? Hn Hrest]; subst.
    simpl fold_left. rewrite (IH _ Hrest).
    rewrite (path_append_has_filename acc n (name_no_root n Hn)), (name_has_filename n Hn).
    rewrite andb_true_l. unfold path_append. rewrite (name_no_root n Hn).
    rewrite (bool_decide_eq_false_2 (n :: rest = [])) by discriminate.
    simpl negb. rewrite andb_true_r.
    destruct rest as [|m rest].
    + simpl. unfold render_items. simpl. rewrite !append_nil_r.
      destruct (has_filename acc); rewrite ?append_assoc, ?append_nil_l; reflexivity.
    + rewrite (bool_decide_eq_false_2 (m :: rest = [])) by discriminate.
      simpl negb. cbv iota.
      change (mark_items (n :: m :: rest) false)
        with ((n, true) :: mark_items (m :: rest) false).
      change (render_items ((n, true) :: mark_items (m :: rest) false))
        with (render_item (n, true) +:+ render_items (mark_items (m :: rest) false)).
      rewrite render_item_sep.
      destruct (has_filename acc);
        rewrite ?append_assoc, ?append_cons, ?append_nil_l; reflexivity.
Qed.

Lemma join_split p :
  filenames p ≠ [] →
  join_segments EmptyString (split p) =
    render {| el_root := has_root_directory p;
              el_items := mark_items (filenames p) false |}.
Proof.
  intros Hnames. unfold join_segments. rewrite (split_eq p Hnames).
  unfold render. cbn [el_root el_items].
  destruct (has_root_directory p).
  - simpl app. simpl fold_left. rewrite path_append_empty_l.
    rewrite (fold_names _ _ (filenames_are_names p)).
    change (has_filename (String slash EmptyString)) with false.
    rewrite andb_false_l. reflexivity.
  - simpl app. rewrite (fold_names _ _ (filenames_are_names p)).
    change (has_filename EmptyString) with false.
    rewrite andb_false_l. reflexivity.
Qed.

Lemma names_ok_mark ns b : Forall is_name ns → names_ok (mark_items ns b).
Proof.
  intros Hns. unfold names_ok. apply Forall_forall. intros it Hin.
  rewrite Forall_forall in Hns. apply Hns.
  rewrite <- (mark_items_names ns b). apply list_elem_of_fmap. exists it. split; [reflexivity|exact Hin].
Qed.

End Splitting.

(** X1.  [join] is associative: joining [a] with the join of [b] and [c]
    gives the same path as joining the join of [a] and [b] with [c],
    whichever of the three are absolute, empty or end with a separator. *)
Theorem join_associative (a b c : path) :
  join a (join b c) = join (join a b) c.
Proof. apply path_append_assoc. Qed.

(** X2.  The join of a base with several segments, taken from left to
    right as the loop does: segments can be joined in two batches; when
    there is at least one segment, the result is the base joined with the
    join of the segments among themselves; and an absolute segment
    discards the base and every segment before it. *)
Theorem join_segments_batches :
  (∀ (base : path) (xs ys : list path),
     join_segments base (xs ++ ys) = join_segments (join_segments base xs) ys)
  ∧ (∀ (base : path) (segments : list path),
       segments ≠ [] →
       join_segments base segments = join base (join_segments EmptyString segments))
  ∧ (∀ (base r : path) (xs ys : list path),
       has_root_directory r = true →
       join_segments base (xs ++ r :: ys) = join_segments r ys).
Proof.
  unfold join_segments, join. split; [|split].
  - intros base xs ys. apply fold_left_app.
  - intros base [|s rest] Hne; [congruence|]. simpl.
    rewrite path_append_empty_l. apply fold_append_assoc.
  - intros base r xs ys Hr. rewrite fold_left_app. simpl.
    rewrite (path_append_absolute _ r Hr). reflexivity.
Qed.

Lemma join_segments_batches_witness :
  join_segments "a" ["b"; "c"] = join "a" (join_segments EmptyString ["b"; "c"])
  ∧ join_segments "a" (["b"] ++ "/r" :: ["c"]) = join_segments "/r" ["c"].
Proof.
  destruct join_segments_batches as (_ & Hbase & Habs).
  split; [apply Hbase; discriminate | apply Habs; reflexivity].
Defined.

(** X3.  The stem and the extension of a path make up its filename.  The
    extension is empty or starts with the one period it holds; it is empty
    for the filenames dot and dot-dot and for a filename whose only period
    comes first.  The filename holds no separator. *)
Theorem stem_extension_filename (p : path) :
  stem p +:+ extension p = filename p
  ∧ (extension p = EmptyString
     ∨ ∃ e, extension p = String period e ∧ has_char is_period e = false)
  ∧ (filename p = dot ∨ filename p = dotdot → extension p = EmptyString)
  ∧ (∀ e, filename p = String period e → has_char is_period e = false →
          extension p = EmptyString)
  ∧ has_sep (filename p) = false.
Proof.
  unfold stem, extension, filename, path_stem, path_extension, path_string.
  split; [apply stem_extension_of|].
  split; [apply extension_of_shape|].
  split; [|split; [|apply filename_no_sep]].
  - unfold extension_of. intros [-> | ->]; reflexivity.
  - intros e -> He. unfold extension_of.
    destruct (is_dot (String period e) || is_dotdot (String period e)); [reflexivity|].
    rewrite He. reflexivity.
Qed.

Lemma stem_extension_filename_witness :
  extension "/home/.profile" = EmptyString ∧ extension "a/.." = EmptyString.
Proof.
  split.
  - destruct (stem_extension_filename "/home/.profile") as (_ & _ & _ & Hdot & _).
    apply (Hdot "profile"); reflexivity.
  - destruct (stem_extension_filename "a/..") as (_ & _ & Hdots & _).
    apply Hdots. right. reflexivity.
Defined.

(** X4.  A path without doubled separators is the join of its parent and
    its filename.  Joining a name to a path and taking the filename gives
    the name back; taking the parent gives the path back, when the path
    does not end with a separator. *)
Theorem parent_filename_round_trip (p : path) (f : string) :
  (no_double_sep p = true → join (parent p) (filename p) = p)
  ∧ (is_name f →
     filename (join p f) = f
     ∧ (ends_with_sep p = false → parent (join p f) = p)).
Proof.
  split; [apply parent_filename_join|].
  intros Hf. split; [apply filename_join_name, Hf | apply parent_join_name, Hf].
Qed.

Lemma parent_filename_round_trip_witness :
  join (parent "/srv/www") (filename "/srv/www") = "/srv/www"
  ∧ filename (join "/srv/www" "index.html") = "index.html"
  ∧ parent (join "/srv/www" "index.html") = "/srv/www".
Proof.
  destruct (parent_filename_round_trip "/srv/www" "index.html") as [Hsplit Hjoin].
  split; [apply Hsplit; reflexivity|].
  destruct Hjoin as [Hfile Hparent]; [split; reflexivity|].
  split; [exact Hfile | apply Hparent; reflexivity].
Defined.

Section KeptNames.
Implicit Types (p : path) (f : string).

Lemma normalize_names p f :
  f ∈ filenames (normalize p) → f ∈ filenames p ∨ normalize p = dot.
Proof.
  destruct (normalize_cases p) as [[_ ->] | [[_ Hdot] | (_ & e & He & Hok & Hwm & _)]];
    [auto | auto |].
  revert He. unfold normalize, lexically_normal.
  destruct (bool_decide (filenames p = [])); [intros _; auto|].
  destruct (negb (el_root (decompose p)) &&
            bool_decide (normal_items (el_root (decompose p)) (el_items (decompose p)) = []));
    [intros _; auto|].
  intros _. destruct (decompose_ok p) as [Hok' Hwm'].
  rewrite filenames_render; simpl;
    [|apply normal_items_ok, Hok' | apply well_marked_normal, Hwm'].
  intros Hin. apply normal_items_names in Hin as [Hin _].
  left. rewrite <- decompose_names. exact Hin.
Qed.

Lemma normalize_untouched p :
  filenames p ≠ [] → dot ∉ filenames p → dotdot ∉ filenames p →
  normalize p = generic_string p.
Proof.
  intros Hnames Hdot Hdd. unfold normalize, lexically_normal, generic_string.
  rewrite (bool_decide_eq_false_2 _ Hnames).
  assert (Hfix : normal_items (el_root (decompose p)) (el_items (decompose p))
                 = el_items (decompose p)).
  { apply normal_items_fixed.
    - rewrite decompose_names. exact Hdot.
    - rewrite decompose_names. exists 0%nat, (filenames p).
      split; [reflexivity|]. split; [exact Hdd | reflexivity].
    - intros it Hlast Hit. exfalso. apply Hdd.
      apply is_dotdot_eq in Hit. rewrite <- Hit, <- decompose_names.
      apply list_elem_of_fmap. exists it. split; [reflexivity|].
      apply last_Some_elem_of, Hlast. }
  rewrite Hfix.
  destruct (negb (el_root (decompose p)) && bool_decide (el_items (decompose p) = []))
    eqn:Hcase.
  - exfalso. apply andb_true_iff in Hcase as [_ Hnil].
    apply bool_decide_eq_true in Hnil. apply Hnames.
    rewrite <- decompose_names, Hnil. reflexivity.
  - destruct (decompose p); reflexivity.
Qed.

End KeptNames.

(** X5.  [normalize] invents no name: every filename of its result is a
    filename of the path, unless the result is the dot.  A path that has a
    filename, and neither dot nor dot-dot among its filenames, is
    normalized to its generic format. *)
Theorem normalize_keeps_names (p : path) :
  (∀ f, f ∈ filenames (normalize p) → f ∈ filenames p ∨ normalize p = dot)
  ∧ (filenames p ≠ [] → dot ∉ filenames p → dotdot ∉ filenames p →
     normalize p = to_generic_string p).
Proof. split; [apply normalize_names | apply normalize_untouched]. Qed.

Lemma normalize_keeps_names_witness :
  normalize "/srv//www/index.html" = to_generic_string "/srv//www/index.html".
Proof.
  destruct (normalize_keeps_names "/srv//www/index.html") as (_ & Hsame).
  apply Hsame; [discriminate | |]; apply (bool_decide_unpack _); vm_compute; exact I.
Defined.

(** X6.  [replace_extension] takes the extension with or without its
    period; given the path's own extension it changes nothing; given the
    empty extension it removes exactly the extension; and on a path with a
    filename, an extension without period or separator becomes the
    extension of the result, whose stem is the stem of the path. *)
Theorem replace_extension_sets (p : path) :
  (∀ e, path_empty e = false → starts_with_period e = false →
        replace_extension p (String period e) = replace_extension p e)
  ∧ replace_extension p (extension p) = p
  ∧ replace_extension p EmptyString +:+ extension p = p
  ∧ (∀ e, has_filename p = true →
          path_empty e = false → has_char is_period e = false → has_sep e = false →
          extension (replace_extension p e) = String period e
          ∧ stem (replace_extension p e) = stem p).
Proof.
  assert (Hcut : upto_last is_sep p +:+ path_stem p +:+ path_extension p = p).
  { unfold path_stem, path_extension. rewrite stem_extension_of. apply upto_after. }
  split; [|split; [|split]].
  - intros e He Hper. rewrite !replace_extension_eq. rewrite He.
    simpl. change (is_period period) with true. rewrite Hper. reflexivity.
  - rewrite replace_extension_eq. unfold extension, path_string.
    destruct (extension_of_shape (path_filename p)) as [Hext | (e & Hext & _)];
      fold (path_extension p) in Hext; rewrite Hext in *.
    + exact Hcut.
    + simpl. change (is_period period) with true. exact Hcut.
  - rewrite replace_extension_eq. simpl. rewrite append_nil_r.
    unfold extension, path_string. rewrite append_assoc. exact Hcut.
  - intros e Hp He Hper Hsep. rewrite replace_extension_eq, He.
    assert (Hstart : starts_with_period e = false).
    { destruct e as [|c e]; [discriminate|]. simpl in Hper.
      apply orb_false_iff in Hper as [Hc _]. exact Hc. }
    rewrite Hstart.
    unfold extension, stem, path_extension, path_stem, path_string.
    assert (Hstem_sep : has_sep (stem_of (path_filename p) +:+ String period e) = false).
    { rewrite has_sep_app, (stem_of_no_sep _ (filename_no_sep p)). simpl. exact Hsep. }
    assert (Hfn : path_filename (upto_last is_sep p
                    +:+ stem_of (path_filename p) +:+ String period e)
                  = stem_of (path_filename p) +:+ String period e).
    { rewrite path_filename_app, Hstem_sep. unfold path_filename at 1.
      rewrite after_upto. reflexivity. }
    rewrite Hfn. apply stem_dot_ext; [|exact He|exact Hper].
    apply stem_of_nonempty. unfold has_filename, nonempty in Hp.
    destruct (path_filename p); [discriminate | reflexivity].
Qed.

Lemma replace_extension_sets_witness :
  replace_extension "a/b.txt" ".md" = replace_extension "a/b.txt" "md"
  ∧ extension (replace_extension "a/b.txt" "md") = ".md"
  ∧ stem (replace_extension "a/b.txt" "md") = stem "a/b.txt".
Proof.
  destruct (replace_extension_sets "a/b.txt") as (Hdot & _ & _ & Hset).
  split; [apply Hdot; reflexivity|].
  apply Hset; reflexivity.
Defined.

(** X7.  [split] returns the root directory, if there is one, and the
    filenames of the path; a path that has no filename and is not empty is
    its root directory, and comes back as it is spelled.  No part is
    empty.  For a path that has a filename [split] does not see doubled or
    trailing separators.  Joining the parts gives the path in the generic
    format when the path does not end with a separator, and in any case a
    path with the same parts. *)
Theorem split_parts (p : path) :
  (filenames p ≠ [] →
   split p =
     ((if has_root_directory p then [String slash EmptyString] else []) ++ filenames p)%list)
  ∧ (filenames p = [] → split p = if path_empty p then [] else [path_string p])
  ∧ Forall (λ s, s ≠ EmptyString) (split p)
  ∧ (filenames p ≠ [] →
     split (to_generic_string p) = split p
     ∧ split (ensure_trailing_separator p) = split p)
  ∧ (ends_with_sep p = false →
     join_segments EmptyString (split p) = to_generic_string p)
  ∧ split (join_segments EmptyString (split p)) = split p.
Proof.
  split; [apply split_eq|].
  split; [apply split_rootless|].
  split.
  { unfold split. apply Forall_forall. intros s Hin.
    apply list_elem_of_filter in Hin as [Hne _]. intros ->. discriminate. }
  split.
  { intros Hnames. split; [|apply split_trailing_separator, Hnames].
    unfold to_generic_string.
    rewrite !split_eq by (rewrite ?filenames_generic; exact Hnames).
    rewrite has_root_generic, filenames_generic. reflexivity. }
  split.
  - intros Hend. destruct (decide (filenames p = [])) as [Hnil|Hnames].
    + destruct (path_empty p) eqn:Hp.
      * destruct p; [reflexivity | discriminate].
      * destruct (ends_with_sep_filenames p Hp Hend Hnil).
    + rewrite (join_split p Hnames).
      unfold to_generic_string, generic_string, decompose. rewrite Hend. reflexivity.
  - destruct (decide (filenames p = [])) as [Hnil|Hnames].
    + rewrite (split_rootless p Hnil). destruct (path_empty p) eqn:Hp.
      * reflexivity.
      * unfold join_segments, path_string. simpl fold_left. unfold path_append.
        destruct (has_root_directory p) eqn:Hroot.
        -- rewrite (split_rootless p Hnil), Hp. reflexivity.
        -- destruct (filenames_relative p Hp Hroot Hnil).
    + rewrite (join_split p Hnames).
      pose proof (names_ok_mark (filenames p) false (filenames_are_names p)) as Hok.
      assert (Hsame : filenames (render {| el_root := has_root_directory p;
                                           el_items := mark_items (filenames p) false |})
                      = filenames p).
      { rewrite filenames_render by (first [exact Hok | apply well_marked_mark]).
        cbn [el_items]. apply mark_items_names. }
      rewrite !split_eq by (rewrite ?Hsame; exact Hnames).
      rewrite has_root_render by exact Hok. rewrite Hsame. reflexivity.
Qed.

Lemma split_parts_witness :
  split "a/b/c" = ["a"; "b"; "c"]
  ∧ split "//" = ["//"]
  ∧ join_segments EmptyString (split "/usr//lib/./x") = to_generic_string "/usr//lib/./x".
Proof.
  destruct (split_parts "a/b/c") as (Hparts & _).
  destruct (split_parts "//") as (_ & Hroot & _).
  destruct (split_parts "/usr//lib/./x") as (_ & _ & _ & _ & Hjoin & _).
  split; [apply Hparts; discriminate|].
  split; [apply Hroot; reflexivity | apply Hjoin; reflexivity].
Defined.

(** X8.  The generic format: [to_generic_string] is idempotent and its
    result has no doubled separator; what [ensure_trailing_separator]
    returns is already in the generic format, and so is what [normalize]
    returns for a path that has a filename; and
    [ensure_trailing_separator] is the join of the generic pathname with
    the empty path. *)
Theorem generic_format (p : path) :
  to_generic_string (to_generic_string p) = to_generic_string p
  ∧ no_double_sep (to_generic_string p) = true
  ∧ (filenames p ≠ [] → to_generic_string (normalize p) = normalize p)
  ∧ to_generic_string (ensure_trailing_separator p) = ensure_trailing_separator p
  ∧ ensure_trailing_separator p = join (to_generic_string p) EmptyString.
Proof.
  unfold to_generic_string.
  split; [apply generic_string_idempotent|].
  split.
  { unfold generic_string. destruct (decompose_ok p) as [Hok _].
    apply no_double_sep_render, Hok. }
  split.
  { intros Hnames.
    destruct (normalize_cases p) as [[Hnil _] | [[_ ->] | (_ & e & -> & Hok & Hwm & _)]];
      [congruence | reflexivity | apply generic_string_render; assumption]. }
  destruct (path_empty p) eqn:Hp.
  { destruct p; [|discriminate]. split; reflexivity. }
  split; [apply (ensure_trailing_separator_nonempty p Hp)|].
  unfold ensure_trailing_separator, join, path_append, path_of_string.
  rewrite Hp. simpl has_root_directory. cbv iota.
  rewrite has_filename_back, (generic_string_nonempty p Hp).
  unfold nonempty. rewrite (generic_string_nonempty p Hp). simpl negb.
  rewrite !andb_true_l. unfold ends_with_sep.
  destruct (back (generic_string p)) as [c|] eqn:Hback.
  - destruct (is_sep c) eqn:Hc.
    + apply is_sep_slash in Hc. subst c.
      rewrite bool_decide_eq_true_2 by reflexivity. simpl. symmetry. apply append_nil_r.
    + rewrite bool_decide_eq_false_2
        by (intros [= ->]; discriminate Hc).
      reflexivity.
  - apply back_none in Hback. pose proof (generic_string_nonempty p Hp) as Hne.
    rewrite Hback in Hne. discriminate.
Qed.

Lemma generic_format_witness :
  to_generic_string (normalize "a//b/../c/") = normalize "a//b/../c/".
Proof.
  destruct (generic_format "a//b/../c/") as (_ & _ & Hnormal & _).
  apply Hnormal. discriminate.
Defined.

(** ** Files on the reference host *)

Section ReferenceFiles.
Implicit Types (p : path) (w : gmap loc node) (l : loc) (tm : text_mode).

Lemma lf_to_crlf_app s t : lf_to_crlf (s +:+ t) = lf_to_crlf s +:+ lf_to_crlf t.
Proof.
  induction s as [|c s IH]; [reflexivity|].
  rewrite append_cons. simpl. rewrite IH. destruct (Ascii.eqb c LF); reflexivity.
Qed.

Lemma text_out_app tm s t : text_out tm (s +:+ t) = text_out tm s +:+ text_out tm t.
Proof. destruct tm; [reflexivity | apply lf_to_crlf_app]. Qed.

Lemma node_at_file_nonroot w l c : node_at w l = Some (File c) → l ≠ [].
Proof. destruct l; [discriminate | discriminate]. Qed.

Lemma node_at_none_nonroot w l : node_at w l = None → l ≠ [].
Proof. destruct l; [discriminate | discriminate]. Qed.

(** [append_text] on a regular file adds the text, as the text mode writes
    it, after what the file holds. *)
Lemma model_append_text_file tm p text w c :
  path_empty p = false → w !! locate p = Some (File c) → locate p ≠ [] →
  append_text (H := model_host tm) p text w =
    (Ok (), <[locate p := File (c +:+ text_out tm text)]> w).
Proof.
  intros Hp Hc Hl. unfold append_text. simpl. unfold model_ofstream_open.
  rewrite (resolve_nonempty p Hp), (node_at_nonroot w _ Hl), Hc. simpl.
  unfold model_ofstream_write. simpl. rewrite Hc. reflexivity.
Qed.

(** Whether a stream opens for output, and the file it then finds, do not
    depend on what is written afterwards. *)
Lemma model_write_text_any tm p text text' w w1 :
  write_text (H := model_host tm) p text w = (Ok (), w1) →
  write_text (H := model_host tm) p text' w
  = (Ok (), <[locate p := File (text_out tm text')]> w).
Proof.
  intros Hw. destruct (model_write_text_ok tm p text w w1 Hw) as (Hres & Hl & _).
  apply resolve_inr in Hres as [_ Hp].
  revert Hw. unfold write_text. simpl. unfold model_ofstream_open.
  rewrite (resolve_nonempty p Hp), (node_at_nonroot w _ Hl).
  destruct (w !! locate p) as [[c|]|] eqn:Hc.
  - intros _. simpl. unfold model_ofstream_write. simpl.
    rewrite lookup_insert_eq. simpl. rewrite insert_insert_eq. reflexivity.
  - discriminate.
  - destruct (node_at w (removelast (locate p))) as [[c|]|]; try discriminate.
    intros _. unfold model_ofstream_write. simpl.
    rewrite lookup_insert_eq. simpl. rewrite insert_insert_eq. reflexivity.
Qed.

Lemma model_path_exists_none tm p w :
  path_exists (H := model_host tm) p w = false →
  path_empty p = true ∨ (path_empty p = false ∧ node_at w (locate p) = None).
Proof.
  rewrite model_path_exists. unfold resolve.
  destruct (path_empty p); [auto|].
  destruct (node_at w (locate p)); [|auto].
  intros Hd. exfalso. apply bool_decide_eq_false in Hd. apply Hd. eauto.
Qed.

Lemma model_is_file_path tm p w :
  is_file_path (H := model_host tm) p w = true ↔
  path_empty p = false ∧ ∃ c, node_at w (locate p) = Some (File c).
Proof.
  unfold is_file_path, std_is_regular_file. simpl. unfold model_status, resolve.
  destruct (path_empty p); simpl; [split; [discriminate | intros [? _]; discriminate]|].
  destruct (node_at w (locate p)) as [[c|]|]; simpl; split;
    try discriminate; eauto; intros [_ [c' Hc']]; discriminate.
Qed.

Lemma model_is_dir_path tm p w :
  is_dir_path (H := model_host tm) p w = true ↔
  path_empty p = false ∧ node_at w (locate p) = Some Dir.
Proof.
  unfold is_dir_path, std_is_directory. simpl. unfold model_status, resolve.
  destruct (path_empty p); simpl; [split; [discriminate | intros [? _]; discriminate]|].
  destruct (node_at w (locate p)) as [[c|]|]; simpl; split;
    try discriminate; eauto; intros [_ Hc']; discriminate.
Qed.

End ReferenceFiles.

(** X9.  On the POSIX reference host, appending to a file that
    [read_text] can read succeeds, and [read_text] then returns what it
    returned before followed by the appended text.  *)
Theorem append_text_extends (p : path) (text : string) (w : gmap loc node) (c : string) :
  read_text (H := posix_host) p w = Ok c →
  ∃ w1, append_text (H := posix_host) p text w = (Ok (), w1)
        ∧ read_text (H := posix_host) p w1 = Ok (c +:+ text).
Proof.
  unfold read_text at 1. simpl. unfold model_ifstream_open, resolve.
  destruct (path_empty p) eqn:Hp; [discriminate|].
  destruct (node_at w (locate p)) as [[c'|]|] eqn:Hc; try discriminate.
  simpl. intros [= <-].
  pose proof (node_at_file_nonroot _ _ _ Hc) as Hl.
  rewrite (node_at_nonroot w _ Hl) in Hc.
  eexists. split; [apply (model_append_text_file Transparent p text w c' Hp Hc Hl)|].
  apply (model_read_text_file Transparent p _ _ Hp Hl), lookup_insert_eq.
Qed.

Lemma append_text_extends_witness :
  ∃ w1, append_text (H := posix_host) "f" "\nworld" demo_world = (Ok (), w1)
        ∧ read_text (H := posix_host) "f" w1 = Ok ("hello" +:+ "\nworld").
Proof. apply (append_text_extends "f" "\nworld" demo_world "hello"). reflexivity. Defined.

(** X10.  On the reference host, whatever its text mode: [write_text]
    followed by [append_text] leaves what one [write_text] of the two texts
    put together leaves; and on a path that does not exist [append_text]
    does what [write_text] does. *)
Theorem append_text_and_write_text (tm : text_mode) (p : path) (w : gmap loc node) :
  (∀ a b w1,
     write_text (H := model_host tm) p a w = (Ok (), w1) →
     append_text (H := model_host tm) p b w1
     = write_text (H := model_host tm) p (a +:+ b) w)
  ∧ (path_exists (H := model_host tm) p w = false →
     ∀ text,
       snd (append_text (H := model_host tm) p text w)
       = snd (write_text (H := model_host tm) p text w)
       ∧ outcome (fst (append_text (H := model_host tm) p text w))
         = outcome (fst (write_text (H := model_host tm) p text w))).
Proof.
  split.
  - intros a b w1 Hw.
    rewrite (model_write_text_any tm p a (a +:+ b) w w1 Hw).
    destruct (model_write_text_ok tm p a w w1 Hw) as (Hres & Hl & ->).
    apply resolve_inr in Hres as [_ Hp].
    rewrite (model_append_text_file tm p b _ (text_out tm a) Hp (lookup_insert_eq _ _ _) Hl).
    rewrite insert_insert_eq, text_out_app. reflexivity.
  - intros Hex text. unfold append_text, write_text. simpl. unfold model_ofstream_open.
    destruct (model_path_exists_none tm p w Hex) as [Hp | [Hp Hnone]].
    + unfold resolve. rewrite Hp. split; reflexivity.
    + rewrite (resolve_nonempty p Hp), Hnone.
      destruct (node_at w (removelast (locate p))) as [[c|]|]; try (split; reflexivity).
      unfold model_ofstream_write. simpl. rewrite lookup_insert_eq. simpl.
      split; reflexivity.
Qed.

Lemma append_text_and_write_text_witness :
  append_text (H := crlf_host) "n" "b\n"
    (snd (write_text (H := crlf_host) "n" "a\n" demo_world))
  = write_text (H := crlf_host) "n" ("a\n" +:+ "b\n") demo_world
  ∧ snd (append_text (H := crlf_host) "n" "a" demo_world)
    = snd (write_text (H := crlf_host) "n" "a" demo_world).
Proof.
  destruct (append_text_and_write_text CRLF "n" demo_world) as [Hseq Hnew].
  split; [apply Hseq; reflexivity | apply Hnew; reflexivity].
Defined.

(** X11.  On the reference host, whatever its text mode, after
    [write_bytes] has returned [read_bytes] returns the bytes,
    [file_size_bytes] their number, and the path is a regular file. *)
Theorem bytes_round_trip (tm : text_mode) (p : path) (bytes : string)
    (w w1 : gmap loc node) :
  Z.of_nat (String.length bytes) < 2 ^ 63 →
  write_bytes (H := model_host tm) p bytes w = (Ok (), w1) →
  read_bytes (H := model_host tm) p w1 = Ok bytes
  ∧ file_size_bytes (H := model_host tm) p w1 = Ok (Z.of_nat (String.length bytes))
  ∧ is_file_path (H := model_host tm) p w1 = true.
Proof.
  intros Hlen Hw. split; [exact (model_write_read_bytes tm p bytes w w1 Hlen Hw)|].
  destruct (model_write_bytes_ok tm p bytes w w1 Hw) as (Hp & Hl & ->).
  split.
  - rewrite (model_file_size_bytes_file tm p _ bytes Hp Hl (lookup_insert_eq _ _ _)).
    rewrite uintmax_small; [reflexivity|]. unfold uintmax_modulus. lia.
  - apply model_is_file_path. split; [exact Hp|]. exists bytes.
    apply node_at_insert_eq, Hl.
Qed.

Lemma bytes_round_trip_witness :
  read_bytes (H := crlf_host) "n"
    (snd (write_bytes (H := crlf_host) "n" (String LF (String CtrlZ EmptyString)) demo_world))
  = Ok (String LF (String CtrlZ EmptyString)).
Proof.
  apply (bytes_round_trip CRLF "n" (String LF (String CtrlZ EmptyString)) demo_world).
  - vm_compute. reflexivity.
  - reflexivity.
Defined.

(** X12.  On the POSIX reference host the text functions and the byte
    functions do the same: [write_text] and [write_bytes] leave the same
    world and end alike, and [read_text] and [read_bytes] end alike on
    every path that is neither a directory nor a file of [2^63] bytes or
    more.  (A directory opens for reading on POSIX and fails when it is
    read, which the two functions do in different ways; the reference host
    has it fail when it is opened.) *)
Theorem posix_text_is_bytes (p : path) (w : gmap loc node) :
  (∀ s,
     snd (write_text (H := posix_host) p s w) = snd (write_bytes (H := posix_host) p s w)
     ∧ outcome (fst (write_text (H := posix_host) p s w))
       = outcome (fst (write_bytes (H := posix_host) p s w)))
  ∧ (is_dir_path (H := posix_host) p w = false →
     (∀ c, node_at w (locate p) = Some (File c) → Z.of_nat (String.length c) < 2 ^ 63) →
     outcome (read_text (H := posix_host) p w) = outcome (read_bytes (H := posix_host) p w)).
Proof.
  split.
  - intros s. unfold write_text, write_bytes. simpl. unfold model_ofstream_open.
    destruct (resolve p) as [e|l]; [split; reflexivity|].
    destruct (node_at w l) as [[c|]|] eqn:Hc.
    + simpl. unfold model_ofstream_write. simpl. rewrite lookup_insert_eq. simpl.
      destruct s as [|a s]; simpl.
      * rewrite insert_insert_eq. split; reflexivity.
      * rewrite ?lookup_insert_eq. simpl. split; reflexivity.
    + split; reflexivity.
    + destruct (node_at w (removelast l)) as [[c|]|]; try (split; reflexivity).
      unfold model_ofstream_write. simpl. rewrite lookup_insert_eq. simpl.
      destruct s as [|a s]; simpl.
      * rewrite insert_insert_eq. split; reflexivity.
      * rewrite ?lookup_insert_eq. simpl. split; reflexivity.
  - intros Hnodir Hsmall. unfold posix_host.
    destruct (path_empty p) eqn:Hp.
    { unfold read_text, read_bytes. simpl. unfold model_ifstream_open, resolve.
      rewrite Hp. reflexivity. }
    destruct (node_at w (locate p)) as [[c|]|] eqn:Hc.
    + pose proof (node_at_file_nonroot _ _ _ Hc) as Hl.
      rewrite (node_at_nonroot w _ Hl) in Hc.
      rewrite (model_read_text_file Transparent p w c Hp Hl Hc).
      rewrite (model_read_bytes_file Transparent p w c Hp Hl Hc (Hsmall c eq_refl)).
      reflexivity.
    + assert (Hdir : is_dir_path (H := posix_host) p w = true)
        by (apply model_is_dir_path; auto).
      rewrite Hdir in Hnodir. discriminate.
    + unfold read_text, read_bytes. simpl. unfold model_ifstream_open, resolve.
      rewrite Hp, Hc. reflexivity.
Qed.

Lemma posix_text_is_bytes_witness :
  outcome (read_text (H := posix_host) "d/g" demo_world)
  = outcome (read_bytes (H := posix_host) "d/g" demo_world).
Proof.
  destruct (posix_text_is_bytes "d/g" demo_world) as [_ Hread].
  apply Hread; [reflexivity|].
  intros c Hc. vm_compute in Hc. injection Hc as <-. vm_compute. reflexivity.
Defined.

(** X13.  On the reference host, reading a plain path that does not
    exist throws [std::system_error] with the message of the open failure:
    with the code for "not a directory" when the path leads through a
    regular file, and with the code for "no such file or directory" when
    it does not. *)
Theorem read_missing (tm : text_mode) (p : path) (w : gmap loc node) :
  plain p → path_exists (H := model_host tm) p w = false →
  read_text (H := model_host tm) p w
  = Throw (system_error (if through_file p w then ENOTDIR else ENOENT)
                        ("rix::fs::read_text: open failed: " +:+ p))
  ∧ read_bytes (H := model_host tm) p w
    = Throw (system_error (if through_file p w then ENOTDIR else ENOENT)
                          ("rix::fs::read_bytes: open failed: " +:+ p)).
Proof.
  intros _ Hex. unfold read_text, read_bytes, through_file. simpl.
  unfold model_ifstream_open, resolve.
  destruct (model_path_exists_none tm p w Hex) as [Hp | [Hp Hnone]].
  - rewrite Hp. destruct p; [split; reflexivity | discriminate].
  - rewrite Hp, Hnone. split; reflexivity.
Qed.

Lemma read_missing_witness :
  read_text (H := posix_host) "nope" demo_world
  = Throw (system_error ENOENT ("rix::fs::read_text: open failed: " +:+ "nope"))
  ∧ read_bytes (H := posix_host) "f/sub" demo_world
    = Throw (system_error ENOTDIR ("rix::fs::read_bytes: open failed: " +:+ "f/sub")).
Proof.
  destruct (read_missing Transparent "nope" demo_world ltac:(by_evaluation) eq_refl)
    as [Htext _].
  destruct (read_missing Transparent "f/sub" demo_world ltac:(by_evaluation) eq_refl)
    as [_ Hbytes].
  split; [exact Htext | exact Hbytes].
Defined.

Section ReferenceCopies.
Implicit Types (p : path) (w : gmap loc node) (l : loc) (tm : text_mode).

(** When the host's [copy_file] copies: the source is a regular file, the
    destination another place, that holds the bytes of the source
    afterwards; without leave to overwrite, there was nothing at the
    destination. *)
Lemma model_copy_file_copied (from to : path) (opt : copy_options) w w1 ec :
  model_copy_file from to opt w = (true, ec, w1) →
  ∃ c, path_empty from = false ∧ path_empty to = false
       ∧ w !! locate from = Some (File c) ∧ locate from ≠ []
       ∧ locate to ≠ [] ∧ locate from ≠ locate to
       ∧ w1 = <[locate to := File c]> w
       ∧ (opt = copy_none → w !! locate to = None).
Proof.
  unfold model_copy_file, resolve.
  destruct (path_empty from) eqn:Hf; [discriminate|].
  destruct (node_at w (locate from)) as [[c|]|] eqn:Hc; try discriminate.
  destruct (path_empty to) eqn:Ht; [discriminate|].
  pose proof (node_at_file_nonroot _ _ _ Hc) as Hlf.
  rewrite (node_at_nonroot w _ Hlf) in Hc.
  destruct (node_at w (locate to)) as [[c'|]|] eqn:Hc'; try discriminate.
  - pose proof (node_at_file_nonroot _ _ _ Hc') as Hlt.
    destruct (bool_decide (locate from = locate to)) eqn:Heq; [discriminate|].
    apply bool_decide_eq_false in Heq.
    destruct opt; try discriminate. intros [= _ <-].
    exists c. split; [reflexivity|]. split; [reflexivity|]. split; [exact Hc|].
    split; [exact Hlf|]. split; [exact Hlt|]. split; [exact Heq|].
    split; [reflexivity | discriminate].
  - pose proof (node_at_none_nonroot _ _ Hc') as Hlt.
    rewrite (node_at_nonroot w _ Hlt) in Hc'.
    destruct (node_at w (removelast (locate to))) as [[c'|]|]; try discriminate.
    intros [= _ <-]. exists c. split; [reflexivity|]. split; [reflexivity|].
    split; [exact Hc|]. split; [exact Hlf|]. split; [exact Hlt|].
    split; [intros Heq; rewrite Heq, Hc' in Hc; discriminate|].
    split; [reflexivity | intros _; exact Hc'].
Qed.

Lemma model_copy_file_result tm (from to : path) (overwrite : bool) w w1 :
  copy_file (H := model_host tm) from to overwrite w = (Ok (), w1) →
  ∃ ec, model_copy_file from to (if overwrite then overwrite_existing else copy_none) w
        = (true, ec, w1).
Proof.
  unfold copy_file. simpl.
  destruct (model_copy_file from to _ w) as [[ok ec] w'].
  destruct ec as [e|]; [discriminate|]. destruct ok; [|discriminate].
  intros [= <-]. eauto.
Qed.

End ReferenceCopies.

(** X14.  On the reference host, after [copy_file] has returned: [from]
    was a regular file, reading [to] gives what reading [from] gave, and
    [from] reads as before; without [overwrite], [to] did not exist.  With
    [overwrite] false and [to] existing, [copy_file] throws and changes
    nothing. *)
Theorem copy_file_copies (tm : text_mode) (from to : path) (w : gmap loc node) :
  (∀ overwrite w1,
     copy_file (H := model_host tm) from to overwrite w = (Ok (), w1) →
     is_file_path (H := model_host tm) from w = true
     ∧ read_text (H := model_host tm) to w1 = read_text (H := model_host tm) from w
     ∧ read_text (H := model_host tm) from w1 = read_text (H := model_host tm) from w
     ∧ (overwrite = false → path_exists (H := model_host tm) to w = false))
  ∧ (path_exists (H := model_host tm) to w = true →
     ∃ e what, copy_file (H := model_host tm) from to false w
               = (Throw (system_error e what), w)).
Proof.
  split.
  - intros overwrite w1 Hcp.
    destruct (model_copy_file_result tm from to overwrite w w1 Hcp) as [ec Hm].
    destruct (model_copy_file_copied from to _ w w1 ec Hm)
      as (c & Hf & Ht & Hc & Hlf & Hlt & Hne & -> & Hnone).
    split.
    { apply model_is_file_path. split; [exact Hf|]. exists c.
      rewrite node_at_nonroot by exact Hlf. exact Hc. }
    rewrite (model_read_text_file tm from w c Hf Hlf Hc).
    split; [|split].
    + apply (model_read_text_file tm to _ c Ht Hlt), lookup_insert_eq.
    + apply (model_read_text_file tm from _ c Hf Hlf).
      rewrite lookup_insert_ne by congruence. exact Hc.
    + intros ->. rewrite model_path_exists, (resolve_nonempty to Ht).
      rewrite node_at_nonroot by exact Hlt. rewrite (Hnone eq_refl).
      apply bool_decide_eq_false_2. intros [? ?]. discriminate.
  - intros Hex. unfold copy_file. simpl.
    rewrite model_path_exists in Hex. unfold model_copy_file.
    destruct (resolve from) as [e|lf]; [eauto|].
    destruct (resolve to) as [e|lt]; [discriminate|].
    destruct (node_at w lf) as [[c|]|]; [|eauto..].
    destruct (node_at w lt) as [[c'|]|].
    + destruct (bool_decide (lf = lt)); eauto.
    + eauto.
    + apply bool_decide_eq_true in Hex. destruct Hex as [? ?]. discriminate.
Qed.

Lemma copy_file_copies_witness :
  read_text (H := posix_host) "d/h" (snd (copy_file (H := posix_host) "f" "d/h" false demo_world))
  = read_text (H := posix_host) "f" demo_world
  ∧ ∃ e what, copy_file (H := posix_host) "f" "d/g" false demo_world
              = (Throw (system_error e what), demo_world).
Proof.
  destruct (copy_file_copies Transparent "f" "d/g" demo_world) as [_ Hkeep].
  destruct (copy_file_copies Transparent "f" "d/h" demo_world) as [Hcopy _].
  split; [|apply Hkeep; reflexivity].
  apply (Hcopy false). reflexivity.
Defined.

Section ReferenceRemovalOfOne.
Implicit Types (p : path) (w : gmap loc node) (l : loc) (tm : text_mode).

(** What [remove_file] does with a path other than the root directory. *)
Lemma model_remove_file_cases tm p w :
  path_empty p = false → locate p ≠ [] →
  (w !! locate p = None →
   remove_file (H := model_host tm) p w =
     if file_above w (locate p)
     then (Throw (system_error ENOTDIR ("rix::fs::remove_file: failed: " +:+ p)), w)
     else (Ok false, w))
  ∧ (∀ c, w !! locate p = Some (File c) →
          remove_file (H := model_host tm) p w = (Ok true, delete (locate p) w))
  ∧ (w !! locate p = Some Dir → below w (locate p) = ∅ →
     remove_file (H := model_host tm) p w = (Ok true, delete (locate p) w))
  ∧ (w !! locate p = Some Dir → below w (locate p) ≠ ∅ →
     remove_file (H := model_host tm) p w
     = (Throw (system_error ENOTEMPTY ("rix::fs::remove_file: failed: " +:+ p)), w)).
Proof.
  intros Hp Hl. unfold remove_file. simpl. unfold model_remove.
  rewrite (resolve_nonempty p Hp). destruct (locate p) as [|f l]; [congruence|].
  split; [|split; [|split]].
  - intros ->. destruct (file_above w (f :: l)); reflexivity.
  - intros c ->. reflexivity.
  - intros -> Hempty. rewrite (bool_decide_eq_true_2 _ Hempty). reflexivity.
  - intros -> Hfull. rewrite (bool_decide_eq_false_2 _ Hfull). reflexivity.
Qed.

Lemma model_path_exists_lookup tm p w :
  path_empty p = false → locate p ≠ [] →
  path_exists (H := model_host tm) p w = bool_decide (is_Some (w !! locate p)).
Proof.
  intros Hp Hl. rewrite model_path_exists, (resolve_nonempty p Hp), (node_at_nonroot _ _ Hl).
  reflexivity.
Qed.

End ReferenceRemovalOfOne.

(** X15.  On the reference host, for a plain path: when the path does not
    exist, [remove_file] (and so [remove_dir]) returns [false] and changes
    nothing, unless the path leads through a regular file, in which case
    it throws "not a directory" and changes nothing; it returns [false]
    only when the path does not exist; when it returns [true] the path no
    longer exists and the world has one entry less; and it throws only for
    a directory or for a path that leads through a regular file, changing
    nothing. *)
Theorem remove_file_removes (tm : text_mode) (p : path) (w : gmap loc node) :
  plain p →
  (path_exists (H := model_host tm) p w = false → through_file p w = false →
   remove_file (H := model_host tm) p w = (Ok false, w))
  ∧ (path_exists (H := model_host tm) p w = false → through_file p w = true →
     remove_file (H := model_host tm) p w
     = (Throw (system_error ENOTDIR ("rix::fs::remove_file: failed: " +:+ p)), w))
  ∧ (∀ w1, remove_file (H := model_host tm) p w = (Ok false, w1) →
           w1 = w ∧ path_exists (H := model_host tm) p w = false)
  ∧ (∀ w1, remove_file (H := model_host tm) p w = (Ok true, w1) →
           path_exists (H := model_host tm) p w1 = false
           ∧ size w = S (size w1))
  ∧ (∀ e w1, remove_file (H := model_host tm) p w = (Throw e, w1) →
             w1 = w
             ∧ (is_dir_path (H := model_host tm) p w = true
                ∨ (path_exists (H := model_host tm) p w = false
                   ∧ through_file p w = true))).
Proof.
  intros Hplain. unfold through_file.
  destruct (path_empty p) eqn:Hp.
  { destruct p; [|discriminate].
    split; [reflexivity|]. split; [discriminate|].
    split; [intros w1 [= <-]; auto|]. split; discriminate. }
  pose proof (plain_nonroot p Hplain Hp) as Hl.
  destruct (model_remove_file_cases tm p w Hp Hl) as (Hnone & Hfile & Hempty & Hfull).
  rewrite (model_path_exists_lookup tm p w Hp Hl).
  assert (Hgone : path_exists (H := model_host tm) p (delete (locate p) w) = false).
  { rewrite (model_path_exists_lookup tm p _ Hp Hl), lookup_delete_eq.
    apply bool_decide_eq_false_2. intros [? ?]. discriminate. }
  assert (Hless : ∀ n, w !! locate p = Some n → size w = S (size (delete (locate p) w))).
  { intros n Hn. rewrite (map_size_delete_Some (locate p) w) by eauto.
    pose proof (map_size_ne_0_lookup_2 w (locate p) (mk_is_Some _ _ Hn)). lia. }
  destruct (w !! locate p) as [[c|]|] eqn:Hn.
  - assert (Hex : bool_decide (is_Some (Some (File c))) = true)
      by (apply bool_decide_eq_true_2; eauto).
    rewrite Hex, (Hfile c eq_refl). split; [discriminate|]. split; [discriminate|].
    split; [discriminate|].
    split; [intros w1 [= <-]; split; [exact Hgone | exact (Hless _ eq_refl)]|].
    discriminate.
  - assert (Hex : bool_decide (is_Some (Some Dir)) = true)
      by (apply bool_decide_eq_true_2; eauto).
    rewrite Hex. split; [discriminate|]. split; [discriminate|].
    assert (Hdir : is_dir_path (H := model_host tm) p w = true).
    { apply model_is_dir_path. split; [exact Hp|].
      rewrite (node_at_nonroot _ _ Hl). exact Hn. }
    destruct (decide (below w (locate p) = ∅)) as [Hb|Hb].
    + rewrite (Hempty eq_refl Hb). split; [discriminate|].
      split; [intros w1 [= <-]; split; [exact Hgone | exact (Hless _ eq_refl)]|].
      discriminate.
    + rewrite (Hfull eq_refl Hb). split; [discriminate|]. split; [discriminate|].
      intros e w1 [= _ <-]. auto.
  - assert (Hex : bool_decide (is_Some (@None node)) = false)
      by (apply bool_decide_eq_false_2; intros [? ?]; discriminate).
    rewrite Hex, (Hnone eq_refl). destruct (file_above w (locate p)).
    + split; [discriminate|]. split; [reflexivity|].
      split; [discriminate|]. split; [discriminate|].
      intros e w1 [= _ <-]. auto.
    + split; [reflexivity|]. split; [discriminate|].
      split; [intros w1 [= <-]; auto|]. split; discriminate.
Qed.

Lemma remove_file_removes_witness :
  remove_file (H := posix_host) "nope" demo_world = (Ok false, demo_world)
  ∧ remove_file (H := posix_host) "d/g/x" demo_world
    = (Throw (system_error ENOTDIR ("rix::fs::remove_file: failed: " +:+ "d/g/x")),
       demo_world)
  ∧ path_exists (H := posix_host) "f" (snd (remove_file (H := posix_host) "f" demo_world)) = false
  ∧ (is_dir_path (H := posix_host) "d" demo_world = true
     ∨ (path_exists (H := posix_host) "d" demo_world = false
        ∧ through_file "d" demo_world = true)).
Proof.
  assert (Hnope : plain "nope") by (apply (bool_decide_unpack _); vm_compute; exact I).
  assert (Hx : plain "d/g/x") by (apply (bool_decide_unpack _); vm_compute; exact I).
  assert (Hf : plain "f") by (apply (bool_decide_unpack _); vm_compute; exact I).
  assert (Hd : plain "d") by (apply (bool_decide_unpack _); vm_compute; exact I).
  destruct (remove_file_removes Transparent "nope" demo_world Hnope) as [Hnone _].
  destruct (remove_file_removes Transparent "d/g/x" demo_world Hx) as (_ & Hway & _).
  destruct (remove_file_removes Transparent "f" demo_world Hf) as (_ & _ & _ & Hgone & _).
  destruct (remove_file_removes Transparent "d" demo_world Hd) as (_ & _ & _ & _ & Hthrow).
  split; [apply Hnone; reflexivity|].
  split; [apply Hway; reflexivity|].
  split; [apply (Hgone _ eq_refl)|].
  apply (Hthrow (system_error ENOTEMPTY ("rix::fs::remove_file: failed: " +:+ "d")) demo_world).
  vm_compute. reflexivity.
Defined.

(** ** Directories on the reference host *)

Section Locations.
Implicit Types (p d : path) (f s t : string) (w : gmap loc node) (l k : loc).

Lemma fields_sep_app s t :
  fields (s +:+ String slash t) = (fields s ++ fields t)%list.
Proof.
  induction s as [|c s IH]; [reflexivity|].
  rewrite append_cons. simpl fields. rewrite IH.
  destruct (is_sep c); [reflexivity|].
  destruct (fields s) as [|g gs] eqn:Hs; [destruct (fields_not_nil s Hs)|]. reflexivity.
Qed.

Lemma back_Some_push s c : back s = Some c → ∃ s', s = push_back s' c.
Proof.
  induction s as [|a s IH]; [discriminate|].
  destruct s as [|b s].
  - simpl. intros [= <-]. exists EmptyString. reflexivity.
  - intros Hb. destruct (IH Hb) as [s' Hs']. exists (String a s').
    unfold push_back in *. rewrite append_cons, <- Hs'. reflexivity.
Qed.

Lemma filenames_name f : is_name f → filenames f = [f].
Proof.
  intros [Hne Hsep]. unfold filenames. rewrite (fields_name f Hsep).
  rewrite filter_cons_True by exact Hne. reflexivity.
Qed.

(** Joining a name to a path adds the name to its filenames. *)
Lemma filenames_join_name d f :
  is_name f → filenames (path_append d f) = (filenames d ++ [f])%list.
Proof.
  intros Hf. pose proof Hf as [Hne Hsep].
  unfold path_append. rewrite (name_no_root f Hf), has_filename_back.
  destruct d as [|c d]; [simpl; rewrite append_nil_l; apply filenames_name, Hf|].
  simpl path_empty. simpl negb. rewrite andb_true_l.
  destruct (ends_with_sep (String c d)) eqn:Hend; simpl negb; cbv iota.
  - unfold ends_with_sep in Hend.
    destruct (back (String c d)) as [a|] eqn:Hback; [|discriminate].
    apply is_sep_slash in Hend. subst a.
    destruct (back_Some_push _ _ Hback) as [d' Hd']. rewrite Hd'.
    rewrite filenames_push_sep. unfold push_back. rewrite append_assoc.
    change (String slash EmptyString +:+ f) with (String slash f).
    unfold filenames. rewrite fields_sep_app, filter_app.
    fold (filenames f). rewrite (filenames_name f Hf). reflexivity.
  - unfold filenames. rewrite fields_sep_app, filter_app.
    fold (filenames f). rewrite (filenames_name f Hf). reflexivity.
Qed.

Lemma proper_name_is_name f : proper_name f → is_name f.
Proof. intros (Hne & Hsep & _). split; assumption. Qed.

Lemma step_proper k f : proper_name f → step k f = (k ++ [f])%list.
Proof. intros (_ & _ & Hdot & Hdotdot). unfold step. rewrite Hdot, Hdotdot. reflexivity. Qed.

Lemma locate_join d f :
  proper_name f → locate (path_append d f) = (locate d ++ [f])%list.
Proof.
  intros Hf. unfold locate.
  rewrite (filenames_join_name d f (proper_name_is_name f Hf)), fold_left_app.
  simpl. apply step_proper, Hf.
Qed.

Lemma path_append_nonempty d f : path_empty f = false → path_empty (path_append d f) = false.
Proof.
  intros Hf. unfold path_append. destruct (has_root_directory f); [exact Hf|].
  destruct (has_filename d); apply append_nonempty'; [reflexivity | exact Hf].
Qed.

Lemma snoc_nonempty {A} (k : list A) (x : A) : (k ++ [x])%list ≠ [].
Proof. destruct k; discriminate. Qed.

(** *** Trees *)

Lemma tree_parent w k n :
  tree_shaped w → w !! k = Some n →
  k ≠ [] ∧ Forall proper_name k ∧ node_at w (removelast k) = Some Dir.
Proof. intros Hw Hk. exact (map_Forall_lookup_1 _ _ _ _ Hw Hk). Qed.

(** In a tree, what lies above an entry is a directory. *)
Lemma tree_ancestor w k sfx :
  tree_shaped w → is_Some (w !! (k ++ sfx)%list) → sfx ≠ [] → node_at w k = Some Dir.
Proof.
  intros Hw. induction sfx as [|x sfx IH] using rev_ind; [congruence|].
  intros [n Hn] _. rewrite app_assoc in Hn.
  destruct (tree_parent w _ n Hw Hn) as (_ & _ & Hpar).
  rewrite removelast_last in Hpar.
  destruct sfx as [|y sfx]; [rewrite app_nil_r in Hpar; exact Hpar|].
  apply IH; [|discriminate].
  rewrite node_at_nonroot in Hpar by (destruct k; discriminate). eauto.
Qed.


Lemma tree_below_missing w k sfx :
  tree_shaped w → node_at w k ≠ Some Dir → sfx ≠ [] → w !! (k ++ sfx)%list = None.
Proof.
  intros Hw Hk Hs. destruct (w !! (k ++ sfx)%list) as [n|] eqn:Hn; [|reflexivity].
  destruct Hk. apply (tree_ancestor w k sfx Hw); [eauto | exact Hs].
Qed.

Lemma below_empty_lookup w k sfx :
  below w k = ∅ → sfx ≠ [] → w !! (k ++ sfx)%list = None.
Proof.
  intros Hempty Hs. destruct (w !! (k ++ sfx)%list) as [n|] eqn:Hn; [|reflexivity].
  assert (below w k !! (k ++ sfx)%list = Some n) as Hb.
  { apply map_lookup_filter_Some. split; [exact Hn|]. simpl. split.
    - apply prefix_app_r. reflexivity.
    - intros Heq. rewrite <- (app_nil_r k) in Heq at 2.
      apply app_inv_head in Heq. congruence. }
  rewrite Hempty, lookup_empty in Hb. discriminate.
Qed.

(** *** [create_directories] *)

(** [create_directories] returns whether the last directory of the path
    was missing. *)
Lemma make_path_flag names : ∀ w k created b w1,
  make_path w k names created = (b, None, w1) →
  b = if bool_decide (names = []) then created
      else negb (bool_decide (is_Some (w !! (k ++ names)%list))).
Proof.
  induction names as [|f rest IH]; intros w k created b w1; simpl.
  - intros [= <- _]. reflexivity.
  - replace (k ++ f :: rest)%list with ((k ++ [f]) ++ rest)%list
      by (rewrite <- app_assoc; reflexivity).
    destruct (w !! (k ++ [f])%list) as [[c|]|] eqn:Hnext; [discriminate| |].
    + intros Hmk. rewrite (IH _ _ _ _ _ Hmk).
      destruct rest as [|g rest].
      * rewrite app_nil_r, Hnext. reflexivity.
      * rewrite (bool_decide_eq_false_2 (g :: rest = [])) by discriminate. reflexivity.
    + intros Hmk. rewrite (IH _ _ _ _ _ Hmk).
      destruct rest as [|g rest].
      * rewrite app_nil_r, Hnext. reflexivity.
      * rewrite (bool_decide_eq_false_2 (g :: rest = [])) by discriminate.
        rewrite lookup_insert_ne; [reflexivity|].
        intros Heq. apply (f_equal length) in Heq.
        rewrite !length_app in Heq. simpl in Heq. lia.
Qed.

(** In a tree, [create_directories] on a path that exists changes
    nothing. *)
Lemma make_path_existing w names : ∀ k created n,
  tree_shaped w → names ≠ [] → w !! (k ++ names)%list = Some n →
  make_path w k names created =
    (false, match n with File _ => Some ENOTDIR | Dir => None end, w).
Proof.
  induction names as [|f rest IH]; intros k created n Hw Hne Hn; [congruence|].
  simpl. replace (k ++ f :: rest)%list with ((k ++ [f]) ++ rest)%list in Hn
    by (rewrite <- app_assoc; reflexivity).
  destruct rest as [|g rest].
  - rewrite app_nil_r in Hn. rewrite Hn. destruct n; reflexivity.
  - assert (Hdir : w !! (k ++ [f])%list = Some Dir).
    { rewrite <- node_at_nonroot by apply snoc_nonempty.
      apply (tree_ancestor w _ (g :: rest) Hw); [eauto | discriminate]. }
    rewrite Hdir. apply IH; [exact Hw | discriminate | exact Hn].
Qed.

End Locations.

Section ReferenceCreation.
Implicit Types (p d : path) (w : gmap loc node) (l k : loc) (tm : text_mode).

Lemma model_path_exists_node tm p w :
  path_empty p = false →
  path_exists (H := model_host tm) p w = bool_decide (is_Some (node_at w (locate p))).
Proof. intros Hp. rewrite model_path_exists, (resolve_nonempty p Hp). reflexivity. Qed.

Lemma model_create_dirs_root w created : make_path w [] [] created = (created, None, w).
Proof. reflexivity. Qed.

(** In a tree, [create_directories] on a path that exists reports an error
    for a regular file and nothing for a directory, and changes nothing. *)
Lemma model_create_directories_existing p w n :
  tree_shaped w → path_empty p = false → node_at w (locate p) = Some n →
  model_create_directories p w =
    (false, match n with File _ => Some ENOTDIR | Dir => None end, w).
Proof.
  intros Hw Hp Hn. unfold model_create_directories. rewrite (resolve_nonempty p Hp).
  destruct (locate p) as [|f l] eqn:Hl.
  - simpl in Hn. injection Hn as <-. reflexivity.
  - apply (make_path_existing w (f :: l) [] false n Hw); [discriminate | exact Hn].
Qed.

End ReferenceCreation.

(** X16.  On the reference host, when [create_dir] or [create_dirs]
    returns, the path is a directory, and the value returned says whether
    the path did not exist before; [create_dir] that returns [false] has
    changed nothing, and so has [create_dirs] in a world shaped like a
    tree. *)
Theorem create_dir_creates (tm : text_mode) (p : path) (w : gmap loc node) :
  (∀ b w1, create_dir (H := model_host tm) p w = (Ok b, w1) →
           is_dir_path (H := model_host tm) p w1 = true
           ∧ b = negb (path_exists (H := model_host tm) p w)
           ∧ (b = false → w1 = w))
  ∧ (∀ b w1, create_dirs (H := model_host tm) p w = (Ok b, w1) →
             is_dir_path (H := model_host tm) p w1 = true
             ∧ b = negb (path_exists (H := model_host tm) p w)
             ∧ (tree_shaped w → b = false → w1 = w)).
Proof.
  split.
  - intros b w1. unfold create_dir. simpl. unfold model_create_directory, resolve.
    destruct (path_empty p) eqn:Hp; [discriminate|].
    rewrite (model_path_exists_node tm p w Hp).
    destruct (node_at w (locate p)) as [[c|]|] eqn:Hn; [discriminate| |].
    + intros [= <- <-]. split; [apply model_is_dir_path; auto|].
      split; [|reflexivity]. rewrite bool_decide_eq_true_2 by eauto. reflexivity.
    + destruct (node_at w (removelast (locate p))) as [[c|]|]; try discriminate.
      intros [= <- <-]. pose proof (node_at_none_nonroot _ _ Hn) as Hl.
      split; [apply model_is_dir_path; split; [exact Hp | apply node_at_insert_eq, Hl]|].
      split; [|discriminate].
      rewrite bool_decide_eq_false_2 by (intros [? ?]; discriminate). reflexivity.
  - intros b w1. unfold create_dirs. simpl.
    destruct (model_create_directories p w) as [[b' ec] w'] eqn:Hmk.
    destruct ec as [e|]; [discriminate|]. intros [= <- <-].
    unfold model_create_directories, resolve in Hmk.
    destruct (path_empty p) eqn:Hp; [discriminate|].
    split.
    { apply model_is_dir_path. split; [exact Hp|].
      apply (make_path_directory _ _ _ _ _ _ Hmk). reflexivity. }
    rewrite (model_path_exists_node tm p w Hp).
    pose proof (make_path_flag _ _ _ _ _ _ Hmk) as Hflag. simpl app in Hflag.
    destruct (locate p) as [|f l] eqn:Hl.
    + simpl in Hmk. injection Hmk as <- <-. split; [reflexivity | auto].
    + rewrite bool_decide_eq_false_2 in Hflag by discriminate.
      split; [exact Hflag|]. intros Hw Hb. rewrite Hb in Hflag.
      destruct (w !! (f :: l)) as [n|] eqn:Hn.
      * rewrite (make_path_existing w (f :: l) [] false n Hw) in Hmk
          by (first [discriminate | exact Hn]).
        injection Hmk as _ _ <-. reflexivity.
      * simpl in Hflag. discriminate.
Qed.

Lemma create_dir_creates_witness :
  is_dir_path (H := posix_host) "d/new"
    (snd (create_dir (H := posix_host) "d/new" demo_world)) = true
  ∧ snd (create_dirs (H := posix_host) "d" demo_world) = demo_world.
Proof.
  destruct (create_dir_creates Transparent "d/new" demo_world) as [Hone _].
  destruct (create_dir_creates Transparent "d" demo_world) as [_ Hall].
  split.
  - apply (Hone true). reflexivity.
  - destruct (Hall false demo_world eq_refl) as (_ & _ & Hsame).
    apply Hsame; [|reflexivity]. apply (bool_decide_unpack _). vm_compute. exact I.
Defined.

(** X17.  On the reference host, in a world shaped like a tree,
    [ensure_dir] leaves the world that [create_dirs] leaves, and returns
    exactly when [create_dirs] returns. *)
Theorem ensure_dir_is_create_dirs (tm : text_mode) (p : path) (w : gmap loc node) :
  tree_shaped w →
  snd (ensure_dir (H := model_host tm) p w) = snd (create_dirs (H := model_host tm) p w)
  ∧ (fst (ensure_dir (H := model_host tm) p w) = Ok ()
     ↔ ∃ b, fst (create_dirs (H := model_host tm) p w) = Ok b).
Proof.
  intros Hw. destruct (path_empty p) eqn:Hp.
  { destruct p; [|discriminate]. split; [reflexivity|].
    split; [discriminate | intros [b Hb]; discriminate]. }
  destruct (node_at w (locate p)) as [[c|]|] eqn:Hn.
  - rewrite (ensure_dir_not_directory (H := model_host tm) p w).
    2:{ simpl. rewrite (model_status_entry p w _ (resolve_nonempty p Hp)), Hn. reflexivity. }
    2:{ simpl. rewrite (model_status_entry p w _ (resolve_nonempty p Hp)), Hn. discriminate. }
    unfold create_dirs. simpl.
    rewrite (model_create_directories_existing p w _ Hw Hp Hn).
    split; [reflexivity|]. split; [discriminate | intros [b Hb]; discriminate].
  - rewrite (ensure_dir_directory (H := model_host tm) p w).
    2:{ simpl. rewrite (model_status_entry p w _ (resolve_nonempty p Hp)), Hn. reflexivity. }
    unfold create_dirs. simpl.
    rewrite (model_create_directories_existing p w _ Hw Hp Hn).
    split; [reflexivity|]. split; eauto.
  - rewrite (ensure_dir_absent (H := model_host tm) p w).
    2:{ unfold std_exists. simpl.
        rewrite (model_status_entry p w _ (resolve_nonempty p Hp)), Hn. reflexivity. }
    unfold create_dirs. simpl.
    destruct (model_create_directories p w) as [[b ec] w'] eqn:Hmk.
    destruct ec as [e|].
    + unfold model_create_directories in Hmk. rewrite (resolve_nonempty p Hp) in Hmk.
      rewrite (make_path_error _ _ _ _ _ _ _ Hmk). split; [reflexivity|].
      split; [discriminate | intros [b' Hb]; discriminate].
    + destruct b; (split; [reflexivity|]); split; eauto.
Qed.

Lemma ensure_dir_is_create_dirs_witness :
  snd (ensure_dir (H := posix_host) "d/x/y" demo_world)
  = snd (create_dirs (H := posix_host) "d/x/y" demo_world).
Proof.
  apply (ensure_dir_is_create_dirs Transparent "d/x/y" demo_world).
  apply (bool_decide_unpack _). vm_compute. exact I.
Defined.

Section WaysThroughFiles.
Implicit Types (p : path) (w : gmap loc node) (l : loc).



Lemma ancestors_prefix l k : k ∈ ancestors l → k `prefix_of` l.
Proof.
  unfold ancestors. intros Hk. apply list_elem_of_fmap in Hk as (n & -> & _).
  exists (drop n l). symmetry. apply take_drop.
Qed.

(** What a way leads through is a matter of the entries on it. *)
Lemma file_above_same w w1 l :
  (∀ k, k `prefix_of` l → node_at w1 k = node_at w k) →
  file_above w1 l = file_above w l.
Proof.
  intros Hsame. unfold file_above.
  assert (Hall : Forall (λ k, k `prefix_of` l) (ancestors l)).
  { apply Forall_forall. intros k Hk. apply ancestors_prefix, Hk. }
  induction Hall as [|k ks Hk _ IH]; [reflexivity|].
  simpl. rewrite (Hsame k Hk), IH. reflexivity.
Qed.

(** The checks and [read_text] look at the entries on the way to the
    location of the path, and at nothing else. *)
Lemma model_same_way tm q w w1 :
  (∀ k, k `prefix_of` locate q → node_at w1 k = node_at w k) →
  path_exists (H := model_host tm) q w1 = path_exists (H := model_host tm) q w
  ∧ is_file_path (H := model_host tm) q w1 = is_file_path (H := model_host tm) q w
  ∧ is_dir_path (H := model_host tm) q w1 = is_dir_path (H := model_host tm) q w
  ∧ read_text (H := model_host tm) q w1 = read_text (H := model_host tm) q w.
Proof.
  intros Hsame.
  unfold path_exists, is_file_path, is_dir_path, std_exists, std_is_regular_file,
    std_is_directory, read_text.
  simpl. unfold model_status, model_ifstream_open, resolve, missing.
  destruct (path_empty q); [repeat split|].
  rewrite (Hsame (locate q)) by reflexivity.
  rewrite (file_above_same w w1 (locate q) Hsame). repeat split.
Qed.

End WaysThroughFiles.



(** ** Listing *)

Section AnyTree.
Context `{HT : HostTree}.
Implicit Types (p : path) (w : world).

Lemma push_entries_clear what (range entries : list path) :
  push_entries None what range entries = Ok (entries ++ range)%list.
Proof.
  revert entries. induction range as [|entry range IH]; intros entries; simpl.
  - rewrite app_nil_r. reflexivity.
  - rewrite IH, <- app_assoc. reflexivity.
Qed.

(** The check in the loop never fires: with the code of the constructor
    set there is nothing to loop over, and with the code clear there is
    nothing to throw. *)
Lemma collect_yielded (ec : error_code) what (r : dir_range) :
  (is_Some ec → r = DirRange [] None) →
  collect ec what r =
    match broke r with
    | Some (e, what') => Throw (system_error e what')
    | None => Ok (yielded r)
    end.
Proof.
  intros Hend. unfold collect. destruct ec as [e|].
  - rewrite (Hend (mk_is_Some _ _ eq_refl)). reflexivity.
  - rewrite push_entries_clear. reflexivity.
Qed.

Lemma list_dir_directory p w :
  std_is_directory p w = (true, None) →
  list_dir p w =
    match broke (fst (std_directory_iterator p w)) with
    | Some (e, what) => Throw (system_error e what)
    | None => Ok (yielded (fst (std_directory_iterator p w)))
    end.
Proof.
  intros Hdir. unfold list_dir. rewrite Hdir. simpl.
  pose proof (std_directory_iterator_error p w) as Herr.
  destruct (std_directory_iterator p w) as [r ec]. simpl in *.
  apply collect_yielded. intros [e ->]. exact (Herr e eq_refl).
Qed.

Lemma list_dir_recursive_directory p w :
  std_is_directory p w = (true, None) →
  list_dir_recursive p w =
    match broke (fst (std_recursive_directory_iterator p w)) with
    | Some (e, what) => Throw (system_error e what)
    | None => Ok (yielded (fst (std_recursive_directory_iterator p w)))
    end.
Proof.
  intros Hdir. unfold list_dir_recursive. rewrite Hdir. simpl.
  pose proof (std_recursive_directory_iterator_error p w) as Herr.
  destruct (std_recursive_directory_iterator p w) as [r ec]. simpl in *.
  apply collect_yielded. intros [e ->]. exact (Herr e eq_refl).
Qed.

End AnyTree.

(** X19.  On every host, [list_dir] and [list_dir_recursive] throw
    [std::system_error], with the code of the type query and the message of
    the failed stat, when the type query reports an error, which it does
    for a path that does not exist; they throw [std::runtime_error] when
    the query reports no error and the path is not a directory. *)
Theorem list_dir_failures (H : Host) (HT : HostTree H) (p : path) (w : world) :
  (∀ e, snd (std_status p w) = Some e →
        list_dir p w
        = Throw (system_error e ("rix::fs::list_dir: stat failed: " +:+ p))
        ∧ list_dir_recursive p w
          = Throw (system_error e ("rix::fs::list_dir_recursive: stat failed: " +:+ p)))
  ∧ (snd (std_status p w) = None → fst (std_status p w) ≠ ft_directory →
     list_dir p w
     = Throw (runtime_error ("rix::fs::list_dir: not a directory: " +:+ p))
     ∧ list_dir_recursive p w
       = Throw (runtime_error ("rix::fs::list_dir_recursive: not a directory: " +:+ p))).
Proof.
  unfold list_dir, list_dir_recursive, std_is_directory, path_string.
  destruct (std_status p w) as [s ec]. simpl. split.
  - intros e ->. split; reflexivity.
  - intros -> Hs. rewrite bool_decide_eq_false_2 by exact Hs. split; reflexivity.
Qed.

Lemma list_dir_failures_witness :
  list_dir (HT := model_tree Transparent) "nope" demo_world
  = Throw (system_error ENOENT ("rix::fs::list_dir: stat failed: " +:+ "nope"))
  ∧ list_dir (HT := model_tree Transparent) "f" demo_world
    = Throw (runtime_error ("rix::fs::list_dir: not a directory: " +:+ "f")).
Proof.
  destruct (list_dir_failures posix_host (model_tree Transparent) "nope" demo_world)
    as [Hstat _].
  destruct (list_dir_failures posix_host (model_tree Transparent) "f" demo_world)
    as [_ Hfile].
  split; [apply Hstat; reflexivity | apply Hfile; [reflexivity | discriminate]].
Defined.

(** X20.  On every host, for a path that the type query finds to be a
    directory: [list_dir] and [list_dir_recursive] return the paths the
    iterator yields, or throw what an increment of the iterator throws;
    they never throw their own "iteration failed" error, and when the
    iterator cannot be constructed they return the empty list. *)
Theorem list_dir_iterator_error (H : Host) (HT : HostTree H) (p : path) (w : world) :
  std_is_directory p w = (true, None) →
  list_dir p w =
    match broke (fst (std_directory_iterator p w)) with
    | Some (e, what) => Throw (system_error e what)
    | None => Ok (yielded (fst (std_directory_iterator p w)))
    end
  ∧ list_dir_recursive p w =
      match broke (fst (std_recursive_directory_iterator p w)) with
      | Some (e, what) => Throw (system_error e what)
      | None => Ok (yielded (fst (std_recursive_directory_iterator p w)))
      end
  ∧ (is_Some (snd (std_directory_iterator p w)) → list_dir p w = Ok [])
  ∧ (is_Some (snd (std_recursive_directory_iterator p w)) → list_dir_recursive p w = Ok []).
Proof.
  intros Hdir.
  split; [apply list_dir_directory, Hdir|].
  split; [apply list_dir_recursive_directory, Hdir|].
  split.
  - intros [e He]. rewrite (list_dir_directory p w Hdir).
    rewrite (std_directory_iterator_error p w e He). reflexivity.
  - intros [e He]. rewrite (list_dir_recursive_directory p w Hdir).
    rewrite (std_recursive_directory_iterator_error p w e He). reflexivity.
Qed.

Lemma list_dir_iterator_error_witness :
  list_dir (HT := locked_tree EACCES) "d" demo_world = Ok []
  ∧ list_dir_recursive (HT := locked_tree EACCES) "d" demo_world = Ok [].
Proof.
  destruct (list_dir_iterator_error posix_host (locked_tree EACCES) "d" demo_world eq_refl)
    as (_ & _ & Hflat & Hdeep).
  split; [apply Hflat | apply Hdeep]; exists EACCES; reflexivity.
Defined.

Section ReferenceListing.
Implicit Types (p q : path) (w : gmap loc node) (l k : loc) (tm : text_mode).








End ReferenceListing.



(** ** Moving *)

Section ReferenceRenaming.
Implicit Types (p q : path) (w : gmap loc node) (l k lf lt : loc) (tm : text_mode).

Lemma prefix_drop lf k : lf `prefix_of` k → k = (lf ++ drop (length lf) k)%list.
Proof. intros [s ->]. rewrite drop_app_length. reflexivity. Qed.

Lemma elem_of_rekey lf lt w k n :
  (k, n) ∈ ((λ kv : loc * node, ((lt ++ drop (length lf) kv.1)%list, kv.2))
              <$> map_to_list (subtree w lf)) ↔
  ∃ s, k = (lt ++ s)%list ∧ w !! (lf ++ s)%list = Some n.
Proof.
  rewrite list_elem_of_fmap. split.
  - intros ([k' n'] & [= -> ->] & Hin). apply elem_of_map_to_list in Hin.
    apply map_lookup_filter_Some in Hin as [Hn Hpre]. simpl in *.
    exists (drop (length lf) k'). split; [reflexivity|].
    rewrite <- (prefix_drop lf k' Hpre). exact Hn.
  - intros (s & -> & Hn). exists ((lf ++ s)%list, n). simpl.
    rewrite drop_app_length. split; [reflexivity|].
    apply elem_of_map_to_list, map_lookup_filter_Some. split; [exact Hn|].
    simpl. apply prefix_app_r. reflexivity.
Qed.

(** What was at [lf ++ s] is at [lt ++ s] in the moved entries, and they
    hold nothing else. *)
Lemma rekey_lookup lf lt w s : rekey lf lt w !! (lt ++ s)%list = w !! (lf ++ s)%list.
Proof.
  unfold rekey. destruct (w !! (lf ++ s)%list) as [n|] eqn:Hn.
  - apply elem_of_list_to_map_1'.
    + intros n' Hin. apply elem_of_rekey in Hin as (s' & Hs' & Hn').
      apply app_inv_head in Hs'. subst s'. congruence.
    + apply elem_of_rekey. eauto.
  - apply not_elem_of_list_to_map_1. intros Hin.
    apply list_elem_of_fmap in Hin as ([k n] & Hk & Hin). simpl in Hk. subst k.
    apply elem_of_rekey in Hin as (s' & Hs' & Hn').
    apply app_inv_head in Hs'. subst s'. congruence.
Qed.

Lemma rekey_lookup_other lf lt w k : ¬ lt `prefix_of` k → rekey lf lt w !! k = None.
Proof.
  intros Hk. unfold rekey. apply not_elem_of_list_to_map_1. intros Hin.
  apply list_elem_of_fmap in Hin as ([k' n] & Hk' & Hin). simpl in Hk'. subst k'.
  apply elem_of_rekey in Hin as (s & -> & _). apply Hk, prefix_app_r. reflexivity.
Qed.

Lemma outside_lookup w l k : ¬ l `prefix_of` k → outside w l !! k = w !! k.
Proof.
  intros Hk. destruct (w !! k) as [n|] eqn:Hn.
  - apply map_lookup_filter_Some. auto.
  - apply map_lookup_filter_None. auto.
Qed.

Lemma outside_lookup_below w l s : outside w l !! (l ++ s)%list = None.
Proof.
  apply map_lookup_filter_None_2. right. intros n _ Hnot. apply Hnot.
  simpl. apply prefix_app_r. reflexivity.
Qed.

(** The ways in which the host's [rename] reports no error. *)
Lemma model_rename_ok (from to : path) w w1 :
  model_rename from to w = (None, w1) →
  path_empty from = false ∧ path_empty to = false
  ∧ ∃ nf, node_at w (locate from) = Some nf
    ∧ ((locate from = locate to ∧ w1 = w)
       ∨ (locate from ≠ locate to ∧ locate from ≠ [] ∧ locate to ≠ []
          ∧ ¬ locate to `prefix_of` locate from
          ∧ ((∃ c, nf = File c ∧ node_at w (locate to) ≠ Some Dir
                   ∧ w1 = <[locate to := File c]> (delete (locate from) w))
             ∨ (nf = Dir ∧ ¬ locate from `prefix_of` locate to
                ∧ (node_at w (locate to) = None
                   ∨ (node_at w (locate to) = Some Dir ∧ below w (locate to) = ∅))
                ∧ w1 = rekey (locate from) (locate to) w ∪ outside w (locate from))))).
Proof.
  unfold model_rename, resolve.
  destruct (path_empty from) eqn:Hf; [discriminate|].
  destruct (parent_error w (locate from)); [discriminate|].
  destruct (path_empty to) eqn:Ht; [discriminate|].
  destruct (parent_error w (locate to)); [discriminate|].
  destruct (node_at w (locate from)) as [nf|] eqn:Hnf; [|discriminate].
  destruct (bool_decide (nf ≠ Dir) && (ends_with_sep from || ends_with_sep to));
    [discriminate|].
  intros Hr. split; [reflexivity|]. split; [reflexivity|]. exists nf. split; [reflexivity|].
  destruct (bool_decide (locate from = locate to)) eqn:Heq.
  { apply bool_decide_eq_true in Heq. injection Hr as <-. auto. }
  apply bool_decide_eq_false in Heq.
  destruct (bool_decide (locate from = [] ∨ locate to = [])) eqn:Hroot; [discriminate|].
  apply bool_decide_eq_false in Hroot.
  destruct (bool_decide (nf = Dir ∧ locate from `prefix_of` locate to)) eqn:Hin;
    [discriminate|].
  apply bool_decide_eq_false in Hin.
  destruct (bool_decide (locate to `prefix_of` locate from)) eqn:Hout; [discriminate|].
  apply bool_decide_eq_false in Hout.
  right. split; [exact Heq|]. split; [tauto|]. split; [tauto|]. split; [exact Hout|].
  destruct nf as [c|].
  - left. exists c. split; [reflexivity|].
    destruct (node_at w (locate to)) as [[c'|]|]; [| discriminate |];
      injection Hr as <-; (split; [discriminate | reflexivity]).
  - right. split; [reflexivity|]. split; [tauto|].
    destruct (node_at w (locate to)) as [[c'|]|]; [discriminate| |].
    + destruct (bool_decide (below w (locate to) = ∅)) eqn:Hempty; [|discriminate].
      apply bool_decide_eq_true in Hempty. injection Hr as <-. auto.
    + injection Hr as <-. auto.
Qed.

Lemma model_move_ok tm (from to : path) w w1 :
  move (HT := model_tree tm) from to w = (Ok (), w1) → model_rename from to w = (None, w1).
Proof.
  unfold move. simpl. destruct (model_rename from to w) as [[e|] w'];
    [discriminate | intros [= <-]; reflexivity].
Qed.

(** After a move to another place, [to] holds what [from] held and [from]
    holds nothing. *)
Lemma model_rename_moved (from to : path) w w1 :
  model_rename from to w = (None, w1) → locate from ≠ locate to →
  node_at w1 (locate to) = node_at w (locate from)
  ∧ node_at w1 (locate from) = None.
Proof.
  intros Hr Hne. destruct (model_rename_ok from to w w1 Hr) as (_ & _ & nf & Hnf & Hcase).
  destruct Hcase as [[Heq _] | (_ & Hlf & Hlt & Hout & Hcase)]; [congruence|].
  rewrite (node_at_nonroot w1 _ Hlt), (node_at_nonroot w1 _ Hlf), Hnf.
  destruct Hcase as [(c & -> & _ & ->) | (-> & Hin & _ & ->)].
  - rewrite lookup_insert_eq, lookup_insert_ne, lookup_delete_eq by congruence. auto.
  - rewrite (node_at_nonroot w _ Hlf) in Hnf. split.
    + apply lookup_union_Some_l.
      pose proof (rekey_lookup (locate from) (locate to) w []) as Hroot.
      rewrite !app_nil_r in Hroot. rewrite Hroot. exact Hnf.
    + apply lookup_union_None. split; [apply rekey_lookup_other, Hout|].
      apply outside_root_entry.
Qed.

End ReferenceRenaming.

(** X22.  On the reference host, after [move] of a plain path to a plain
    path has returned: [to] is a regular file or a directory as [from]
    was, a regular file reads at [to] as it read at [from], and [from] no
    longer exists, unless both paths name the same entry, in which case
    nothing has changed.  [rename] is [move]. *)
Theorem move_moves (tm : text_mode) (from to : path) (w w1 : gmap loc node) :
  plain from → plain to →
  move (HT := model_tree tm) from to w = (Ok (), w1) →
  is_file_path (H := model_host tm) to w1 = is_file_path (H := model_host tm) from w
  ∧ is_dir_path (H := model_host tm) to w1 = is_dir_path (H := model_host tm) from w
  ∧ (is_file_path (H := model_host tm) from w = true →
     read_text (H := model_host tm) to w1 = read_text (H := model_host tm) from w)
  ∧ (locate from ≠ locate to → path_exists (H := model_host tm) from w1 = false)
  ∧ (locate from = locate to → w1 = w)
  ∧ rename (HT := model_tree tm) from to w = (Ok (), w1).
Proof.
  intros _ _ Hmv. pose proof (model_move_ok tm from to w w1 Hmv) as Hr.
  destruct (model_rename_ok from to w w1 Hr) as (Hf & Ht & nf & Hnf & Hcase).
  assert (Hsame : node_at w1 (locate to) = node_at w (locate from)).
  { destruct (decide (locate from = locate to)) as [Heq|Hne].
    - destruct Hcase as [[_ ->] | (Hne & _)]; [rewrite Heq; reflexivity | congruence].
    - apply (model_rename_moved from to w w1 Hr Hne). }
  unfold is_file_path, is_dir_path, std_is_regular_file, std_is_directory, read_text.
  simpl. unfold model_status, model_ifstream_open.
  rewrite (resolve_nonempty from Hf), (resolve_nonempty to Ht), Hsame, Hnf.
  split; [destruct nf; reflexivity|]. split; [destruct nf; reflexivity|].
  split; [destruct nf as [c|]; [reflexivity | discriminate]|].
  split; [|split; [|exact Hmv]].
  - intros Hne. rewrite model_path_exists, (resolve_nonempty from Hf).
    destruct (model_rename_moved from to w w1 Hr Hne) as [_ ->].
    apply bool_decide_eq_false_2. intros [? ?]. discriminate.
  - intros Heq. destruct Hcase as [[_ ->] | (Hne & _)]; [reflexivity | congruence].
Qed.

Lemma move_moves_witness :
  read_text (H := posix_host) "d/h"
    (snd (move (HT := model_tree Transparent) "f" "d/h" demo_world))
  = read_text (H := posix_host) "f" demo_world
  ∧ path_exists (H := posix_host) "f"
      (snd (move (HT := model_tree Transparent) "f" "d/h" demo_world)) = false.
Proof.
  destruct (move_moves Transparent "f" "d/h" demo_world _
              ltac:(by_evaluation) ltac:(by_evaluation) eq_refl)
    as (_ & _ & Hread & Hgone & _).
  split; [apply Hread; reflexivity | apply Hgone; discriminate].
Defined.

Section ReferenceSubtrees.
Implicit Types (p q : path) (w : gmap loc node) (l k lf lt : loc) (tm : text_mode)
  (names : list string).

Lemma locate_join_segments names : ∀ p,
  Forall proper_name names → locate (join_segments p names) = (locate p ++ names)%list.
Proof.
  unfold join_segments. induction names as [|f names IH]; intros p Hnames; simpl.
  - rewrite app_nil_r. reflexivity.
  - inversion Hnames as [|? ? Hf Hrest]; subst.
    rewrite (IH _ Hrest), (locate_join p f Hf), <- app_assoc. reflexivity.
Qed.

Lemma join_segments_nonempty names : ∀ p,
  Forall proper_name names → path_empty p = false →
  path_empty (join_segments p names) = false.
Proof.
  unfold join_segments. induction names as [|f names IH]; intros p Hnames Hp; simpl.
  - exact Hp.
  - inversion Hnames as [|? ? Hf Hrest]; subst. apply (IH _ Hrest).
    apply path_append_nonempty. destruct Hf as (Hne & _). unfold nonempty in Hne.
    destruct (path_empty f); [discriminate | reflexivity].
Qed.

(** The three checks look at the entry the path resolves to and at nothing
    else. *)
Lemma model_checks_same tm p q w w1 :
  path_empty p = false → path_empty q = false →
  node_at w1 (locate p) = node_at w (locate q) →
  path_exists (H := model_host tm) p w1 = path_exists (H := model_host tm) q w
  ∧ is_file_path (H := model_host tm) p w1 = is_file_path (H := model_host tm) q w
  ∧ is_dir_path (H := model_host tm) p w1 = is_dir_path (H := model_host tm) q w.
Proof.
  intros Hp Hq Hsame.
  unfold path_exists, is_file_path, is_dir_path, std_exists, std_is_regular_file,
    std_is_directory.
  simpl. unfold model_status.
  rewrite (resolve_nonempty p Hp), (resolve_nonempty q Hq), Hsame.
  destruct (node_at w (locate q)) as [[c|]|]; auto.
Qed.



End ReferenceSubtrees.



(** ** Walking a tree *)

Section ReferenceWalk.
Implicit Types (p q : path) (w : gmap loc node) (l k : loc) (tm : text_mode) (n : nat).













End ReferenceWalk.



(** ** Checks, and removal after creation *)

Section AnyHostChecks.
Context `{H : Host}.
Implicit Types (p : path) (w : world).

(** A status with a type other than the three of [fs.op.status] comes
    without an error. *)
Lemma status_clear p w :
  fst (std_status p w) = ft_regular ∨ fst (std_status p w) = ft_directory →
  snd (std_status p w) = None.
Proof.
  intros Htype. destruct (snd (std_status p w)) as [e|] eqn:Hec; [|reflexivity].
  destruct (status_error_type p w (mk_is_Some _ _ Hec)) as [Hreg Hdir].
  destruct Htype; contradiction.
Qed.

End AnyHostChecks.

(** X25.  On every host, a path that [is_file_path] or [is_dir_path]
    accepts exists, and none is accepted by both.  For a path that
    [is_file_path] accepts, [file_size_bytes] returns what the size query
    returns and throws only when the size query itself fails; for a path
    that [is_dir_path] accepts, [ensure_dir] returns and changes
    nothing. *)
Theorem checks_guard (H : Host) (p : path) (w : world) :
  (is_file_path p w = true →
   path_exists p w = true ∧ is_dir_path p w = false
   ∧ file_size_bytes p w =
       match std_file_size p w with
       | (_, Some e) =>
           Throw (system_error e ("rix::fs::file_size_bytes: file_size failed: " +:+ p))
       | (sz, None) => Ok sz
       end)
  ∧ (is_dir_path p w = true →
     path_exists p w = true ∧ is_file_path p w = false
     ∧ ensure_dir p w = (Ok (), w)).
Proof.
  split.
  - intros Hfile.
    assert (Hs : fst (std_status p w) = ft_regular).
    { unfold is_file_path, std_is_regular_file in Hfile.
      destruct (std_status p w) as [s ec]. apply bool_decide_eq_true in Hfile. exact Hfile. }
    pose proof (status_clear p w (or_introl Hs)) as Hec.
    split; [|split].
    + unfold path_exists, std_exists. destruct (std_status p w) as [s ec].
      simpl in Hs. subst s. reflexivity.
    + unfold is_dir_path, std_is_directory. destruct (std_status p w) as [s ec].
      simpl in Hs. subst s. reflexivity.
    + apply file_size_bytes_regular. destruct (std_status p w) as [s ec].
      simpl in *. subst. reflexivity.
  - intros Hdir.
    assert (Hs : fst (std_status p w) = ft_directory).
    { unfold is_dir_path, std_is_directory in Hdir.
      destruct (std_status p w) as [s ec]. apply bool_decide_eq_true in Hdir. exact Hdir. }
    split; [|split].
    + unfold path_exists, std_exists. destruct (std_status p w) as [s ec].
      simpl in Hs. subst s. reflexivity.
    + unfold is_file_path, std_is_regular_file. destruct (std_status p w) as [s ec].
      simpl in Hs. subst s. reflexivity.
    + apply ensure_dir_directory, Hs.
Qed.

Lemma checks_guard_witness :
  file_size_bytes (H := posix_host) "f" demo_world = Ok 5
  ∧ file_size_bytes (H := size_fault_host EIO) "f" demo_world
    = Throw (system_error EIO ("rix::fs::file_size_bytes: file_size failed: " +:+ "f"))
  ∧ ensure_dir (H := posix_host) "d" demo_world = (Ok (), demo_world).
Proof.
  destruct (checks_guard posix_host "f" demo_world) as [Hfile _].
  destruct (checks_guard (size_fault_host EIO) "f" demo_world) as [Hfault _].
  destruct (checks_guard posix_host "d" demo_world) as [_ Hdir].
  destruct (Hfile eq_refl) as (_ & _ & Hsize).
  destruct (Hfault eq_refl) as (_ & _ & Hthrow).
  destruct (Hdir eq_refl) as (_ & _ & Hens).
  split; [exact Hsize|]. split; [exact Hthrow | exact Hens].
Defined.

(** X26.  On the reference host, after [write_text] of a plain path has
    returned the path is a regular file; every plain path that resolves
    elsewhere exists, is a regular file and is a directory as before, and
    reads as it read unless it leads through the path; and the world has at
    most one entry more. *)
Theorem write_text_writes_one_file (tm : text_mode) (p : path) (text : string)
    (w w1 : gmap loc node) :
  plain p →
  write_text (H := model_host tm) p text w = (Ok (), w1) →
  path_exists (H := model_host tm) p w1 = true
  ∧ is_file_path (H := model_host tm) p w1 = true
  ∧ is_dir_path (H := model_host tm) p w1 = false
  ∧ (∀ q, plain q → locate q ≠ locate p →
          path_exists (H := model_host tm) q w1 = path_exists (H := model_host tm) q w
          ∧ is_file_path (H := model_host tm) q w1 = is_file_path (H := model_host tm) q w
          ∧ is_dir_path (H := model_host tm) q w1 = is_dir_path (H := model_host tm) q w
          ∧ (¬ locate p `prefix_of` locate q →
             read_text (H := model_host tm) q w1 = read_text (H := model_host tm) q w))
  ∧ (size w ≤ size w1 ≤ S (size w))%nat.
Proof.
  intros _ Hw. destruct (model_write_text_ok tm p text w w1 Hw) as (Hres & Hl & ->).
  apply resolve_inr in Hres as [_ Hp].
  assert (Hnode : node_at (<[locate p := File (text_out tm text)]> w) (locate p)
                  = Some (File (text_out tm text))) by (apply node_at_insert_eq, Hl).
  split; [|split; [|split; [|split]]].
  - rewrite model_path_exists, (resolve_nonempty p Hp), Hnode.
    apply bool_decide_eq_true_2. eauto.
  - apply model_is_file_path. eauto.
  - destruct (is_dir_path (H := model_host tm) p _) eqn:Hd; [|reflexivity].
    apply model_is_dir_path in Hd as [_ Hd]. rewrite Hnode in Hd. discriminate.
  - intros q _ Hq.
    assert (Hsame : node_at (<[locate p := File (text_out tm text)]> w) (locate q)
                    = node_at w (locate q))
      by (apply node_at_insert_ne; congruence).
    destruct (path_empty q) eqn:Hqe.
    { destruct q; [|discriminate]. repeat split. }
    destruct (model_checks_same tm q q w _ Hqe Hqe Hsame) as (He & Hfi & Hd).
    split; [exact He|]. split; [exact Hfi|]. split; [exact Hd|].
    intros Hway. apply model_same_way. intros k Hk.
    apply node_at_insert_ne. intros <-. apply Hway, Hk.
  - destruct (w !! locate p) as [n|] eqn:Hn.
    + rewrite (map_size_insert_Some (locate p) _ w) by eauto. lia.
    + rewrite (map_size_insert_None (locate p) _ w Hn). lia.
Qed.

Lemma write_text_writes_one_file_witness :
  is_file_path (H := crlf_host) "d/new"
    (snd (write_text (H := crlf_host) "d/new" "text" demo_world)) = true
  ∧ read_text (H := crlf_host) "f"
      (snd (write_text (H := crlf_host) "d/new" "text" demo_world))
    = read_text (H := crlf_host) "f" demo_world.
Proof.
  destruct (write_text_writes_one_file CRLF "d/new" "text" demo_world _
              ltac:(by_evaluation) eq_refl)
    as (_ & Hfile & _ & Hrest & _).
  split; [exact Hfile|].
  apply (Hrest "f"); [by_evaluation | discriminate|].
  vm_compute. intros [k Hk]. discriminate.
Defined.

(** X27.  On the reference host, removing what has just been created
    restores the world: [remove_file] after a [write_text] that created the
    file, and, in a world shaped like a tree, [remove_dir] after a
    [create_dir] that created the directory. *)
Theorem create_then_remove (tm : text_mode) (p : path) (w w1 : gmap loc node) :
  (∀ text, path_exists (H := model_host tm) p w = false →
           write_text (H := model_host tm) p text w = (Ok (), w1) →
           remove_file (H := model_host tm) p w1 = (Ok true, w))
  ∧ (tree_shaped w →
     create_dir (H := model_host tm) p w = (Ok true, w1) →
     remove_dir (H := model_host tm) p w1 = (Ok true, w)).
Proof.
  split.
  - intros text Hex Hw. destruct (model_write_text_ok tm p text w w1 Hw) as (Hres & Hl & ->).
    apply resolve_inr in Hres as [_ Hp].
    destruct (model_path_exists_none tm p w Hex) as [Hp' | [_ Hnone]]; [congruence|].
    rewrite (node_at_nonroot w _ Hl) in Hnone.
    unfold remove_file. simpl.
    rewrite (model_remove_file_entry p _ (text_out tm text) Hp Hl (lookup_insert_eq _ _ _)).
    rewrite delete_insert_id by exact Hnone. reflexivity.
  - intros Hw. unfold create_dir. simpl. unfold model_create_directory, resolve.
    destruct (path_empty p) eqn:Hp; [discriminate|].
    destruct (node_at w (locate p)) as [[c|]|] eqn:Hnone; try discriminate.
    destruct (node_at w (removelast (locate p))) as [[c|]|]; try discriminate.
    intros [= <-]. pose proof (node_at_none_nonroot _ _ Hnone) as Hl.
    rewrite (node_at_nonroot w _ Hl) in Hnone.
    unfold remove_dir. simpl.
    rewrite (model_remove_empty_dir p _ Hp Hl (lookup_insert_eq _ _ _)).
    + rewrite delete_insert_id by exact Hnone. reflexivity.
    + apply map_empty. intros k. apply map_lookup_filter_None.
      destruct (decide (locate p `prefix_of` k ∧ k ≠ locate p)) as [[[sfx ->] Hne]|Hno].
      * left. rewrite lookup_insert_ne by congruence.
        apply (tree_below_missing w _ sfx Hw).
        -- rewrite (node_at_nonroot w _ Hl), Hnone. discriminate.
        -- intros ->. rewrite app_nil_r in Hne. congruence.
      * right. intros n _. exact Hno.
Qed.

Lemma create_then_remove_witness :
  remove_file (H := posix_host) "d/new"
    (snd (write_text (H := posix_host) "d/new" "text" demo_world)) = (Ok true, demo_world)
  ∧ remove_dir (H := posix_host) "d/sub"
      (snd (create_dir (H := posix_host) "d/sub" demo_world)) = (Ok true, demo_world).
Proof.
  destruct (create_then_remove Transparent "d/new" demo_world
              (snd (write_text (H := posix_host) "d/new" "text" demo_world))) as [Hfile _].
  destruct (create_then_remove Transparent "d/sub" demo_world
              (snd (create_dir (H := posix_host) "d/sub" demo_world))) as [_ Hdir].
  split.
  - apply (Hfile "text"); reflexivity.
  - apply Hdir; [apply (bool_decide_unpack _); vm_compute; exact I | reflexivity].
Defined.

(** ** Worlds stay trees *)

Section TreesKept.
Implicit Types (p q : path) (w : gmap loc node) (l k lf lt : loc) (tm : text_mode)
  (x : node).

Lemma removelast_shorter {A} (k : list A) : k ≠ [] → removelast k ≠ k.
Proof.
  intros Hk Heq. apply (f_equal length) in Heq.
  destruct k as [|a k] using rev_ind; [congruence|].
  rewrite removelast_last, length_app in Heq. simpl in Heq. lia.
Qed.

Lemma removelast_prefix {A} (k : list A) : removelast k `prefix_of` k.
Proof.
  destruct k as [|a k] using rev_ind; [reflexivity|].
  rewrite removelast_last. apply prefix_app_r. reflexivity.
Qed.

Lemma removelast_snoc_inv {A} (k l : list A) :
  k ≠ [] → removelast k = l → ∃ a, k = (l ++ [a])%list.
Proof.
  intros Hk <-. destruct k as [|a k] using rev_ind; [congruence|].
  exists a. rewrite removelast_last. reflexivity.
Qed.

Lemma Forall_removelast {A} (P : A → Prop) (k : list A) :
  Forall P k → Forall P (removelast k).
Proof.
  destruct k as [|a k] using rev_ind; [auto|].
  rewrite removelast_last. intros Hk. apply Forall_app in Hk as [Hk _]. exact Hk.
Qed.

(** The names a path resolves to are filenames other than dot and
    dot-dot. *)
Lemma locate_proper p : Forall proper_name (locate p).
Proof.
  unfold locate. pose proof (filenames_are_names p) as Hnames.
  assert (Hgen : ∀ names cur, Forall is_name names → Forall proper_name cur →
                              Forall proper_name (fold_left step names cur)).
  { induction names as [|f names IH]; intros cur Hn Hcur; [exact Hcur|].
    inversion Hn as [|? ? [Hne Hsep] Hrest]; subst. simpl. apply (IH _ Hrest).
    unfold step. destruct (is_dot f) eqn:Hdot; [exact Hcur|].
    destruct (is_dotdot f) eqn:Hdotdot; [apply Forall_removelast, Hcur|].
    apply Forall_app. split; [exact Hcur|]. repeat constructor; assumption. }
  apply Hgen; [exact Hnames | constructor].
Qed.

Lemma tree_empty : tree_shaped ∅.
Proof. apply map_Forall_empty. Qed.

(** A new entry in a directory, or a regular file in the place of one,
    keeps a tree a tree. *)
Lemma tree_insert w l x :
  tree_shaped w → l ≠ [] → Forall proper_name l →
  node_at w (removelast l) = Some Dir →
  (x = Dir ∨ node_at w l ≠ Some Dir) →
  tree_shaped (<[l := x]> w).
Proof.
  intros Hw Hl Hnames Hpar Hx. apply map_Forall_lookup_2. intros k y Hk.
  assert (Hkeep : ∀ k', node_at w k' = Some Dir →
                        node_at (<[l := x]> w) k' = Some Dir).
  { intros k' Hk'. destruct (decide (l = k')) as [<-|Hne].
    - destruct Hx as [-> | Hx]; [apply node_at_insert_eq, Hl | contradiction].
    - rewrite node_at_insert_ne by exact Hne. exact Hk'. }
  destruct (decide (k = l)) as [->|Hne].
  - split; [exact Hl|]. split; [exact Hnames | apply Hkeep, Hpar].
  - rewrite lookup_insert_ne in Hk by congruence.
    destruct (tree_parent w k y Hw Hk) as (Hk0 & Hkn & Hkp).
    split; [exact Hk0|]. split; [exact Hkn | apply Hkeep, Hkp].
Qed.

(** So does the removal of an entry with nothing below it. *)
Lemma tree_delete w l :
  tree_shaped w → (∀ a, w !! (l ++ [a])%list = None) → tree_shaped (delete l w).
Proof.
  intros Hw Hleaf. apply map_Forall_lookup_2. intros k y Hk.
  apply lookup_delete_Some in Hk as [Hne Hk].
  destruct (tree_parent w k y Hw Hk) as (Hk0 & Hkn & Hkp).
  split; [exact Hk0|]. split; [exact Hkn|].
  destruct (removelast k) as [|b pk] eqn:Hpk; [reflexivity|].
  simpl in *. rewrite lookup_delete_ne; [exact Hkp|].
  intros Heq. subst l. destruct (removelast_snoc_inv k _ Hk0 Hpk) as [a ->].
  rewrite Hleaf in Hk. discriminate.
Qed.

(** And so does the removal of an entry with all that is below it. *)
Lemma tree_outside w l : tree_shaped w → tree_shaped (outside w l).
Proof.
  intros Hw. apply map_Forall_lookup_2. intros k y Hk.
  apply map_lookup_filter_Some in Hk as [Hk Hout]. simpl in Hout.
  destruct (tree_parent w k y Hw Hk) as (Hk0 & Hkn & Hkp).
  split; [exact Hk0|]. split; [exact Hkn|].
  destruct (removelast k) as [|b pk] eqn:Hpk; [reflexivity|].
  simpl in *. rewrite outside_lookup; [exact Hkp|].
  intros Hpre. apply Hout. etransitivity; [exact Hpre|].
  rewrite <- Hpk. apply removelast_prefix.
Qed.

Lemma tree_leaf_file w l c a :
  tree_shaped w → w !! l = Some (File c) → w !! (l ++ [a])%list = None.
Proof.
  intros Hw Hl. apply (tree_below_missing w l [a] Hw); [|discriminate].
  destruct (tree_parent w l _ Hw Hl) as (Hl0 & _).
  rewrite (node_at_nonroot w l Hl0), Hl. discriminate.
Qed.

Lemma tree_overwrite_file w l c c' :
  tree_shaped w → w !! l = Some (File c) → tree_shaped (<[l := File c']> w).
Proof.
  intros Hw Hl. destruct (tree_parent w l _ Hw Hl) as (Hl0 & Hnames & Hpar).
  apply tree_insert; try assumption. right.
  rewrite (node_at_nonroot w l Hl0), Hl. discriminate.
Qed.

Lemma model_ofstream_open_tree p mode w :
  tree_shaped w → tree_shaped (snd (model_ofstream_open p mode w)).
Proof.
  intros Hw. unfold model_ofstream_open, resolve.
  destruct (path_empty p); [exact Hw|].
  destruct (node_at w (locate p)) as [[c|]|] eqn:Hn; simpl; [|exact Hw|].
  - destruct (om_trunc mode); [|exact Hw].
    rewrite (node_at_nonroot w _ (node_at_file_nonroot _ _ _ Hn)) in Hn.
    apply (tree_overwrite_file w _ c _ Hw Hn).
  - destruct (node_at w (removelast (locate p))) as [[c|]|] eqn:Hpar; simpl;
      [exact Hw | | exact Hw].
    apply tree_insert; try assumption.
    + apply (node_at_none_nonroot _ _ Hn).
    + apply locate_proper.
    + right. rewrite Hn. discriminate.
Qed.

Lemma model_ofstream_write_tree tm (out : model_ofstream) data w :
  tree_shaped w → tree_shaped (snd (model_ofstream_write tm out data w)).
Proof.
  intros Hw. unfold model_ofstream_write.
  destruct (w !! os_loc out) as [[c|]|] eqn:Hn; simpl; [|exact Hw..].
  apply (tree_overwrite_file w _ c _ Hw Hn).
Qed.

Lemma model_copy_file_tree (from to : path) opt w :
  tree_shaped w → tree_shaped (snd (model_copy_file from to opt w)).
Proof.
  intros Hw. unfold model_copy_file, resolve.
  destruct (path_empty from); [exact Hw|].
  destruct (node_at w (locate from)) as [[c|]|]; [|exact Hw..].
  destruct (path_empty to); [exact Hw|].
  destruct (node_at w (locate to)) as [[c'|]|] eqn:Hn; [|exact Hw|].
  - destruct (bool_decide (locate from = locate to)); [exact Hw|].
    destruct opt; simpl; [exact Hw..|].
    rewrite (node_at_nonroot w _ (node_at_file_nonroot _ _ _ Hn)) in Hn.
    apply (tree_overwrite_file w _ c' _ Hw Hn).
  - destruct (node_at w (removelast (locate to))) as [[c'|]|] eqn:Hpar; simpl;
      [exact Hw | | exact Hw].
    apply tree_insert; try assumption.
    + apply (node_at_none_nonroot _ _ Hn).
    + apply locate_proper.
    + right. rewrite Hn. discriminate.
Qed.

Lemma model_remove_tree p w : tree_shaped w → tree_shaped (snd (model_remove p w)).
Proof.
  intros Hw. unfold model_remove.
  destruct (resolve p) as [e|[|f l]]; [exact Hw..|].
  destruct (w !! (f :: l)) as [[c|]|] eqn:Hn; simpl;
    [| |destruct (file_above w (f :: l)); exact Hw].
  - apply (tree_delete w _ Hw). intros a. apply (tree_leaf_file w _ c a Hw Hn).
  - destruct (bool_decide (below w (f :: l) = ∅)) eqn:Hempty; simpl; [|exact Hw].
    apply bool_decide_eq_true in Hempty.
    apply (tree_delete w _ Hw). intros a.
    apply (below_empty_lookup w _ [a] Hempty). discriminate.
Qed.

Lemma model_remove_all_tree p w : tree_shaped w → tree_shaped (snd (model_remove_all p w)).
Proof.
  intros Hw. unfold model_remove_all.
  destruct (resolve p) as [e|[|f l]]; simpl; [exact Hw | apply tree_outside, Hw |].
  destruct (w !! (f :: l)); simpl;
    [apply tree_outside, Hw | destruct (file_above w (f :: l)); exact Hw].
Qed.

Lemma model_create_directory_tree p w :
  tree_shaped w → tree_shaped (snd (model_create_directory p w)).
Proof.
  intros Hw. unfold model_create_directory, resolve.
  destruct (path_empty p); [exact Hw|].
  destruct (node_at w (locate p)) as [[c|]|] eqn:Hn; [exact Hw..|].
  destruct (node_at w (removelast (locate p))) as [[c|]|] eqn:Hpar; simpl;
    [exact Hw | | exact Hw].
  apply tree_insert; try assumption; [|apply locate_proper | auto].
  apply (node_at_none_nonroot _ _ Hn).
Qed.

Lemma make_path_tree names : ∀ w k created,
  tree_shaped w → node_at w k = Some Dir → Forall proper_name (k ++ names) →
  tree_shaped (snd (make_path w k names created)).
Proof.
  induction names as [|f names IH]; intros w k created Hw Hk Hnames; [exact Hw|].
  simpl. replace (k ++ f :: names)%list with ((k ++ [f]) ++ names)%list in Hnames
    by (rewrite <- app_assoc; reflexivity).
  pose proof (snoc_nonempty k f) as Hne.
  destruct (w !! (k ++ [f])%list) as [[c|]|] eqn:Hn; [exact Hw | |].
  - apply IH; [exact Hw | rewrite node_at_nonroot by exact Hne; exact Hn | exact Hnames].
  - apply IH; [|apply node_at_insert_eq, Hne | exact Hnames].
    apply tree_insert; try assumption.
    + apply Forall_app in Hnames as [Hkf _]. exact Hkf.
    + rewrite removelast_last. exact Hk.
    + auto.
Qed.

Lemma model_create_directories_tree p w :
  tree_shaped w → tree_shaped (snd (model_create_directories p w)).
Proof.
  intros Hw. unfold model_create_directories, resolve.
  destruct (path_empty p); [exact Hw|].
  apply make_path_tree; [exact Hw | reflexivity | apply locate_proper].
Qed.

(** Renaming keeps a tree a tree. *)
Lemma model_rename_tree (from to : path) w :
  tree_shaped w → tree_shaped (snd (model_rename from to w)).
Proof.
  intros Hw. destruct (model_rename from to w) as [[e|] w1] eqn:Hr.
  { assert (w1 = w) as ->; [|exact Hw]. revert Hr. unfold model_rename.
    repeat match goal with
           | |- context [match ?x with _ => _ end] => destruct x
           end; intros [= _ <-]; reflexivity. }
  simpl.
  assert (Hparent : node_at w (removelast (locate to)) = Some Dir).
  { revert Hr. unfold model_rename, resolve, parent_error.
    destruct (path_empty from); [discriminate|].
    destruct (node_at w (removelast (locate from))) as [[c|]|]; try discriminate.
    destruct (path_empty to); [discriminate|].
    destruct (node_at w (removelast (locate to))) as [[c|]|]; try discriminate.
    reflexivity. }
  destruct (model_rename_ok from to w w1 Hr) as (_ & _ & nf & Hnf & Hcase).
  destruct Hcase as [[_ ->] | (Hne & Hlf & Hlt & Hout & Hcase)]; [exact Hw|].
  rewrite (node_at_nonroot w _ Hlf) in Hnf.
  destruct Hcase as [(c & -> & Hnodir & ->) | (-> & Hin & Hto & ->)].
  - apply tree_insert; [|exact Hlt | apply locate_proper | |].
    + apply (tree_delete w _ Hw). intros a. apply (tree_leaf_file w _ c a Hw Hnf).
    + destruct (removelast (locate to)) as [|b pk] eqn:Hpk; [reflexivity|].
      simpl in *. rewrite lookup_delete_ne; [exact Hparent|].
      intros Heq. rewrite <- Heq, Hnf in Hparent. discriminate.
    + right. rewrite !(node_at_nonroot _ _ Hlt) in *.
      rewrite lookup_delete_ne by congruence. exact Hnodir.
  - assert (Hfree : ∀ sfx, ¬ locate from `prefix_of` (locate to ++ sfx)%list →
                           sfx ≠ [] → w !! (locate to ++ sfx)%list = None).
    { intros sfx _ Hs. destruct Hto as [Hnone | [_ Hempty]].
      - apply (tree_below_missing w _ sfx Hw); [congruence | exact Hs].
      - apply (below_empty_lookup w _ sfx Hempty Hs). }
    apply map_Forall_lookup_2. intros k y Hk.
    destruct (decide (locate to `prefix_of` k)) as [[sfx ->]|Hnot].
    + assert (Hsrc : w !! (locate from ++ sfx)%list = Some y).
      { apply lookup_union_Some_raw in Hk as [Hk | [Hnone Hright]].
        - rewrite rekey_lookup in Hk. exact Hk.
        - rewrite rekey_lookup in Hnone.
          apply map_lookup_filter_Some in Hright as [Hright Hrout]. simpl in Hrout.
          destruct sfx as [|a sfx].
          + rewrite app_nil_r in Hnone. rewrite Hnf in Hnone. discriminate.
          + rewrite (Hfree (a :: sfx) Hrout) in Hright by discriminate. discriminate. }
      destruct (tree_parent w _ y Hw Hsrc) as (_ & Hnames & Hpar).
      split; [intros Habs; apply app_eq_nil in Habs as [? _]; congruence|].
      split.
      { apply Forall_app. split; [apply locate_proper|].
        apply Forall_app in Hnames as [_ Hs]. exact Hs. }
      destruct sfx as [|a sfx] using rev_ind.
      * rewrite app_nil_r.
        destruct (removelast (locate to)) as [|b pk] eqn:Hpk; [reflexivity|].
        simpl in *. rewrite lookup_union_r.
        -- rewrite outside_lookup; [exact Hparent|].
           intros Hpre. apply Hin. etransitivity; [exact Hpre|].
           rewrite <- Hpk. apply removelast_prefix.
        -- apply rekey_lookup_other. intros Hpre.
           apply prefix_length in Hpre. rewrite <- Hpk in Hpre.
           assert (length (removelast (locate to)) < length (locate to))%nat; [|lia].
           destruct (locate to) as [|c' t] using rev_ind; [congruence|].
           rewrite removelast_last, length_app. simpl. lia.
      * clear IHsfx. rewrite app_assoc, removelast_last.
        rewrite app_assoc, removelast_last in Hpar.
        rewrite node_at_nonroot in Hpar
          by (intros Habs; apply app_eq_nil in Habs as [? _]; congruence).
        rewrite node_at_nonroot
          by (intros Habs; apply app_eq_nil in Habs as [? _]; congruence).
        apply lookup_union_Some_l. rewrite rekey_lookup. exact Hpar.
    + rewrite lookup_union_r in Hk by (apply rekey_lookup_other, Hnot).
      apply map_lookup_filter_Some in Hk as [Hk Hkout]. simpl in Hkout.
      destruct (tree_parent w k y Hw Hk) as (Hk0 & Hkn & Hkp).
      split; [exact Hk0|]. split; [exact Hkn|].
      destruct (removelast k) as [|b pk] eqn:Hpk; [reflexivity|].
      simpl in *.
      assert (Hpout : ¬ locate from `prefix_of` (b :: pk)).
      { intros Hpre. apply Hkout. etransitivity; [exact Hpre|].
        rewrite <- Hpk. apply removelast_prefix. }
      destruct (decide (locate to `prefix_of` (b :: pk))) as [[sfx Hsfx]|Hpnot].
      * exfalso. destruct (removelast_snoc_inv k _ Hk0 Hpk) as [a ->].
        rewrite Hsfx, <- app_assoc in Hk.
        rewrite (Hfree (sfx ++ [a])%list) in Hk; [discriminate | |].
        -- rewrite app_assoc, <- Hsfx. exact Hkout.
        -- destruct sfx; discriminate.
      * rewrite lookup_union_r by (apply rekey_lookup_other, Hpnot).
        rewrite outside_lookup by exact Hpout. exact Hkp.
Qed.

End TreesKept.

(** X28.  On the reference host, every function that changes the world
    turns a world shaped like a tree into a world shaped like a tree,
    whether it returns or throws. *)
Theorem trees_are_kept (tm : text_mode) (w : gmap loc node) :
  tree_shaped w →
  (∀ p text,
     tree_shaped (snd (write_text (H := model_host tm) p text w))
     ∧ tree_shaped (snd (append_text (H := model_host tm) p text w))
     ∧ tree_shaped (snd (write_bytes (H := model_host tm) p text w)))
  ∧ (∀ from to overwrite,
       tree_shaped (snd (copy_file (H := model_host tm) from to overwrite w))
       ∧ tree_shaped (snd (move (HT := model_tree tm) from to w))
       ∧ tree_shaped (snd (rename (HT := model_tree tm) from to w)))
  ∧ (∀ p,
       tree_shaped (snd (remove_file (H := model_host tm) p w))
       ∧ tree_shaped (snd (remove_dir (H := model_host tm) p w))
       ∧ tree_shaped (snd (remove_all (H := model_host tm) p w))
       ∧ tree_shaped (snd (recursive_remove (H := model_host tm) p w))
       ∧ tree_shaped (snd (create_dir (H := model_host tm) p w))
       ∧ tree_shaped (snd (create_dirs (H := model_host tm) p w))
       ∧ tree_shaped (snd (ensure_dir (H := model_host tm) p w))).
Proof.
  intros Hw. split; [|split].
  - intros p text.
    assert (Hstream : ∀ mode (guard : bool),
              tree_shaped
                (snd (match model_ofstream_open p mode w with
                      | (inl errno, w0) => (inl errno, w0)
                      | (inr out, w0) =>
                          let '(out, w0) :=
                            if guard then model_ofstream_write tm out text w0
                            else (out, w0) in
                          (inr out, w0)
                      end : (errc + model_ofstream) * gmap loc node))).
    { intros mode guard. pose proof (model_ofstream_open_tree p mode w Hw) as Hopen.
      destruct (model_ofstream_open p mode w) as [[e|out] w0]; [exact Hopen|].
      destruct guard; [|exact Hopen].
      pose proof (model_ofstream_write_tree tm out text w0 Hopen) as Hwr.
      destruct (model_ofstream_write tm out text w0). exact Hwr. }
    unfold write_text, append_text, write_bytes. simpl.
    split; [|split].
    + specialize (Hstream (ios_out |: ios_trunc) true).
      destruct (model_ofstream_open p (ios_out |: ios_trunc) w) as [[e|out] w0];
        [exact Hstream|].
      destruct (model_ofstream_write tm out text w0) as [out' w']. simpl in Hstream.
      destruct (os_fail out'); exact Hstream.
    + specialize (Hstream (ios_out |: ios_app) true).
      destruct (model_ofstream_open p (ios_out |: ios_app) w) as [[e|out] w0];
        [exact Hstream|].
      destruct (model_ofstream_write tm out text w0) as [out' w']. simpl in Hstream.
      destruct (os_fail out'); exact Hstream.
    + specialize (Hstream (ios_out |: ios_trunc |: ios_binary) (nonempty text)).
      destruct (model_ofstream_open p (ios_out |: ios_trunc |: ios_binary) w)
        as [[e|out] w0]; [exact Hstream|].
      destruct (nonempty text).
      * destruct (model_ofstream_write tm out text w0) as [out' w']. simpl in Hstream.
        destruct (os_fail out'); exact Hstream.
      * simpl in Hstream. destruct (os_fail out); exact Hstream.
  - intros from to overwrite.
    pose proof (model_copy_file_tree from to
                  (if overwrite then overwrite_existing else copy_none) w Hw) as Hcp.
    pose proof (model_rename_tree from to w Hw) as Hmv.
    unfold copy_file, rename, move. simpl.
    destruct (model_copy_file from to _ w) as [[ok ec] w1].
    destruct (model_rename from to w) as [ec' w2]. simpl in *.
    split; [destruct ec; [|destruct ok]; exact Hcp|].
    split; destruct ec'; exact Hmv.
  - intros p.
    pose proof (model_remove_tree p w Hw) as Hrm.
    pose proof (model_remove_all_tree p w Hw) as Hall.
    pose proof (model_create_directory_tree p w Hw) as Hmk.
    pose proof (model_create_directories_tree p w Hw) as Hmks.
    unfold remove_file, remove_dir, remove_all, recursive_remove, create_dir, create_dirs,
      ensure_dir, std_exists, std_is_directory.
    simpl.
    destruct (model_remove p w) as [[b1 e1] w1].
    destruct (model_remove_all p w) as [[n2 e2] w2].
    destruct (model_create_directory p w) as [[b3 e3] w3].
    destruct (model_create_directories p w) as [[b4 e4] w4]. simpl in *.
    split; [destruct e1; exact Hrm|]. split; [destruct e1; exact Hrm|].
    split; [destruct e2; exact Hall|]. split; [destruct e2; exact Hall|].
    split; [destruct e3; exact Hmk|]. split; [destruct e4; exact Hmks|].
    destruct (model_status p w) as [s ec]. destruct (status_known s); simpl.
    + destruct (exists_status s); simpl.
      * destruct (bool_decide (s = ft_directory)); exact Hw.
      * destruct e4; [destruct b4|]; exact Hmks.
    + destruct e4; [destruct b4|]; exact Hmks.
Qed.

Lemma trees_are_kept_witness :
  tree_shaped (snd (move (HT := model_tree Transparent) "d" "e/t" demo_tree))
  ∧ tree_shaped (snd (create_dirs (H := posix_host) "a/b/c" demo_tree)).
Proof.
  assert (Hw : tree_shaped demo_tree) by (apply (bool_decide_unpack _); vm_compute; exact I).
  destruct (trees_are_kept Transparent demo_tree Hw) as (_ & Hpair & Hone).
  split; [apply (Hpair "d" "e/t" false) | apply (Hone "a/b/c")].
Defined.

(** ** A file written into a directory *)

Section WrittenFiles.
Implicit Types (p d q : path) (w : gmap loc node) (l k : loc) (tm : text_mode).



End WrittenFiles.



(** ** Removal is local *)

Section LocalRemoval.
Implicit Types (p d q : path) (w : gmap loc node) (l k : loc) (tm : text_mode).

Lemma node_at_outside w l k : l ≠ [] → ¬ l `prefix_of` k → node_at (outside w l) k = node_at w k.
Proof.
  intros Hl Hk. destruct k as [|f k]; [reflexivity|]. simpl. apply outside_lookup, Hk.
Qed.

Lemma model_remove_all_cases p w n w1 :
  model_remove_all p w = (n, None, w1) →
  (w1 = w ∧ (path_empty p = true ∨ (locate p ≠ [] ∧ w !! locate p = None)))
  ∨ (w1 = outside w (locate p) ∧ locate p ≠ [] ∧ path_empty p = false).
Proof.
  unfold model_remove_all, resolve. destruct (path_empty p); [intros [= _ <-]; auto|].
  destruct (locate p) as [|f l]; [discriminate|].
  destruct (w !! (f :: l)) as [x|]; [intros [= _ <-]; right; auto|].
  destruct (file_above w (f :: l)); [discriminate|]. intros [= _ <-]. left. auto.
Qed.

End LocalRemoval.

(** X30.  On the reference host, in a world shaped like a tree, after
    [remove_all] or [recursive_remove] has returned for a plain path that
    is not empty, nothing exists at the path or below it, and every plain
    path that does not lead through it is what it was and reads as it
    read. *)
Theorem removal_is_local (tm : text_mode) (p : path) (w w1 : gmap loc node) (n : Z) :
  tree_shaped w → plain p → path_empty p = false →
  remove_all (H := model_host tm) p w = (Ok n, w1)
  ∨ recursive_remove (H := model_host tm) p w = (Ok n, w1) →
  (∀ names, Forall proper_name names →
            path_exists (H := model_host tm) (join_segments p names) w1 = false)
  ∧ (∀ q, plain q → ¬ locate p `prefix_of` locate q →
          path_exists (H := model_host tm) q w1 = path_exists (H := model_host tm) q w
          ∧ is_file_path (H := model_host tm) q w1 = is_file_path (H := model_host tm) q w
          ∧ is_dir_path (H := model_host tm) q w1 = is_dir_path (H := model_host tm) q w
          ∧ read_text (H := model_host tm) q w1 = read_text (H := model_host tm) q w).
Proof.
  intros Hw _ Hp Hret.
  assert (Hrm : ∃ m, model_remove_all p w = (m, None, w1)).
  { destruct Hret as [Hret|Hret]; revert Hret; unfold remove_all, recursive_remove; simpl;
      destruct (model_remove_all p w) as [[m [e|]] w']; intros [= _ <-]; eauto. }
  destruct Hrm as [m Hrm].
  apply model_remove_all_cases in Hrm as [[-> Habs]|(-> & Hl & _)].
  - destruct Habs as [Hemp|[Hl Hnone]]; [congruence|]. split.
    + intros names Hnames.
      rewrite model_path_exists_node by (apply join_segments_nonempty; assumption).
      rewrite (locate_join_segments names p Hnames).
      apply bool_decide_eq_false_2. intros [x Hx].
      assert (Hne : (locate p ++ names)%list ≠ []) by (destruct (locate p); [congruence | discriminate]).
      rewrite (node_at_nonroot _ _ Hne) in Hx.
      destruct names as [|f names]; [rewrite app_nil_r in Hx; congruence|].
      rewrite (tree_below_missing w (locate p) (f :: names) Hw) in Hx; [discriminate| |discriminate].
      rewrite (node_at_nonroot _ _ Hl), Hnone. discriminate.
    + intros q _ _. apply model_same_way. reflexivity.
  - split.
    + intros names Hnames.
      rewrite model_path_exists_node by (apply join_segments_nonempty; assumption).
      rewrite (locate_join_segments names p Hnames).
      apply bool_decide_eq_false_2. intros [x Hx].
      assert (Hne : (locate p ++ names)%list ≠ []) by (destruct (locate p); [congruence | discriminate]).
      rewrite (node_at_nonroot _ _ Hne), outside_lookup_below in Hx. discriminate.
    + intros q _ Hq. apply model_same_way. intros k Hk.
      apply node_at_outside; [exact Hl|]. intros Habs. apply Hq. etransitivity; eassumption.
Qed.

Lemma removal_is_local_witness :
  path_exists (H := posix_host) (join_segments "d" ["g"])
    (snd (recursive_remove (H := posix_host) "d" demo_tree)) = false
  ∧ read_text (H := posix_host) "f" (snd (recursive_remove (H := posix_host) "d" demo_tree))
    = read_text (H := posix_host) "f" demo_tree.
Proof.
  destruct (removal_is_local Transparent "d" demo_tree _ 3
              ltac:(by_evaluation) ltac:(by_evaluation) eq_refl
              (or_intror eq_refl)) as [Hgone Hrest].
  split.
  - apply (Hgone ["g"]). by_evaluation.
  - apply Hrest; by_evaluation.
Defined.
